(** * rl_memory: knowledge stores and the memory architecture

    A shallow embedding of [rl_memory.py]: the two self-contained knowledge
    stores ([NaiveDictKB], [NetworkXKB]) and, of the memory-architecture
    meta-environment, the buffers, the generation of the legal actions and
    the episode lifecycle, followed by the properties the specification
    states about them and further properties of the code.  The store over
    a SPARQL endpoint ([SparqlKB]) is embedded over a parameter for what
    the endpoint answers.  The reaction to actions ([react],
    [_process_internal_actions], [_query_ltm]) is not part of the
    development: the [retrieval] buffer shares the record it holds with the
    store that returned it, and the assignment and deletion of items of a
    [TreeMultiMap] are defined outside the file.

    Conventions.
    - Python [int] is [Z]; attribute names, buffer names, memory identifiers
      and values are strings.
    - A method of a Python object is a function from the object to an
      [outcome] (a returned value or a raised exception) paired with the
      object after the call, so that mutations made before a [raise] stay
      visible.
    - Part I holds the definitions, Part II the lemmas and theorems. *)

From Stdlib Require Import ZArith Lia Permutation OrdersEx.
From stdpp Require Import gmap strings list fin_maps sorting pretty.

Local Open Scope Z_scope.

(* ===================================================================== *)
(** * Part I. Definitions *)
(* ===================================================================== *)

(** ** Exceptions and outcomes *)

Inductive exn : Set :=
| TypeError
| KeyError
| IndexError
| ValueError
| ZeroDivisionError
| NotImplementedError.

Inductive outcome (A : Type) : Type :=
| Ok (a : A)
| Raise (e : exn).
Arguments Ok {A} a.
Arguments Raise {A} e.

#[global] Instance outcome_ret : MRet outcome := λ A a, Ok a.
#[global] Instance outcome_bind : MBind outcome := λ A B f m,
  match m with
  | Ok a => f a
  | Raise e => Raise e
  end.
#[global] Instance outcome_fmap : FMap outcome := λ A B f m,
  match m with
  | Ok a => Ok (f a)
  | Raise e => Raise e
  end.

#[global] Instance exn_eq_dec : EqDecision exn.
Proof. solve_decision. Defined.

(** ** Python list primitives *)

(** [l[i]]: negative indices count from the end, anything outside
    [-len, len) raises [IndexError]. *)
Definition py_getitem {A} (l : list A) (i : Z) : outcome A :=
  let n := Z.of_nat (length l) in
  let j := if i <? 0 then i + n else i in
  if (0 <=? j) && (j <? n) then
    match l !! Z.to_nat j with
    | Some x => Ok x
    | None => Raise IndexError
    end
  else Raise IndexError.

(** [l.index(x)]: position of the first element equal to [x], [ValueError]
    when there is none. *)
Fixpoint py_index `{EqDecision A} (x : A) (l : list A) : outcome Z :=
  match l with
  | [] => Raise ValueError
  | y :: l' => if decide (y = x) then Ok 0 else Z.succ <$> py_index x l'
  end.

(** [sorted(l)] over a comparison [lt] (Python's [<]) that may raise.
    Python's sort is stable and only ever asks [<]; it is modelled by a
    stable insertion sort, which returns what any stable comparison sort
    returns whenever [<] is defined and transitive on the elements.  Which
    comparisons are made, and so which inputs raise when [<] is partial, is
    particular to the sorting algorithm. *)
Section py_sorted.
Context {A : Type} (lt : A → A → outcome bool).

Fixpoint py_insert (x : A) (l : list A) : outcome (list A) :=
  match l with
  | [] => Ok [x]
  | y :: l' =>
      b ← lt y x;
      if b : bool then (y ::.) <$> py_insert x l' else Ok (x :: y :: l')
  end.

Fixpoint py_sorted (l : list A) : outcome (list A) :=
  match l with
  | [] => Ok []
  | x :: l' => r ← py_sorted l'; py_insert x r
  end.

(** [sorted(l, reverse=True)]: the list is reversed, sorted, and reversed
    again, so equal elements keep their original order. *)
Definition py_sorted_reverse (l : list A) : outcome (list A) :=
  reverse <$> py_sorted (reverse l).
End py_sorted.

(** ** TreeMultiMap *)

(** Modelled from the spec: [TreeMultiMap] lives in
    [research/data_structures.py], which is not under src/.  The spec calls
    a buffer and a memory record "an ordered mapping from attribute name to
    value"; it is represented by its items, ordered by attribute, values of
    one attribute in the order they were added. *)
Definition TreeMultiMap : Type := list (string * string).

Definition tmm_empty : TreeMultiMap := [].

(** [m.add(k, v)] *)
Fixpoint tmm_add (k v : string) (m : TreeMultiMap) : TreeMultiMap :=
  match m with
  | [] => [(k, v)]
  | (k', v') :: m' =>
      if String.ltb k k' then (k, v) :: m else (k', v') :: tmm_add k v m'
  end.

(** The [TreeMultiMap] of keyword arguments, taken in call order. *)
Definition tmm_of_kwargs (kwargs : list (string * string)) : TreeMultiMap :=
  foldl (λ m kv, tmm_add kv.1 kv.2 m) tmm_empty kwargs.

(** [m.get(k, None)]; [k in m] is [is_Some] of it and [m[k]] its value. *)
Fixpoint tmm_get (k : string) (m : TreeMultiMap) : option string :=
  match m with
  | [] => None
  | (k', v') :: m' => if decide (k' = k) then Some v' else tmm_get k m'
  end.

(** [m.items()] and iteration over [m] (its attributes). *)
Definition tmm_items (m : TreeMultiMap) : list (string * string) := m.
Definition tmm_keys (m : TreeMultiMap) : list string := m.*1.

(** Truthiness of a mapping: non-empty. *)
Definition tmm_bool (m : TreeMultiMap) : bool :=
  match m with [] => false | _ => true end.

(** One order on records, used in the examples: by items, attribute before
    value, a proper prefix first. *)
Fixpoint items_ltb (a b : TreeMultiMap) : bool :=
  match a, b with
  | [], [] => false
  | [], _ :: _ => true
  | _ :: _, [] => false
  | (k, v) :: a', (k', v') :: b' =>
      if String.ltb k k' then true
      else if String.ltb k' k then false
      else if String.ltb v v' then true
      else if String.ltb v' v then false
      else items_ltb a' b'
  end.

(** ** The naive store *)

Module NaiveDictKB.

Record t : Type := mk {
  knowledge : list TreeMultiMap;
  query_index : option Z;
  query_matches : list TreeMultiMap;
}.

(** [__init__] *)
Definition init : t :=
  {| knowledge := []; query_index := None; query_matches := [] |}.

Definition clear (self : t) : outcome unit * t :=
  (Ok (), {| knowledge := []; query_index := None; query_matches := [] |}).

(** [store(mem_id=None, **kwargs)] *)
Definition store (mem_id : option string) (kwargs : list (string * string))
    (self : t) : outcome bool * t :=
  (Ok true,
   {| knowledge := knowledge self ++ [tmm_of_kwargs kwargs];
      query_index := query_index self;
      query_matches := query_matches self |}).

Definition retrieve (mem_id : string) (self : t)
    : outcome (option TreeMultiMap) * t :=
  (Raise NotImplementedError, self).

(** The test of the linear scan:
    [all(attr in candidate and candidate[attr] == val ...)]. *)
Definition matches (attr_vals candidate : TreeMultiMap) : bool :=
  forallb (λ av, bool_decide (tmm_get av.1 candidate = Some av.2))
          (tmm_items attr_vals).

Section ordering.
(** [TreeMultiMap.__lt__], the order [sorted] uses; it is defined in
    the module that is not under src/ and is taken as a parameter. *)
Variable tmm_lt : TreeMultiMap → TreeMultiMap → bool.

Definition query (attr_vals : TreeMultiMap) (self : t)
    : outcome (option TreeMultiMap) * t :=
  let candidates := filter (λ c, matches attr_vals c = true)
                           (knowledge self) in
  match candidates with
  | _ :: _ =>
      let curr_retrieved :=
        match query_index self with
        | Some i => Some <$> py_getitem (query_matches self) i
        | None => Ok None
        end in
      match curr_retrieved with
      | Raise e => (Raise e, self)
      | Ok curr =>
          match py_sorted (λ a b, Ok (tmm_lt a b)) candidates with
          | Raise e => (Raise e, self)
          | Ok sorted_candidates =>
              let index :=
                match curr with
                | Some r =>
                    match py_index r sorted_candidates with
                    | Ok i => i
                    | Raise _ => 0
                    end
                | None => 0
                end in
              let self' :=
                {| knowledge := knowledge self;
                   query_index := Some index;
                   query_matches := sorted_candidates |} in
              (Some <$> py_getitem sorted_candidates index, self')
          end
      end
  | [] =>
      (Ok None,
       {| knowledge := knowledge self;
          query_index := None;
          query_matches := [] |})
  end.
End ordering.

Definition has_prev_result (self : t) : bool := true.
Definition has_next_result (self : t) : bool := true.

(** [self.query_index = (self.query_index + step) % len(self.query_matches)]
    followed by [return self.query_matches[self.query_index]]. *)
Definition move (step : Z) (self : t) : outcome TreeMultiMap * t :=
  match query_index self with
  | None => (Raise TypeError, self)
  | Some i =>
      let n := Z.of_nat (length (query_matches self)) in
      if n =? 0 then (Raise ZeroDivisionError, self)
      else
        let self' :=
          {| knowledge := knowledge self;
             query_index := Some ((i + step) `mod` n);
             query_matches := query_matches self |} in
        (py_getitem (query_matches self) ((i + step) `mod` n), self')
  end.

Definition prev_result (self : t) : outcome TreeMultiMap * t := move (-1) self.
Definition next_result (self : t) : outcome TreeMultiMap * t := move 1 self.

Definition retrievable (mem_id : string) : bool := false.

(** *** Notions used to state the properties of the store *)

(** The cursor, when there is one, points into the cached matches. *)
Definition wf (self : t) : Prop :=
  match query_index self with
  | None => True
  | Some i => 0 ≤ i < Z.of_nat (length (query_matches self))
  end.

(** The record the cursor selects, if any. *)
Definition selected (self : t) : option TreeMultiMap :=
  i ← query_index self; query_matches self !! Z.to_nat i.

(** What [k] successive calls of [next_result] return, and the store
    they leave. *)
Fixpoint next_results (k : nat) (self : t)
    : list (outcome TreeMultiMap) * t :=
  match k with
  | O => ([], self)
  | S k' =>
      let '(r, self') := next_result self in
      let '(rs, self'') := next_results k' self' in
      (r :: rs, self'')
  end.

(** The stores a program can get to through the methods. *)
Inductive reachable (tmm_lt : TreeMultiMap → TreeMultiMap → bool)
    : t → Prop :=
| reachable_init : reachable tmm_lt init
| reachable_clear s : reachable tmm_lt s → reachable tmm_lt (clear s).2
| reachable_store s mem_id kwargs :
    reachable tmm_lt s → reachable tmm_lt (store mem_id kwargs s).2
| reachable_retrieve s mem_id :
    reachable tmm_lt s → reachable tmm_lt (retrieve mem_id s).2
| reachable_query s attr_vals :
    reachable tmm_lt s → reachable tmm_lt (query tmm_lt attr_vals s).2
| reachable_prev_result s :
    reachable tmm_lt s → reachable tmm_lt (prev_result s).2
| reachable_next_result s :
    reachable tmm_lt s → reachable tmm_lt (next_result s).2.

(** *** A store for the examples *)

(** Three cells of a grid are stored, the row-1 cells are queried and the
    cursor is moved on to the second of the two matches. *)
Definition grid_store : t :=
  let s0 := (store None [("index", "5"); ("row", "1"); ("col", "0")] init).2 in
  let s1 := (store None [("index", "6"); ("row", "1"); ("col", "1")] s0).2 in
  (store None [("index", "0"); ("row", "0"); ("col", "0")] s1).2.

Definition queried_store : t :=
  (query items_ltb [("row", "1")] grid_store).2.

Definition example_store : t := (next_result queried_store).2.

End NaiveDictKB.

(** ** Activation histories *)

(** The numbers that occur in activation data: the clock is an [int], an
    activation is the [int] [1] or a [float] rounded to two decimals, held
    here in hundredths.  Python compares the two kinds by value. *)
Inductive pynum : Set :=
| PyInt (n : Z)
| PyFloat (hundredths : Z).

Definition num_scaled (x : pynum) : Z :=
  match x with
  | PyInt n => 100 * n
  | PyFloat h => h
  end.

Definition num_eqb (x y : pynum) : bool := num_scaled x =? num_scaled y.
Definition num_ltb (x y : pynum) : bool := num_scaled x <? num_scaled y.

(** An element of a node's [activation] list: a bare number (value nodes
    are created with the flat list [[time, activation]]), the tuple
    [(time, activation)] a fresh identifier node starts with, or a list
    [[time, activation]] as handed to the activation function. *)
Inductive entry : Set :=
| ENum (x : pynum)
| ETuple (time : Z) (act : pynum)
| EList (time : Z) (act : pynum).

(** [==] on entries: sequences of different type are unequal. *)
Definition entry_eqb (x y : entry) : bool :=
  match x, y with
  | ENum a, ENum b => num_eqb a b
  | ETuple t a, ETuple t' a' | EList t a, EList t' a' =>
      (t =? t') && num_eqb a a'
  | _, _ => false
  end.

(** [<] on entries: lexicographic inside one kind, [TypeError] across
    kinds. *)
Definition entry_lt (x y : entry) : outcome bool :=
  match x, y with
  | ENum a, ENum b => Ok (num_ltb a b)
  | ETuple t a, ETuple t' a' | EList t a, EList t' a' =>
      Ok (if t =? t' then num_ltb a a' else t <? t')
  | _, _ => Raise TypeError
  end.

(** [<] on activation lists: the first pair of unequal elements decides,
    a proper prefix is smaller. *)
Fixpoint history_lt (h1 h2 : list entry) : outcome bool :=
  match h1, h2 with
  | [], [] => Ok false
  | [], _ :: _ => Ok true
  | _ :: _, [] => Ok false
  | x :: h1', y :: h2' =>
      if entry_eqb x y then history_lt h1' h2' else entry_lt x y
  end.

(** The integer nearest to [n / d] for [d ≠ 0], halves to the even side. *)
Definition round_half_even (n d : Z) : Z :=
  let n' := if d <? 0 then - n else n in
  let d' := Z.abs d in
  let q := n' / d' in
  let r := n' `mod` d' in
  if 2 * r <? d' then q
  else if d' <? 2 * r then q + 1
  else if Z.even q then q else q + 1.

(** ** The graph *)

(** The part of [networkx.MultiDiGraph] the store uses: the node table with
    each node's [activation] attribute, and the successor table, which maps
    a node to its neighbours in order of first connection and each
    neighbour to the [attribute] labels of the parallel edges, edge key [k]
    at position [k]. *)
Record MultiDiGraph : Type := mkGraph {
  nodes : gmap string (list entry);
  adj : gmap string (list (string * list string));
}.

Definition graph_empty : MultiDiGraph := {| nodes := ∅; adj := ∅ |}.

(** [n in graph] *)
Definition graph_contains (n : string) (g : MultiDiGraph) : bool :=
  bool_decide (is_Some (nodes g !! n)).

(** [graph.add_node(n, activation=a)] *)
Definition add_node (n : string) (a : list entry) (g : MultiDiGraph)
    : MultiDiGraph :=
  {| nodes := <[n := a]> (nodes g); adj := adj g |}.

Fixpoint add_neighbour (v attribute : string)
    (nbrs : list (string * list string)) : list (string * list string) :=
  match nbrs with
  | [] => [(v, [attribute])]
  | (w, keys) :: nbrs' =>
      if decide (w = v) then (w, keys ++ [attribute]) :: nbrs'
      else (w, keys) :: add_neighbour v attribute nbrs'
  end.

(** [graph.add_edge(u, v, attribute=a)]; both end points are nodes already
    wherever the store calls it.  The new edge gets the next free key. *)
Definition add_edge (u v attribute : string) (g : MultiDiGraph)
    : MultiDiGraph :=
  {| nodes := nodes g;
     adj := <[u := add_neighbour v attribute (default [] (adj g !! u))]> (adj g) |}.

Fixpoint neighbour_keys (v : string) (nbrs : list (string * list string))
    : option (list string) :=
  match nbrs with
  | [] => None
  | (w, keys) :: nbrs' =>
      if decide (w = v) then Some keys else neighbour_keys v nbrs'
  end.

(** [graph.get_edge_data(u, v)]: the labels of the edges from [u] to [v]
    by key, [None] when there is no such edge. *)
Definition get_edge_data (u v : string) (g : MultiDiGraph)
    : option (list string) :=
  nbrs ← adj g !! u; neighbour_keys v nbrs.

(** [(u, v) in graph.edges]: for a pair the view asks for key [0]. *)
Definition has_edge (u v : string) (g : MultiDiGraph) : bool :=
  match get_edge_data u v g with
  | Some (_ :: _) => true
  | _ => false
  end.

(** [graph.out_edges(u, data=True)] as (source, target, label) triples:
    neighbour by neighbour, and by key for one neighbour. *)
Definition out_edges (u : string) (g : MultiDiGraph)
    : list (string * string * string) :=
  nbr ← default [] (adj g !! u);
  (λ attribute, (u, nbr.1, attribute)) <$> nbr.2.

(** [graph.nodes[n]['activation']] *)
Definition node_activation (n : string) (g : MultiDiGraph)
    : outcome (list entry) :=
  match nodes g !! n with
  | Some a => Ok a
  | None => Raise KeyError
  end.

(** ** The graph store *)

Module NetworkXKB.

(** [self.activation_fn] is called as
    [activation_fn(graph, mem_id, [time, activation])]; it works on the
    graph in place and may raise. *)
Definition activation_fn_t : Type :=
  MultiDiGraph → string → Z * pynum → outcome MultiDiGraph.

Record t : Type := mk {
  activation_fn : activation_fn_t;
  graph : MultiDiGraph;
  inverted_index : gmap string (gset string);
  query_results : option (list string);
  result_index : option Z;
  time : Z;
  activaton_list : list (Z * pynum);
}.

Definition with_graph (g : MultiDiGraph) (self : t) : t :=
  mk (activation_fn self) g (inverted_index self) (query_results self)
     (result_index self) (time self) (activaton_list self).

Definition with_inverted_index (idx : gmap string (gset string))
    (self : t) : t :=
  mk (activation_fn self) (graph self) idx (query_results self)
     (result_index self) (time self) (activaton_list self).

Definition with_cursor (results : option (list string))
    (index : option Z) (self : t) : t :=
  mk (activation_fn self) (graph self) (inverted_index self) results
     index (time self) (activaton_list self).

(** The default of [__init__], [lambda graph, mem_id: None]: it takes two
    arguments, every call site passes three, so calling it raises. *)
Definition default_activation_fn : activation_fn_t :=
  λ _ _ _, Raise TypeError.

Definition getTime (self : t) : Z := time self.

(** [1 / time] for an [int] other than 0: the double nearest to the
    quotient, halves to the even significand, as the pair of [m] and [k]
    with [|1 / time| = m / 2^k].  For [2^l ≤ |time| < 2^(l+1)] the quotient
    [2^(53+l) / |time|] lies between [2^52] and [2^53], so that rounding it
    to an integer keeps the 53 significant bits of a double. *)
Definition float_reciprocal (time : Z) : Z * Z :=
  let k := 53 + Z.log2 (Z.abs time) in
  (round_half_even (2 ^ k) (Z.abs time), k).

(** [round(1 / time, 2)]: [round] takes the exact value of the double
    [1 / time] to the nearest hundredth, halves to the even side, and the
    sign goes through both roundings.  At times 40 and 200 the double lies
    above 0.025 and 0.005 and the result is 0.03 and 0.01.  Where the
    quotient is below the normal doubles, beyond [2^1022], the double has
    fewer bits or is zero, and the result is 0.0 there as it is here. *)
Definition getActivation (self : t) : pynum :=
  if time self =? 0 then PyInt 1
  else
    let '(m, k) := float_reciprocal (time self) in
    PyFloat (Z.sgn (time self) * round_half_even (100 * m) (2 ^ k)).

Definition pass_time (dt : Z) (self : t) : t :=
  mk (activation_fn self) (graph self) (inverted_index self)
     (query_results self) (result_index self) (time self + dt)
     (activaton_list self).

Definition clear (self : t) : outcome unit * t :=
  (Ok (),
   mk (activation_fn self) graph_empty ∅ None None (time self)
      (activaton_list self)).

(** [__init__(activation_fn=None)] *)
Definition init (fn : option activation_fn_t) : t :=
  (clear (mk (default default_activation_fn fn) graph_empty ∅ None None 0 [])).2.

(** [self.inverted_index[attribute].add(mem_id)] on a [defaultdict(set)] *)
Definition index_add (attribute mem_id : string)
    (idx : gmap string (gset string)) : gmap string (gset string) :=
  <[attribute := {[mem_id]} ∪ default ∅ (idx !! attribute)]> idx.

(** Reading [self.inverted_index[attribute]] creates a missing entry. *)
Definition index_touch (idx : gmap string (gset string))
    (attribute : string) : gmap string (gset string) :=
  match idx !! attribute with
  | Some _ => idx
  | None => <[attribute := ∅]> idx
  end.

(** One round of the loop of [store] over the keyword arguments. *)
Definition store_attribute (mem_id : string) (now : Z) (act : pynum)
    (acc : MultiDiGraph * gmap string (gset string))
    (kv : string * string) : MultiDiGraph * gmap string (gset string) :=
  let '(attribute, value) := kv in
  let g := if graph_contains value acc.1 then acc.1
           else add_node value [ENum (PyInt now); ENum act] acc.1 in
  (add_edge mem_id value attribute g, index_add attribute mem_id acc.2).

(** The second pass of [query] for one term:
    [(candidate, value) in self.graph.edges and
     self.graph.get_edge_data(candidate, value)[0]['attribute'] == attribute] *)
Definition edge_matches (g : MultiDiGraph) (candidate : string)
    (av : string * string) : bool :=
  has_edge candidate av.2 g &&
  match get_edge_data candidate av.2 g with
  | Some (attribute0 :: _) => bool_decide (attribute0 = av.1)
  | _ => false
  end.

Definition candidate_matches (g : MultiDiGraph) (attr_vals : TreeMultiMap)
    (candidate : string) : bool :=
  forallb (edge_matches g candidate) (tmm_items attr_vals).

(** [<] on the sort keys, each paired with its identifier. *)
Definition keyed_lt (x y : list entry * string) : outcome bool :=
  history_lt x.1 y.1.

Fixpoint with_keys (g : MultiDiGraph) (l : list string)
    : outcome (list (list entry * string)) :=
  match l with
  | [] => Ok []
  | m :: l' =>
      k ← node_activation m g;
      r ← with_keys g l';
      Ok ((k, m) :: r)
  end.

(** [sorted(candidates, key=lambda mem_id: graph.nodes[mem_id]['activation'],
    reverse=True)] for the candidates in the order the set yields them. *)
Definition sort_by_activation (g : MultiDiGraph) (candidates : list string)
    : outcome (list string) :=
  keyed ← with_keys g candidates;
  r ← py_sorted_reverse keyed_lt keyed;
  Ok (r.*2).

(** The record [_activate_and_return] builds: every outgoing edge of the
    node adds its label and its target. *)
Definition record_of (mem_id : string) (g : MultiDiGraph) : TreeMultiMap :=
  foldl (λ result e, tmm_add e.2 e.1.2 result) tmm_empty (out_edges mem_id g).

Definition _activate_and_return (mem_id : string) (activation : Z * pynum)
    (self : t) : outcome TreeMultiMap * t :=
  match activation_fn self (graph self) mem_id activation with
  | Raise e => (Raise e, self)
  | Ok g => (Ok (record_of mem_id g), with_graph g self)
  end.

Definition retrieve (mem_id : string) (self : t)
    : outcome (option TreeMultiMap) * t :=
  if graph_contains mem_id (graph self) then
    let self1 := pass_time 1 self in
    let '(r, self2) :=
      _activate_and_return mem_id (getTime self1, getActivation self1) self1 in
    (Some <$> r, self2)
  else (Ok None, self).

Definition has_prev_result (self : t) : outcome bool :=
  match query_results self, result_index self with
  | None, _ => Ok false
  | Some _, Some i => Ok (0 <? i)
  | Some _, None => Raise TypeError
  end.

Definition has_next_result (self : t) : outcome bool :=
  match query_results self, result_index self with
  | None, _ => Ok false
  | Some results, Some i => Ok (i <? Z.of_nat (length results) - 1)
  | Some _, None => Raise TypeError
  end.

(** [self.result_index += step], [currNode = self.query_results[self.result_index]],
    then [_activate_and_return]. *)
Definition move (step : Z) (self : t) : outcome TreeMultiMap * t :=
  match result_index self with
  | None => (Raise TypeError, self)
  | Some i =>
      let self1 := with_cursor (query_results self) (Some (i + step)) self in
      match query_results self with
      | None => (Raise TypeError, self1)
      | Some results =>
          match py_getitem results (i + step) with
          | Raise e => (Raise e, self1)
          | Ok currNode =>
              _activate_and_return currNode
                (getTime self1, getActivation self1) self1
          end
      end
  end.

Definition prev_result (self : t) : outcome TreeMultiMap * t := move (-1) self.
Definition next_result (self : t) : outcome TreeMultiMap * t := move 1 self.

Definition retrievable (mem_id : string) : bool := true.

(** The inverted index once [query] has read the entry of every queried
    attribute. *)
Definition touched_index (attr_vals : TreeMultiMap) (self : t)
    : gmap string (gset string) :=
  foldl index_touch (inverted_index self) (tmm_keys attr_vals).

(** The two passes of [query] that select the candidates:
    [set.intersection] over the index entries of the queried attributes
    (it raises when there is none, which [query] below checks first), then
    the filter on the edges. *)
Definition candidates (attr_vals : TreeMultiMap) (self : t) : gset string :=
  let idx := touched_index attr_vals self in
  match tmm_keys attr_vals with
  | [] => ∅
  | attribute0 :: attributes =>
      (* first pass: get candidates with all the attributes *)
      let candidates : gset string :=
        foldl (λ acc attribute, acc ∩ default ∅ (idx !! attribute))
              (default ∅ (idx !! attribute0)) attributes in
      (* second pass: get candidates with the correct values *)
      filter (λ c, candidate_matches (graph self) attr_vals c = true)
             candidates
  end.

Section runtime.
(** What one run of the interpreter fixes and another may fix otherwise:
    the identifier [uuid4()] draws, and the order in which a set of
    identifiers is iterated (it follows the hashes, which for strings
    are salted per process). *)
Variable uuid : t → string.
Variable set_iter : gset string → list string.

Definition store (mem_id : option string)
    (kwargs : list (string * string)) (self : t) : outcome bool * t :=
  let mem_id := default (uuid self) mem_id in
  let activated :=
    if graph_contains mem_id (graph self) then
      activation_fn self (graph self) mem_id
        (getTime self, getActivation self)
    else
      Ok (add_node mem_id [ETuple (getTime self) (getActivation self)]
            (graph self)) in
  match activated with
  | Raise e => (Raise e, self)
  | Ok g =>
      let acc :=
        foldl (store_attribute mem_id (getTime self) (getActivation self))
              (g, inverted_index self) kwargs in
      (Ok true,
       pass_time 1 (with_inverted_index acc.2 (with_graph acc.1 self)))
  end.

Definition query (attr_vals : TreeMultiMap) (self : t)
    : outcome (option TreeMultiMap) * t :=
  match tmm_keys attr_vals with
  | [] => (Raise TypeError, self)
  | _ :: _ =>
      let self0 := with_inverted_index (touched_index attr_vals self) self in
      let candidates := candidates attr_vals self in
      (* quit early if there are no results *)
      if decide (candidates = ∅) then
        (Ok None, with_cursor None None self0)
      else
        (* final pass: sort results by activation *)
        match sort_by_activation (graph self) (set_iter candidates) with
        | Raise e => (Raise e, self0)
        | Ok results =>
            let self1 :=
              pass_time 1 (with_cursor (Some results) (Some 0) self0) in
            match py_getitem results 0 with
            | Raise e => (Raise e, self1)
            | Ok node =>
                let '(r, self2) :=
                  _activate_and_return node
                    (getTime self1, getActivation self1) self1 in
                (Some <$> r, self2)
            end
        end
  end.
End runtime.

(** *** Notions used to state the properties of the store *)

#[global] Instance outcome_eq_dec `{EqDecision A} : EqDecision (outcome A).
Proof. solve_decision. Defined.

(** [<] orders the activation histories of two identifiers one way or the
    other. *)
Definition ranked (g : MultiDiGraph) (c c' : string) : Prop :=
  match nodes g !! c, nodes g !! c' with
  | Some h, Some h' => history_lt h h' = Ok true ∨ history_lt h' h = Ok true
  | _, _ => False
  end.

(** No two identifiers of the set tie, or fail to compare, on their
    activation histories. *)
Definition strictly_ranked (g : MultiDiGraph) (X : gset string) : Prop :=
  set_Forall (λ c, set_Forall (λ c', c ≠ c' → ranked g c c') X) X.

#[global] Instance ranked_dec g c c' : Decision (ranked g c c').
Proof. unfold ranked. destruct (nodes g !! c), (nodes g !! c'); apply _. Defined.

#[global] Instance strictly_ranked_dec g X : Decision (strictly_ranked g X).
Proof. unfold strictly_ranked. apply _. Defined.

(** The inverted index lists, under every attribute, the identifiers that
    have an edge with that label. *)
Definition index_covers (g : MultiDiGraph) (idx : gmap string (gset string))
    : Prop :=
  ∀ c v keys a,
    get_edge_data c v g = Some keys → a ∈ keys → c ∈ default ∅ (idx !! a).

(** A run: the calls a program makes, one after the other, and after each
    call what it returned and the store it left. *)
Inductive call : Type :=
| Store (mem_id : option string) (kwargs : list (string * string))
| Query (attr_vals : TreeMultiMap).

Definition call_result : Type :=
  outcome bool + outcome (option TreeMultiMap).

Definition do_call (uuid : t → string) (set_iter : gset string → list string)
    (c : call) (self : t) : call_result * t :=
  match c with
  | Store mem_id kwargs =>
      let '(r, self') := store uuid mem_id kwargs self in (inl r, self')
  | Query attr_vals =>
      let '(r, self') := query set_iter attr_vals self in (inr r, self')
  end.

Fixpoint run (uuid : t → string) (set_iter : gset string → list string)
    (calls : list call) (self : t) : list (call_result * t) :=
  match calls with
  | [] => []
  | c :: calls' =>
      let r := do_call uuid set_iter c self in
      r :: run uuid set_iter calls' r.2
  end.

(** Every query of the run finds its matches strictly ranked. *)
Fixpoint ranked_run (uuid : t → string) (set_iter : gset string → list string)
    (calls : list call) (self : t) : Prop :=
  match calls with
  | [] => True
  | c :: calls' =>
      match c with
      | Query attr_vals =>
          strictly_ranked (graph self) (candidates attr_vals self)
      | Store _ _ => True
      end
      ∧ ranked_run uuid set_iter calls' (do_call uuid set_iter c self).2
  end.

#[global] Instance ranked_run_dec uuid set_iter calls :
  ∀ self, Decision (ranked_run uuid set_iter calls self).
Proof.
  induction calls as [|c calls IH]; intros self; simpl; [apply _|].
  destruct c; apply _.
Defined.

(** The cursor stands at position [i] of the cached matches. *)
Definition cursor_at (results : list string) (i : Z) (self : t) : Prop :=
  query_results self = Some results ∧ result_index self = Some i ∧
  0 ≤ i < Z.of_nat (length results).

(** The store after [k] calls of [next_result]. *)
Fixpoint after_next (k : nat) (self : t) : t :=
  match k with
  | O => self
  | S k' => after_next k' (next_result self).2
  end.

(** *** Activation functions for the examples *)

(** The activation function of test.py:
    [graph.nodes[mem_id]['activation'].append(activation)]. *)
Definition append_activation_fn : activation_fn_t := λ g mem_id activation,
  match nodes g !! mem_id with
  | Some history =>
      Ok {| nodes := <[mem_id := history ++ [EList activation.1 activation.2]]>
                       (nodes g);
            adj := adj g |}
  | None => Raise KeyError
  end.

(** A function of three arguments that does no bookkeeping. *)
Definition no_activation_fn : activation_fn_t := λ g _ _, Ok g.

(** An identifier source for the examples. *)
Definition example_uuid : t → string :=
  λ _, "00000000-0000-4000-8000-000000000000".

(** Two identifiers with one attribute in common, queried for it: the
    cursor stands on the first of two matches. *)
Definition pair_store : t :=
  let s0 := init (Some append_activation_fn) in
  let s1 := (store example_uuid (Some "a") [("k", "v"); ("name", "alpha")] s0).2 in
  (store example_uuid (Some "b") [("k", "v"); ("name", "beta")] s1).2.

Definition paired_store : t := (query elements [("k", "v")] pair_store).2.

(** Sets iterated in the opposite order. *)
Definition reversed_elements (X : gset string) : list string :=
  reverse (elements X).

(** The calls of [test_networkxkb] that are stores and queries. *)
Definition scenario_calls : list call :=
  [ Store (Some "cat") [("is_a", "mammal"); ("has", "fur"); ("name", "cat")];
    Store (Some "bear") [("is_a", "mammal"); ("has", "fur"); ("name", "bear")];
    Store (Some "whale") [("is_a", "mammal"); ("lives_in", "water")];
    Store (Some "whale") [("name", "whale")];
    Store (Some "fish") [("is_a", "animal"); ("lives_in", "water")];
    Store (Some "mammal") [("has", "vertebra"); ("is_a", "animal")];
    Query [("has", "vertebra"); ("lives_in", "water")];
    Query [("has", "vertebra")];
    Store (Some "cat") [];
    Query [("is_a", "mammal")] ].

(** Two identifiers, [p] and [q], that enter the graph as values of one
    [store] call, and so with one and the same activation, and are then
    given an attribute of their own. *)
Definition tied_calls : list call :=
  [ Store (Some "x") [("a", "p"); ("b", "q")];
    Store (Some "p") [("k", "z"); ("name", "first")];
    Store (Some "q") [("k", "z"); ("name", "second")];
    Query [("k", "z")] ].

(** The stores a program can get to through the methods, from a store
    built with [NetworkXKB(activation_fn=fn)]. *)
Inductive reachable (uuid : t → string) (set_iter : gset string → list string)
    (fn : option activation_fn_t) : t → Prop :=
| reachable_init : reachable uuid set_iter fn (init fn)
| reachable_clear s :
    reachable uuid set_iter fn s → reachable uuid set_iter fn (clear s).2
| reachable_store s mem_id kwargs :
    reachable uuid set_iter fn s →
    reachable uuid set_iter fn (store uuid mem_id kwargs s).2
| reachable_retrieve s mem_id :
    reachable uuid set_iter fn s → reachable uuid set_iter fn (retrieve mem_id s).2
| reachable_query s attr_vals :
    reachable uuid set_iter fn s →
    reachable uuid set_iter fn (query set_iter attr_vals s).2
| reachable_prev_result s :
    reachable uuid set_iter fn s → reachable uuid set_iter fn (prev_result s).2
| reachable_next_result s :
    reachable uuid set_iter fn s → reachable uuid set_iter fn (next_result s).2
| reachable_pass_time s dt :
    reachable uuid set_iter fn s → reachable uuid set_iter fn (pass_time dt s).

End NetworkXKB.

(** ** The store over a SPARQL endpoint *)

(** [s.endswith(suffix)] *)
Fixpoint py_endswith (s suffix : string) : bool :=
  String.eqb s suffix ||
  match s with
  | EmptyString => false
  | String _ s' => py_endswith s' suffix
  end.

(** [TreeMultiMap.from_dict(d)] *)
Definition tmm_from_dict (d : gmap string string) : TreeMultiMap :=
  foldr (λ kv m, tmm_add kv.1 kv.2 m) tmm_empty (map_to_list d).

(** [max(l)] of strings: the first of the greatest, [ValueError] on an
    empty argument. *)
Definition py_max (l : list string) : outcome string :=
  match l with
  | [] => Raise ValueError
  | x :: l' => Ok (foldl (λ m y, if String.ltb m y then y else m) x l')
  end.

(** [{k: f(v) for k, v in d.items()}] where [f] may raise. *)
Definition dict_mapM {V W} (f : V → outcome W) (d : gmap string V)
    : outcome (gmap string W) :=
  map_fold (λ k v acc, w ← f v; m ← acc; Ok (<[k := w]> m)) (Ok ∅) d.

(** [<] on the items of a mapping, pairs of strings. *)
Definition item_ltb (a b : string * string) : bool :=
  String.ltb a.1 b.1 || (String.eqb a.1 b.1 && String.ltb a.2 b.2).

(** [sep.join(l)] *)
Fixpoint py_join (sep : string) (l : list string) : string :=
  match l with
  | [] => EmptyString
  | [x] => x
  | x :: l' => x +:+ sep +:+ py_join sep l'
  end.

(** The line feed and the double quote. *)
Definition newline : string :=
  String (Ascii.Ascii false true false true false false false false) EmptyString.
Definition double_quote : string :=
  String (Ascii.Ascii false true false false false true false false) EmptyString.

Module SparqlKB.

Record Augment : Type := mkAugment {
  old_attrs : list string;
  transform : gmap string string → option (string * string);
}.

Record t : Type := mk {
  augments : list Augment;
  prev_query : option TreeMultiMap;
  query_offset : Z;
  retrieve_cache : gmap string TreeMultiMap;
  query_cache : gmap (list (string * string)) (option string);
}.

(** One round of the loop of [retrieve] over the augments. *)
Definition apply_augment (result : gmap string string) (augment : Augment)
    : gmap string string :=
  if forallb (λ attr, bool_decide (is_Some (result !! attr))) (old_attrs augment)
  then
    match transform augment result with
    | Some (new_prop, new_val) => <[new_prop := new_val]> result
    | None => result
    end
  else result.

Section source.
(** [_true_retrieve] sends a query to the knowledge source, which is outside
    the repository; what comes back, or is raised, is a parameter. *)
Variable _true_retrieve : string → outcome (gmap string string).

Definition retrieve (mem_id : string) (self : t) : outcome TreeMultiMap * t :=
  let valid_mem_id := String.prefix "<http" mem_id && py_endswith mem_id ">" in
  if negb valid_mem_id then (Raise ValueError, self)
  else
    let cache :=
      match retrieve_cache self !! mem_id with
      | Some _ => Ok (retrieve_cache self)
      | None =>
          result ← _true_retrieve mem_id;
          Ok (<[mem_id := tmm_from_dict
                            (foldl apply_augment result (augments self))]>
                (retrieve_cache self))
      end in
    match cache with
    | Raise e => (Raise e, self)
    | Ok cache =>
        let self' := mk (augments self) None 0 cache (query_cache self) in
        match cache !! mem_id with
        | Some result => (Ok result, self')
        | None => (Raise KeyError, mk (augments self) (prev_query self)
                                      (query_offset self) cache (query_cache self))
        end
    end.
End source.

Definition has_prev_result (self : t) : bool :=
  bool_decide (prev_query self ≠ None) && (0 <? query_offset self).

Definition has_next_result (self : t) : bool :=
  bool_decide (prev_query self ≠ None).

(** *** The rest of the store, over the endpoint *)

Definition BAD_VALUES : gset string :=
  {[ double_quote +:+ "NAN" +:+ double_quote
       +:+ "^^<http://www.w3.org/2001/XMLSchema#double>";
     double_quote +:+ "NAN" +:+ double_quote
       +:+ "^^<http://www.w3.org/2001/XMLSchema#float>" ]}.

(** [__init__(knowledge_source, augments=None)] *)
Definition init (augments : option (list Augment)) : t :=
  mk (default [] augments) None 0 ∅ ∅.

(** [retrievable(mem_id)] for a string. *)
Definition retrievable (mem_id : string) : bool := String.prefix "<http" mem_id.

(** The query text of [_true_retrieve]. *)
Definition retrieve_text (mem_id : string) : string :=
  newline +:+ "        SELECT DISTINCT ?attr ?value WHERE {"
  +:+ newline +:+ "            " +:+ mem_id +:+ " ?attr ?value ."
  +:+ newline +:+ "        }"
  +:+ newline +:+ "        ".

Section endpoint.
(** [self.source.query_sparql(query)]: the endpoint is outside the
    repository.  What it answers to a query text is a parameter: the
    bindings in the order they are iterated, each a map from the variable
    to the [rdf_format] of the term bound to it. *)
Variable query_sparql : string → outcome (list (gmap string string)).

(** One round of the loop of [_true_retrieve] over the bindings. *)
Definition add_binding (result : gmap string (gset string))
    (binding : gmap string string) : outcome (gmap string (gset string)) :=
  match binding !! "value" with
  | None => Raise KeyError
  | Some val =>
      if bool_decide (val ∈ BAD_VALUES) then Ok result
      else
        match binding !! "attr" with
        | None => Raise KeyError
        | Some attr =>
            Ok (<[attr := {[val]} ∪ default ∅ (result !! attr)]> result)
        end
  end.

Definition _true_retrieve (mem_id : string)
    : outcome (gmap string string) :=
  let query := retrieve_text mem_id in
  results ← query_sparql query;
  result ← foldl (λ acc binding, result ← acc; add_binding result binding)
                 (Ok ∅) results;
  dict_mapM (λ vals : gset string, py_max (elements vals)) result.

Definition _true_query (attr_vals : TreeMultiMap) (offset : Z)
    : outcome (option string) :=
  let condition :=
    py_join " ; " ((λ av : string * string, av.1 +:+ " " +:+ av.2)
                     <$> tmm_items attr_vals) in
  let query :=
    newline +:+ "        SELECT DISTINCT ?concept WHERE {"
    +:+ newline +:+ "            ?concept " +:+ condition +:+ " ;"
    +:+ newline
    +:+ "                     <http://xmlns.com/foaf/0.1/name> ?__name__ ."
    +:+ newline +:+ "        } ORDER BY ?__name__ LIMIT 1 OFFSET "
    +:+ pretty offset
    +:+ newline +:+ "        " in
  results ← query_sparql query;
  match results with
  | [] => Ok None
  | binding :: _ =>
      match binding !! "concept" with
      | Some concept => Ok (Some concept)
      | None => Raise KeyError
      end
  end.

(** [query(attr_vals)].  [self.prev_query = attr_vals] keeps the caller's
    mapping itself; the store is modelled with the value it has at the
    call. *)
Definition query (attr_vals : TreeMultiMap) (self : t)
    : outcome TreeMultiMap * t :=
  match py_sorted (λ a b, Ok (item_ltb a b)) (tmm_items attr_vals) with
  | Raise e => (Raise e, self)
  | Ok query_terms =>
      let cache :=
        match query_cache self !! query_terms with
        | Some _ => Ok (query_cache self)
        | None =>
            mem_id ← _true_query attr_vals 0;
            Ok (<[query_terms := mem_id]> (query_cache self))
        end in
      match cache with
      | Raise e => (Raise e, self)
      | Ok cache =>
          match cache !! query_terms with
          | None =>
              (Raise KeyError,
               mk (augments self) (prev_query self) (query_offset self)
                  (retrieve_cache self) cache)
          | Some None =>
              (Ok tmm_empty,
               mk (augments self) None 0 (retrieve_cache self) cache)
          | Some (Some mem_id) =>
              retrieve _true_retrieve mem_id
                (mk (augments self) (Some attr_vals) 0
                    (retrieve_cache self) cache)
          end
      end
  end.

(** [prev_result]: with [has_prev_result] there is a previous query to
    repeat. *)
Definition prev_result (self : t) : outcome (option string) * t :=
  match prev_query self with
  | Some attr_vals =>
      if negb (has_prev_result self) then (Ok None, self)
      else
        let self' :=
          mk (augments self) (prev_query self) (query_offset self - 1)
             (retrieve_cache self) (query_cache self) in
        (_true_query attr_vals (query_offset self'), self')
  | None => (Ok None, self)
  end.

Definition next_result (self : t) : outcome (option string) * t :=
  match prev_query self with
  | Some attr_vals =>
      if negb (has_next_result self) then (Ok None, self)
      else
        let self' :=
          mk (augments self) (prev_query self) (query_offset self + 1)
             (retrieve_cache self) (query_cache self) in
        (_true_query attr_vals (query_offset self'), self')
  | None => (Ok None, self)
  end.
End endpoint.

(** *** An endpoint for the examples *)

(** It knows one resource, with two labels and a height that is not a
    number, and answers every search with that resource. *)
Definition example_resource : string := "<http://example.org/The_Wall>".

Definition example_bindings : list (gmap string string) :=
  [ {[ "attr" := "<http://example.org/label>"; "value" := "<http://example.org/a>" ]};
    {[ "attr" := "<http://example.org/height>";
       "value" := double_quote +:+ "NAN" +:+ double_quote
                    +:+ "^^<http://www.w3.org/2001/XMLSchema#double>" ]};
    {[ "attr" := "<http://example.org/label>"; "value" := "<http://example.org/b>" ]} ].

Definition example_endpoint (query : string)
    : outcome (list (gmap string string)) :=
  if bool_decide (query = retrieve_text example_resource)
  then Ok example_bindings
  else Ok [ {[ "concept" := example_resource ]} ].

End SparqlKB.

(** ** The memory architecture *)

Module MemoryArchitecture.

(** Modelled from the spec: [Action] comes from [rl_environments.py],
    which is not under src/: "a named, parameterized command", a value
    object compared structurally.  The parameters are the keyword
    arguments it was built with. *)
Record Action : Type := mkAction {
  name : string;
  params : list (string * string);
}.

#[global] Instance Action_eq_dec : EqDecision Action.
Proof. solve_decision. Defined.

Definition copy_action (src_buf src_attr dst_buf dst_attr : string) : Action :=
  mkAction "copy" [("src_buf", src_buf); ("src_attr", src_attr);
                   ("dst_buf", dst_buf); ("dst_attr", dst_attr)].
Definition delete_action (buf attr : string) : Action :=
  mkAction "delete" [("buf", buf); ("attr", attr)].
Definition retrieve_action (buf attr : string) : Action :=
  mkAction "retrieve" [("buf", buf); ("attr", attr)].
Definition prev_result_action : Action := mkAction "prev-result" [].
Definition next_result_action : Action := mkAction "next-result" [].

Record BufferProperties : Set := mkProps {
  copyable : bool;
  writable : bool;
}.

Definition BUFFERS : list (string * BufferProperties) :=
  [ ("perceptual", mkProps true false);
    ("query", mkProps false true);
    ("retrieval", mkProps true false);
    ("scratch", mkProps true true) ].

(** How the wrapped class implements [reset]: on its own state, or, as
    [TestEnv] of test.py does, as [self.start_new_episode()], a call that is
    dispatched to the override of the architecture. *)
Inductive reset_impl (E : Type) : Type :=
| ResetState (f : E → E)
| ResetCallsStartNewEpisode.
Arguments ResetState {E} f.
Arguments ResetCallsStartNewEpisode {E}.

(** The wrapped environment, the superclass in the source: the calls the
    architecture makes to [super()].  [Environment] itself is defined in
    [rl_environments.py], not under src/. *)
Class Environment (E : Type) : Type := {
  env_get_observation : E → TreeMultiMap;
  env_get_actions : E → list Action;
  env_reset : reset_impl E;
  env_start_new_episode : E → E;
}.

(** The [KnowledgeStore] interface. *)
Class KnowledgeStore (KB : Type) : Type := {
  ks_clear : KB → outcome unit * KB;
  ks_store : option string → list (string * string) → KB → outcome bool * KB;
  ks_retrieve : string → KB → outcome (option TreeMultiMap) * KB;
  ks_query : TreeMultiMap → KB → outcome (option TreeMultiMap) * KB;
  ks_has_prev_result : KB → outcome bool;
  ks_prev_result : KB → outcome TreeMultiMap * KB;
  ks_has_next_result : KB → outcome bool;
  ks_next_result : KB → outcome TreeMultiMap * KB;
  ks_retrievable : string → bool;
}.

Definition naive_store (tmm_lt : TreeMultiMap → TreeMultiMap → bool)
    : KnowledgeStore NaiveDictKB.t :=
  {| ks_clear := NaiveDictKB.clear;
     ks_store := NaiveDictKB.store;
     ks_retrieve := NaiveDictKB.retrieve;
     ks_query := NaiveDictKB.query tmm_lt;
     ks_has_prev_result := λ kb, Ok (NaiveDictKB.has_prev_result kb);
     ks_prev_result := NaiveDictKB.prev_result;
     ks_has_next_result := λ kb, Ok (NaiveDictKB.has_next_result kb);
     ks_next_result := NaiveDictKB.next_result;
     ks_retrievable := NaiveDictKB.retrievable |}.

Definition graph_store (uuid : NetworkXKB.t → string)
    (set_iter : gset string → list string) : KnowledgeStore NetworkXKB.t :=
  {| ks_clear := NetworkXKB.clear;
     ks_store := NetworkXKB.store uuid;
     ks_retrieve := NetworkXKB.retrieve;
     ks_query := NetworkXKB.query set_iter;
     ks_has_prev_result := NetworkXKB.has_prev_result;
     ks_prev_result := NetworkXKB.prev_result;
     ks_has_next_result := NetworkXKB.has_next_result;
     ks_next_result := NetworkXKB.next_result;
     ks_retrievable := NetworkXKB.retrievable |}.

(** [concat(f(x) for x in l)] where [f] may raise. *)
Fixpoint concat_mapM {A B} (f : A → outcome (list B)) (l : list A)
    : outcome (list B) :=
  match l with
  | [] => Ok []
  | x :: l' => ys ← f x; zs ← concat_mapM f l'; Ok (ys ++ zs)
  end.

Section architecture.
Context {E KB : Type} `{!Environment E} `{!KnowledgeStore KB}.

(** [sorted(actions)] for a set of actions: the order of [Action] is
    not under src/, the function is taken as a parameter. *)
Variable sorted_set : list Action → list Action.

(** The object: the parameters and variables of [__init__], and the
    state of the wrapped environment ([super()]). *)
Record t : Type := mk {
  buf_ignore : gset string;
  internal_reward : pynum;
  max_internal_actions : option Z;
  knowledge_store : KB;
  buffers : gmap string TreeMultiMap;
  internal_action_count : Z;
  super : E;
}.

Definition with_buffers (b : gmap string TreeMultiMap) (self : t) : t :=
  mk (buf_ignore self) (internal_reward self) (max_internal_actions self)
     (knowledge_store self) b (internal_action_count self) (super self).

Definition with_super (e : E) (self : t) : t :=
  mk (buf_ignore self) (internal_reward self) (max_internal_actions self)
     (knowledge_store self) (buffers self) (internal_action_count self) e.

Definition with_internal_action_count (n : Z) (self : t) : t :=
  mk (buf_ignore self) (internal_reward self) (max_internal_actions self)
     (knowledge_store self) (buffers self) n (super self).

(** [self.buffers[buf]] *)
Definition buffer (buf : string) (self : t) : outcome TreeMultiMap :=
  match buffers self !! buf with
  | Some b => Ok b
  | None => Raise KeyError
  end.

Definition _clear_buffers (self : t) : t :=
  with_buffers
    (foldl (λ (b : gmap string TreeMultiMap) (bp : string * BufferProperties),
              if decide (bp.1 ∈ buf_ignore self) then b
              else <[bp.1 := tmm_empty]> b)
           ∅ BUFFERS)
    self.

Definition _sync_input_buffers (self : t) : t :=
  with_buffers
    (<["perceptual" := env_get_observation (super self)]> (buffers self))
    self.

Definition start_new_episode (self : t) : t :=
  with_internal_action_count 0
    (_sync_input_buffers
       (_clear_buffers
          (with_super (env_start_new_episode (super self)) self))).

(** [super().reset()] *)
Definition super_reset (self : t) : t :=
  match env_reset with
  | ResetState f => with_super (f (super self)) self
  | ResetCallsStartNewEpisode => start_new_episode self
  end.

(** [reset]: [super().reset()], then [_clear_buffers()]. *)
Definition reset (self : t) : t := _clear_buffers (super_reset self).

(** The body of the innermost loop of [_generate_copy_actions]. *)
Definition copy_action_to (self : t) (src_buf attr : string)
    (dst : string * BufferProperties) : outcome (list Action) :=
  let '(dst_buf, dst_prop) := dst in
  if bool_decide (src_buf ≠ dst_buf)
     && bool_decide (dst_buf ∉ buf_ignore self)
     && writable dst_prop
     && negb (bool_decide (src_buf = "perceptual")
              && bool_decide (dst_buf = "scratch"))
  then
    src ← buffer src_buf self;
    match tmm_get attr src with
    | None => Raise KeyError
    | Some val =>
        dst_map ← buffer dst_buf self;
        if bool_decide (Some val ≠ tmm_get attr dst_map)
        then Ok [copy_action src_buf attr dst_buf attr]
        else Ok []
    end
  else Ok [].

Definition _generate_copy_actions (self : t) : outcome (list Action) :=
  concat_mapM
    (λ src : string * BufferProperties,
       if bool_decide (src.1 ∈ buf_ignore self) || negb (copyable src.2)
       then Ok []
       else
         attrs ← buffer src.1 self;
         concat_mapM
           (λ attr, concat_mapM (copy_action_to self src.1 attr) BUFFERS)
           (tmm_keys attrs))
    BUFFERS.

Definition _generate_delete_actions (self : t) : outcome (list Action) :=
  concat_mapM
    (λ bp : string * BufferProperties,
       if bool_decide (bp.1 ∈ buf_ignore self) || negb (writable bp.2)
       then Ok []
       else
         attrs ← buffer bp.1 self;
         Ok ((λ attr, delete_action bp.1 attr) <$> tmm_keys attrs))
    BUFFERS.

Definition _generate_retrieve_actions (self : t) : outcome (list Action) :=
  concat_mapM
    (λ bp : string * BufferProperties,
       if bool_decide (bp.1 ∈ buf_ignore self) || negb (copyable bp.2)
       then Ok []
       else
         attrs ← buffer bp.1 self;
         Ok ((λ av : string * string, retrieve_action bp.1 av.1)
               <$> filter (λ av, ks_retrievable (KB := KB) av.2 = true)
                          (tmm_items attrs)))
    BUFFERS.

Definition _generate_cursor_actions (self : t) : outcome (list Action) :=
  retrieval ← buffer "retrieval" self;
  if tmm_bool retrieval then
    has_prev ← ks_has_prev_result (knowledge_store self);
    has_next ← ks_has_next_result (knowledge_store self);
    Ok ((if has_prev : bool then [prev_result_action] else [])
          ++ (if has_next : bool then [next_result_action] else []))
  else Ok [].

Definition get_actions (self : t) : outcome (list Action) :=
  let actions := env_get_actions (super self) in
  match actions with
  | [] => Ok []
  | _ :: _ =>
      let allow_internal_actions :=
        match max_internal_actions self with
        | None => true
        | Some n => internal_action_count self <? n
        end in
      if allow_internal_actions then
        copies ← _generate_copy_actions self;
        deletes ← _generate_delete_actions self;
        retrieves ← _generate_retrieve_actions self;
        cursors ← _generate_cursor_actions self;
        Ok (sorted_set (actions ++ copies ++ deletes ++ retrieves ++ cursors))
      else Ok (sorted_set actions)
  end.

(** [add_to_ltm] hands its keyword arguments to [knowledge_store.store];
    a keyword [mem_id] among them becomes the identifier. *)
Definition add_to_ltm (mem_id : option string)
    (kwargs : list (string * string)) (self : t) : outcome unit * t :=
  let '(r, kb) := ks_store mem_id kwargs (knowledge_store self) in
  ((λ _, ()) <$> r,
   mk (buf_ignore self) (internal_reward self) (max_internal_actions self)
      kb (buffers self) (internal_action_count self) (super self)).
(** [slots]: the (buffer, attribute, value) triples, buffer by buffer in
    the order of [sorted(self.buffers.items())].  The names are the keys of
    a dict and so differ: the comparison of two items is the comparison of
    their names. *)
Definition slots (self : t) : outcome (list (string * string * string)) :=
  bufs ← py_sorted (λ a b : string * TreeMultiMap, Ok (String.ltb a.1 b.1))
                   (map_to_list (buffers self));
  Ok (ba ← bufs; (λ av : string * string, (ba.1, av.1, av.2)) <$> tmm_items ba.2).

(** [to_dict]: [{buf + '_' + attr: val for buf, attr, val in self.slots}];
    [get_state] and [get_observation] hand this dictionary to [State]. *)
Definition to_dict (self : t) : outcome (gmap string string) :=
  slots ← slots self;
  Ok (foldl (λ (d : gmap string string) (s : string * string * string),
               <[s.1.1 +:+ "_" +:+ s.1.2 := s.2]> d)
            ∅ slots).

End architecture.

(** *** The environment of test.py *)

(** [TestEnv]: a square of side [size]; the state is an index, the actions
    are the indices from [-1] on, and [-1] ends the episode. *)
Record TestEnv : Type := mkTestEnv {
  size : Z;
  init_index : Z;
  index : Z;
}.

#[global] Instance TestEnv_Environment : Environment TestEnv := {|
  env_get_observation e := [("index", pretty (index e))];
  env_get_actions e :=
    if index e =? -1 then []
    else (λ i : Z, mkAction (pretty i) []) <$> seqZ (-1) (size e * size e + 1);
  env_reset := ResetCallsStartNewEpisode;
  env_start_new_episode e := mkTestEnv (size e) (init_index e) (init_index e);
|}.

(** The long-term memory of [test_memory_architecture]: one record for
    every cell of the square. *)
Definition grid_knowledge (size : Z) : list TreeMultiMap :=
  (λ i : Z, tmm_of_kwargs [("index", pretty i); ("row", pretty (i / size));
                           ("col", pretty (i `mod` size))])
    <$> seqZ 0 (size * size).

(** The architecture of [test_memory_architecture] after [Action('9')] and
    the copy of [perceptual.index] into [query.index]: the query has found
    the cell, one internal action has been counted. *)
Definition example_architecture
    : t (E := TestEnv) (KB := NaiveDictKB.t) :=
  {| buf_ignore := ∅;
     internal_reward := PyFloat (-10);
     max_internal_actions := None;
     knowledge_store :=
       NaiveDictKB.mk (grid_knowledge 5)
                      (Some 0)
                      [[("col", "4"); ("index", "9"); ("row", "1")]];
     buffers :=
       {[ "perceptual" := [("index", "9")];
          "query" := [("index", "9")];
          "retrieval" := [("col", "4"); ("index", "9"); ("row", "1")];
          "scratch" := [] ]};
     internal_action_count := 1;
     super := mkTestEnv 5 0 9 |}.

(** The architecture of test.py built with [buf_ignore={'retrieval'}],
    before its first episode. *)
Definition retrieval_ignored_architecture
    : t (E := TestEnv) (KB := NaiveDictKB.t) :=
  _clear_buffers
    {| buf_ignore := {["retrieval"]};
       internal_reward := PyFloat (-10);
       max_internal_actions := None;
       knowledge_store := NaiveDictKB.init;
       buffers := ∅;
       internal_action_count := 0;
       super := mkTestEnv 5 0 0 |}.

(** The environment of test.py over a graph store that holds two cells of
    row 1 of the grid, with the row queried and the cell of index 9 in
    [retrieval]. *)
Definition graph_architecture : t (E := TestEnv) (KB := NetworkXKB.t) :=
  {| buf_ignore := ∅;
     internal_reward := PyFloat (-10);
     max_internal_actions := None;
     knowledge_store :=
       (NetworkXKB.query elements [("row", "1")]
          (NetworkXKB.store NetworkXKB.example_uuid (Some "cell9")
             [("index", "9"); ("row", "1")]
             (NetworkXKB.store NetworkXKB.example_uuid (Some "cell5")
                [("index", "5"); ("row", "1")]
                (NetworkXKB.init (Some NetworkXKB.append_activation_fn))).2).2).2;
     buffers :=
       {[ "perceptual" := [("index", "9")];
          "query" := [("row", "1")];
          "retrieval" := [("index", "9"); ("row", "1")];
          "scratch" := [] ]};
     internal_action_count := 1;
     super := mkTestEnv 5 0 9 |}.

End MemoryArchitecture.

(* ===================================================================== *)
(** * Part II. Properties *)
(* ===================================================================== *)

(** ** Python list primitives *)

Lemma py_getitem_in_range {A} (l : list A) (i : Z) :
  0 ≤ i < Z.of_nat (length l) →
  ∃ x, l !! Z.to_nat i = Some x ∧ py_getitem l i = Ok x.
Proof.
  intros Hi. unfold py_getitem.
  destruct (Z.ltb_spec i 0) as [?|_]; [lia|].
  destruct (Z.leb_spec 0 i) as [_|?]; [|lia].
  destruct (Z.ltb_spec i (Z.of_nat (length l))) as [_|?]; [|lia].
  destruct (lookup_lt_is_Some_2 l (Z.to_nat i)) as [x Hx]; [lia|].
  exists x. by rewrite Hx.
Qed.

Lemma py_getitem_elem_of {A} (l : list A) (i : Z) (x : A) :
  py_getitem l i = Ok x → x ∈ l.
Proof.
  unfold py_getitem. case_match; [|done].
  destruct (l !! _) eqn:Hl; [|done].
  intros [= <-]. by eapply list_elem_of_lookup_2.
Qed.

Lemma py_index_Ok `{EqDecision A} (x : A) (l : list A) (i : Z) :
  py_index x l = Ok i →
  0 ≤ i < Z.of_nat (length l) ∧ l !! Z.to_nat i = Some x.
Proof.
  revert i. induction l as [|y l IH]; intros i; simpl; [done|].
  case_decide as Hy.
  - intros [= <-]. subst. split; [lia|done].
  - destruct (py_index x l) as [j|] eqn:Hj; simpl; [|done].
    intros [= <-]. destruct (IH j eq_refl) as [Hr Hl].
    split; [lia|]. replace (Z.to_nat (Z.succ j)) with (S (Z.to_nat j)) by lia.
    done.
Qed.

Lemma py_index_elem_of `{EqDecision A} (x : A) (l : list A) :
  x ∈ l → ∃ i, py_index x l = Ok i.
Proof.
  induction l as [|y l IH]; [by intros ?%elem_of_nil|].
  intros Hx. simpl. case_decide as Hy; [by eexists|].
  apply elem_of_cons in Hx as [->|Hx]; [done|].
  destruct (IH Hx) as [i ->]. by eexists.
Qed.

Lemma py_index_not_elem_of `{EqDecision A} (x : A) (l : list A) :
  x ∉ l → py_index x l = Raise ValueError.
Proof.
  induction l as [|y l IH]; [done|].
  intros Hx. apply not_elem_of_cons in Hx as [Hne Hx].
  simpl. case_decide; [congruence|]. by rewrite (IH Hx).
Qed.

Lemma py_getitem_Ok_lookup {A} (l : list A) (i : Z) (x : A) :
  0 ≤ i → py_getitem l i = Ok x → l !! Z.to_nat i = Some x.
Proof.
  intros Hi. unfold py_getitem. cbv zeta.
  destruct (Z.ltb_spec i 0); [lia|].
  destruct (_ && _); [|done].
  by destruct (l !! Z.to_nat i) eqn:Hl; [intros [= ->]|].
Qed.

Lemma py_getitem_last {A} (l : list A) (x : A) :
  last l = Some x → py_getitem l (-1) = Ok x.
Proof.
  intros Hl. rewrite last_lookup in Hl.
  pose proof (lookup_lt_Some _ _ _ Hl) as Hlen.
  unfold py_getitem. cbv zeta. change (-1 <? 0) with true. cbv iota.
  destruct (Z.leb_spec 0 (-1 + Z.of_nat (length l))); [|lia].
  destruct (Z.ltb_spec (-1 + Z.of_nat (length l)) (Z.of_nat (length l)));
    [|lia].
  cbn [andb].
  replace (Z.to_nat (-1 + Z.of_nat (length l))) with (pred (length l)) by lia.
  by rewrite Hl.
Qed.

(** ** Sorting *)

Section py_sorted_facts.
Context {A : Type} (lt : A → A → outcome bool).

(** The elements that get sorted: [<] is defined between any two of them. *)
Variable dom : A → Prop.
Hypothesis lt_defined : ∀ x y, dom x → dom y → ∃ b, lt x y = Ok b.

Lemma py_insert_Permutation x l :
  dom x → Forall dom l →
  ∃ r, py_insert lt x l = Ok r ∧ r ≡ₚ x :: l.
Proof.
  intros Hx. induction 1 as [|y l Hy Hl IH]; simpl; [by eexists|].
  destruct (lt_defined y x Hy Hx) as [[] ->]; simpl.
  - destruct IH as (r & -> & Hr). eexists; split; [done|].
    simpl. rewrite Hr. apply Permutation_swap.
  - by eexists.
Qed.

Lemma py_sorted_Permutation l :
  Forall dom l → ∃ r, py_sorted lt l = Ok r ∧ r ≡ₚ l.
Proof.
  induction 1 as [|x l Hx Hl IH]; simpl; [by eexists|].
  destruct IH as (r & -> & Hr). simpl.
  assert (Forall dom r) as Hdr by by rewrite Hr.
  destruct (py_insert_Permutation x r Hx Hdr) as (r' & -> & Hr').
  eexists; split; [done|]. by rewrite Hr', Hr.
Qed.

(** When [<] is moreover a strict order that relates any two of the
    elements, the result is the one strictly increasing arrangement. *)
Let R (x y : A) : Prop := lt x y = Ok true.
Hypothesis lt_trans : ∀ x y z, dom x → dom y → dom z → R x y → R y z → R x z.
Hypothesis lt_total : ∀ x y, dom x → dom y → x ≠ y → R x y ∨ R y x.

Lemma py_insert_StronglySorted x l r :
  dom x → Forall dom l → x ∉ l →
  StronglySorted R l → py_insert lt x l = Ok r → StronglySorted R r.
Proof.
  intros Hx Hl. revert r.
  induction Hl as [|y l Hy Hl IH]; intros r Hnin Hs; simpl.
  { intros [= <-]. repeat constructor. }
  apply not_elem_of_cons in Hnin as [Hne Hnin].
  apply StronglySorted_inv in Hs as [Hs Hyl].
  destruct (lt_defined y x Hy Hx) as [[] Hyx]; rewrite Hyx; simpl.
  - destruct (py_insert_Permutation x l Hx Hl) as (r' & Hr' & Hp).
    rewrite Hr'. simpl. intros [= <-].
    constructor; [by eapply IH|].
    rewrite Hp. by constructor.
  - intros [= <-].
    destruct (lt_total x y Hx Hy Hne) as [Hxy|Hyx']; [|unfold R in *; congruence].
    constructor; [by constructor|].
    constructor; [done|].
    rewrite Forall_forall in Hyl, Hl. apply Forall_forall. intros z Hz.
    eapply (lt_trans x y z); eauto.
Qed.

Lemma py_sorted_StronglySorted l r :
  Forall dom l → NoDup l → py_sorted lt l = Ok r → StronglySorted R r.
Proof.
  intros Hl. revert r. induction Hl as [|x l Hx Hl IH]; intros r Hnd; simpl.
  { intros [= <-]. constructor. }
  apply NoDup_cons in Hnd as [Hnin Hnd].
  destruct (py_sorted_Permutation l Hl) as (r' & Hr' & Hp).
  rewrite Hr'. simpl. intros Hins.
  eapply (py_insert_StronglySorted x r'); eauto.
  - by rewrite Hp.
  - by rewrite Hp.
Qed.

Hypothesis lt_asym : ∀ x y, R x y → R y x → False.

(** Sorting does not depend on the order its input arrives in. *)
Lemma py_sorted_unique l1 l2 :
  Forall dom l1 → NoDup l1 → l1 ≡ₚ l2 →
  ∃ r, py_sorted lt l1 = Ok r ∧ py_sorted lt l2 = Ok r.
Proof.
  intros Hd1 Hn1 Hp.
  assert (Forall dom l2) as Hd2 by by rewrite <-Hp.
  assert (NoDup l2) as Hn2 by by rewrite <-Hp.
  destruct (py_sorted_Permutation l1 Hd1) as (r1 & Hr1 & Hp1).
  destruct (py_sorted_Permutation l2 Hd2) as (r2 & Hr2 & Hp2).
  exists r1. split; [done|]. rewrite Hr2. f_equal. symmetry.
  apply (StronglySorted_unique_strong R).
  - intros x y _ _ Hxy Hyx. destruct (lt_asym x y Hxy Hyx).
  - by apply (py_sorted_StronglySorted l1).
  - by apply (py_sorted_StronglySorted l2).
  - by rewrite Hp1, Hp2.
Qed.

Lemma py_sorted_reverse_unique l1 l2 :
  Forall dom l1 → NoDup l1 → l1 ≡ₚ l2 →
  ∃ r, py_sorted_reverse lt l1 = Ok r ∧ py_sorted_reverse lt l2 = Ok r.
Proof.
  intros Hd Hn Hp. unfold py_sorted_reverse.
  destruct (py_sorted_unique (reverse l1) (reverse l2))
    as (r & -> & ->).
  - by rewrite reverse_Permutation.
  - by rewrite reverse_Permutation.
  - by rewrite !reverse_Permutation.
  - by eexists.
Qed.
End py_sorted_facts.

(** What a sort that returns has returned, whatever [<] is. *)
Section py_sorted_returns.
Context {A : Type} (lt : A → A → outcome bool).

Lemma py_insert_Ok_Permutation x l r :
  py_insert lt x l = Ok r → r ≡ₚ x :: l.
Proof.
  revert r. induction l as [|y l IH]; intros r; simpl.
  { by intros [= <-]. }
  destruct (lt y x) as [[]|]; simpl; [| |done].
  - destruct (py_insert lt x l) as [r'|]; simpl; [|done].
    intros [= <-]. rewrite (IH r') by done. apply Permutation_swap.
  - by intros [= <-].
Qed.

Lemma py_sorted_Ok_Permutation l r : py_sorted lt l = Ok r → r ≡ₚ l.
Proof.
  revert r. induction l as [|x l IH]; intros r; simpl.
  { by intros [= <-]. }
  destruct (py_sorted lt l) as [r'|]; simpl; [|done].
  intros ->%py_insert_Ok_Permutation. by rewrite (IH r').
Qed.

Lemma py_sorted_reverse_Ok_Permutation l r :
  py_sorted_reverse lt l = Ok r → r ≡ₚ l.
Proof.
  unfold py_sorted_reverse.
  destruct (py_sorted lt (reverse l)) as [r'|] eqn:Hr; simpl; [|done].
  intros [= <-]. apply py_sorted_Ok_Permutation in Hr.
  by rewrite reverse_Permutation, Hr, reverse_Permutation.
Qed.
End py_sorted_returns.

Lemma StronglySorted_lookup_lt {A} (R : A → A → Prop) (l : list A) :
  StronglySorted R l →
  ∀ (i j : nat) x y, (i < j)%nat → l !! i = Some x → l !! j = Some y → R x y.
Proof.
  induction 1 as [|z l Hs IH Hall]; intros i j x y Hij Hi Hj.
  { done. }
  destruct j as [|j]; [lia|]. simpl in Hj.
  destruct i as [|i]; simpl in Hi.
  - injection Hi as <-. rewrite Forall_forall in Hall. apply Hall.
    by eapply list_elem_of_lookup_2.
  - apply (IH i j); [lia|done|done].
Qed.

(** ** TreeMultiMap *)

Lemma tmm_add_Permutation k v m : tmm_add k v m ≡ₚ (k, v) :: m.
Proof.
  induction m as [|[k' v'] m IH]; simpl; [done|].
  case_match; [done|]. rewrite IH. apply Permutation_swap.
Qed.

Lemma tmm_of_kwargs_Permutation kwargs :
  tmm_items (tmm_of_kwargs kwargs) ≡ₚ kwargs.
Proof.
  unfold tmm_items, tmm_of_kwargs, tmm_empty.
  enough (∀ m, foldl (λ m kv, tmm_add kv.1 kv.2 m) m kwargs ≡ₚ kwargs ++ m)
    as H by (by rewrite H, app_nil_r).
  induction kwargs as [|[k v] kwargs IH]; intros m; simpl; [done|].
  rewrite IH, tmm_add_Permutation. by rewrite Permutation_middle.
Qed.

Lemma tmm_get_add_ne k k' v m :
  k ≠ k' → tmm_get k (tmm_add k' v m) = tmm_get k m.
Proof.
  intros Hne. induction m as [|[k'' v''] m IH]; simpl.
  { by rewrite decide_False. }
  destruct (String.ltb k' k''); simpl.
  - by rewrite decide_False.
  - by rewrite IH.
Qed.

Lemma tmm_get_add_fresh k v m :
  tmm_get k m = None → tmm_get k (tmm_add k v m) = Some v.
Proof.
  induction m as [|[k'' v''] m IH]; simpl.
  { by rewrite decide_True. }
  case_decide; [done|]. intros Hm.
  destruct (String.ltb k k''); simpl.
  - by rewrite decide_True.
  - rewrite decide_False by done. by apply IH.
Qed.

Lemma tmm_get_add_kwargs_ne k (kwargs : list (string * string)) : ∀ m,
  k ∉ kwargs.*1 →
  tmm_get k (foldl (λ m kv, tmm_add kv.1 kv.2 m) m kwargs) = tmm_get k m.
Proof.
  induction kwargs as [|[k' v'] kwargs IH]; intros m Hk; simpl; [done|].
  simpl in Hk. apply not_elem_of_cons in Hk as [Hne Hk].
  rewrite IH by done. by apply tmm_get_add_ne.
Qed.

Lemma tmm_get_of_kwargs k v (kwargs : list (string * string)) :
  NoDup kwargs.*1 → (k, v) ∈ kwargs →
  tmm_get k (tmm_of_kwargs kwargs) = Some v.
Proof.
  unfold tmm_of_kwargs, tmm_empty.
  enough (∀ m, NoDup kwargs.*1 → (∀ k', k' ∈ kwargs.*1 → tmm_get k' m = None) →
            (k, v) ∈ kwargs →
            tmm_get k (foldl (λ m kv, tmm_add kv.1 kv.2 m) m kwargs) = Some v)
    as H by (intros; by apply H).
  induction kwargs as [|[k' v'] kwargs IH]; intros m Hnd Hm Hin; simpl.
  { by apply elem_of_nil in Hin. }
  simpl in Hnd. apply NoDup_cons in Hnd as [Hnin Hnd].
  apply elem_of_cons in Hin as [[= -> ->]|Hin].
  - rewrite tmm_get_add_kwargs_ne by done.
    apply tmm_get_add_fresh, Hm. simpl. by left.
  - apply IH; [done| |done].
    intros k'' Hk''. rewrite tmm_get_add_ne.
    + apply Hm. simpl. by right.
    + intros ->. done.
Qed.

(** ** Strings and dictionaries *)

Lemma string_ltb_irrefl (a : string) : String.ltb a a = false.
Proof.
  unfold String.ltb. destruct (String.compare a a) eqn:Hc; try done.
  assert (String_as_OT.lt a a) as Hlt by exact Hc.
  by apply (StrictOrder_Irreflexive (R := String_as_OT.lt)) in Hlt.
Qed.

Lemma string_ltb_trans (a b c : string) :
  String.ltb a b = true → String.ltb b c = true → String.ltb a c = true.
Proof.
  unfold String.ltb. intros H1 H2.
  assert (String_as_OT.lt a b) as L1
    by (unfold String_as_OT.lt; change String_as_OT.compare with String.compare;
        by destruct (String.compare a b)).
  assert (String_as_OT.lt b c) as L2
    by (unfold String_as_OT.lt; change String_as_OT.compare with String.compare;
        by destruct (String.compare b c)).
  pose proof (StrictOrder_Transitive (R := String_as_OT.lt) a b c L1 L2) as L3.
  unfold String_as_OT.lt in L3.
  change String_as_OT.compare with String.compare in L3. by rewrite L3.
Qed.

Lemma string_ltb_total (a b : string) :
  String.ltb a b = false → String.ltb b a = false → a = b.
Proof.
  unfold String.ltb. rewrite (String.compare_antisym b a).
  destruct (String.compare a b) eqn:Hc; try done.
  intros _ _. by apply String.compare_eq_iff.
Qed.

Lemma py_max_spec (l : list string) :
  l ≠ [] →
  ∃ m, py_max l = Ok m ∧ m ∈ l ∧ ∀ y, y ∈ l → String.ltb m y = false.
Proof.
  destruct l as [|x l]; [done|]. intros _. simpl. eexists. split; [done|].
  assert (∀ m seen,
            m ∈ seen → (∀ y, y ∈ seen → String.ltb m y = false) →
            let m' := foldl (λ m y, if String.ltb m y then y else m) m l in
            m' ∈ seen ++ l ∧ ∀ y, y ∈ seen ++ l → String.ltb m' y = false)
    as Hfold.
  { induction l as [|z l IH]; intros m seen Hm Hmax; simpl.
    { by rewrite app_nil_r. }
    replace (seen ++ z :: l) with ((seen ++ [z]) ++ l)
      by by rewrite <-(assoc_L (++)).
    destruct (String.ltb m z) eqn:Hmz.
    - apply IH.
      + apply elem_of_app. right. by left.
      + intros y [Hy|Hy%list_elem_of_singleton]%elem_of_app.
        * destruct (String.ltb z y) eqn:Hzy; [|done].
          rewrite <-(Hmax y Hy). symmetry. by eapply string_ltb_trans.
        * subst. apply string_ltb_irrefl.
    - apply IH.
      + apply elem_of_app. by left.
      + intros y [Hy|Hy%list_elem_of_singleton]%elem_of_app.
        * by apply Hmax.
        * by subst. }
  destruct (Hfold x [x]) as [Hin Hmax].
  - by left.
  - intros y ->%list_elem_of_singleton. apply string_ltb_irrefl.
  - split; [exact Hin|exact Hmax].
Qed.

Lemma dict_mapM_spec {V W} (f : V → outcome W) (d : gmap string V) :
  (∀ k v, d !! k = Some v → ∃ w, f v = Ok w) →
  ∃ m, dict_mapM f d = Ok m ∧
       ∀ k, m !! k =
              d !! k ≫= λ v, match f v with Ok w => Some w | Raise _ => None end.
Proof.
  unfold dict_mapM.
  apply (map_fold_weak_ind
           (λ acc d,
              (∀ k v, d !! k = Some v → ∃ w, f v = Ok w) →
              ∃ m, acc = Ok m ∧
                ∀ k, m !! k =
                  d !! k ≫= λ v, match f v with Ok w => Some w | Raise _ => None end)).
  - intros _. exists ∅. split; [done|]. intros k. by rewrite !lookup_empty.
  - intros i x m r Hi IH Hall.
    destruct IH as (m' & -> & Hm').
    { intros k v Hk. apply (Hall k). rewrite lookup_insert_ne; [done|].
      intros ->. congruence. }
    destruct (Hall i x) as [w Hw]; [by rewrite lookup_insert_eq|].
    rewrite Hw. simpl. eexists. split; [done|]. intros k.
    destruct (decide (i = k)) as [->|Hne].
    + rewrite !lookup_insert_eq. simpl. by rewrite Hw.
    + rewrite !lookup_insert_ne by done. apply Hm'.
Qed.

(** ** The naive store *)

Module NaiveDictKBFacts.
Import NaiveDictKB.

Section ordering.
Variable tmm_lt : TreeMultiMap → TreeMultiMap → bool.

Lemma sorted_candidates_Permutation (candidates : list TreeMultiMap) :
  ∃ r, py_sorted (λ a b, Ok (tmm_lt a b)) candidates = Ok r
       ∧ r ≡ₚ candidates.
Proof.
  apply (py_sorted_Permutation _ (λ _, True)).
  - intros x y _ _. by eexists.
  - by apply Forall_true.
Qed.

Lemma wf_move step self : wf self → wf (move step self).2.
Proof.
  unfold wf, move. destruct (query_index self) as [i|] eqn:Hq; simpl;
    [|by rewrite Hq].
  intros Hi. destruct (Z.eqb_spec (Z.of_nat (length (query_matches self))) 0);
    simpl; [by rewrite Hq|].
  apply Z.mod_pos_bound. lia.
Qed.

(** What [query] does when the scan finds something. *)
Lemma query_matching attr_vals self c cs :
  wf self →
  filter (λ c, matches attr_vals c = true) (knowledge self) = c :: cs →
  ∃ r,
    py_sorted (λ a b, Ok (tmm_lt a b)) (c :: cs) = Ok r ∧ r ≡ₚ c :: cs ∧
    let index :=
      match selected self with
      | Some x => match py_index x r with Ok i => i | Raise _ => 0 end
      | None => 0
      end in
    query tmm_lt attr_vals self =
      (Some <$> py_getitem r index,
       {| knowledge := knowledge self;
          query_index := Some index;
          query_matches := r |}).
Proof.
  intros Hwf Hc.
  destruct (sorted_candidates_Permutation (c :: cs)) as (r & Hr & Hp).
  exists r. split; [done|]. split; [done|].
  unfold query, selected. cbv zeta. rewrite Hc, Hr. unfold wf in Hwf.
  destruct (query_index self) as [i|]; simpl; [|done].
  destruct (py_getitem_in_range _ _ Hwf) as (x & Hx & ->). simpl.
  by rewrite Hx.
Qed.

Lemma wf_query attr_vals self : wf self → wf (query tmm_lt attr_vals self).2.
Proof.
  intros Hwf.
  destruct (filter (λ c, matches attr_vals c = true) (knowledge self))
    as [|c cs] eqn:Hc.
  { unfold query. by rewrite Hc. }
  destruct (query_matching attr_vals self c cs Hwf Hc) as (r & _ & Hp & ->).
  unfold wf; simpl. apply Permutation_length in Hp. simpl in Hp.
  destruct (selected self) as [x|]; [|lia].
  destruct (py_index x r) as [i|] eqn:Hi; [|lia].
  by apply py_index_Ok in Hi as [? _].
Qed.

(** C7: on a query of the naive store with at least one match, when the
    record the cursor selected before is among the newly sorted matches
    the cursor moves to that record and [query] returns it; otherwise,
    also when nothing was selected, the cursor is set to 0 and [query]
    returns the first of the sorted matches. *)
Theorem query_recentres_cursor attr_vals self :
  wf self →
  filter (λ c, matches attr_vals c = true) (knowledge self) ≠ [] →
  ∃ sorted_matches first,
    py_sorted (λ a b, Ok (tmm_lt a b))
      (filter (λ c, matches attr_vals c = true) (knowledge self))
      = Ok sorted_matches ∧
    sorted_matches !! 0%nat = Some first ∧
    query_matches (query tmm_lt attr_vals self).2 = sorted_matches ∧
    match selected self with
    | Some r =>
        if decide (r ∈ sorted_matches) then
          (query tmm_lt attr_vals self).1 = Ok (Some r) ∧
          ∃ i : nat,
            query_index (query tmm_lt attr_vals self).2 = Some (Z.of_nat i)
            ∧ sorted_matches !! i = Some r
        else
          (query tmm_lt attr_vals self).1 = Ok (Some first) ∧
          query_index (query tmm_lt attr_vals self).2 = Some 0
    | None =>
        (query tmm_lt attr_vals self).1 = Ok (Some first) ∧
        query_index (query tmm_lt attr_vals self).2 = Some 0
    end.
Proof.
  intros Hwf Hne.
  destruct (filter (λ c, matches attr_vals c = true) (knowledge self))
    as [|c cs] eqn:Hc; [done|].
  destruct (query_matching attr_vals self c cs Hwf Hc) as (r & Hr & Hp & ->).
  destruct r as [|first r'].
  { apply Permutation_length in Hp. done. }
  exists (first :: r'), first. split; [done|]. split; [done|].
  split; [done|]. cbn [fst snd query_matches query_index].
  destruct (selected self) as [x|]; [|done].
  case_decide as Hx.
  - destruct (py_index_elem_of x (first :: r') Hx) as [i Hi]. rewrite Hi.
    apply py_index_Ok in Hi as [Hrange Hi].
    destruct (py_getitem_in_range (first :: r') i Hrange) as (y & Hy & ->).
    rewrite Hi in Hy. injection Hy as <-. split; [done|].
    exists (Z.to_nat i). split; [|done]. f_equal. lia.
  - by rewrite (py_index_not_elem_of x (first :: r') Hx).
Qed.

Lemma reachable_wf self : reachable tmm_lt self → wf self.
Proof.
  induction 1; try done.
  - by apply wf_query.
  - by apply wf_move.
  - by apply wf_move.
Qed.
End ordering.

Lemma query_recentres_cursor_witness :
  wf example_store ∧
  filter (λ c, matches [("row", "1")] c = true) (knowledge example_store) ≠ [] ∧
  ∃ sorted_matches first,
    py_sorted (λ a b, Ok (items_ltb a b))
      (filter (λ c, matches [("row", "1")] c = true) (knowledge example_store))
      = Ok sorted_matches ∧
    sorted_matches !! 0%nat = Some first ∧
    query_matches (query items_ltb [("row", "1")] example_store).2
      = sorted_matches ∧
    match selected example_store with
    | Some r =>
        if decide (r ∈ sorted_matches) then
          (query items_ltb [("row", "1")] example_store).1 = Ok (Some r) ∧
          ∃ i : nat,
            query_index (query items_ltb [("row", "1")] example_store).2
              = Some (Z.of_nat i)
            ∧ sorted_matches !! i = Some r
        else
          (query items_ltb [("row", "1")] example_store).1 = Ok (Some first) ∧
          query_index (query items_ltb [("row", "1")] example_store).2 = Some 0
    | None =>
        (query items_ltb [("row", "1")] example_store).1 = Ok (Some first) ∧
        query_index (query items_ltb [("row", "1")] example_store).2 = Some 0
    end.
Proof.
  assert (wf example_store) as Hwf by (by vm_compute).
  assert (filter (λ c, matches [("row", "1")] c = true)
            (knowledge example_store) ≠ []) as Hne by (by vm_compute).
  split; [exact Hwf|]. split; [exact Hne|].
  exact (query_recentres_cursor items_ltb [("row", "1")] example_store
           Hwf Hne).
Defined.

(** The example: the cursor stood on the second row-1 cell and stays on
    it when the row is queried again. *)
Example query_recentres_cursor_example :
  selected example_store = Some [("col", "1"); ("index", "6"); ("row", "1")] ∧
  (query items_ltb [("row", "1")] example_store).1
    = Ok (Some [("col", "1"); ("index", "6"); ("row", "1")]) ∧
  query_index (query items_ltb [("row", "1")] example_store).2 = Some 1.
Proof. by vm_compute. Qed.

(** C9: [store] of the naive store does not look at [mem_id]: whatever
    identifier is passed, the store ends up as after [store(None, ...)],
    with one more record that holds the keyword arguments and nothing
    else. *)
Theorem store_ignores_mem_id (mem_id : option string)
    (kwargs : list (string * string)) (self : t) :
  store mem_id kwargs self = store None kwargs self ∧
  knowledge (store mem_id kwargs self).2
    = knowledge self ++ [tmm_of_kwargs kwargs] ∧
  tmm_items (tmm_of_kwargs kwargs) ≡ₚ kwargs.
Proof.
  split; [done|]. split; [done|]. apply tmm_of_kwargs_Permutation.
Qed.

Lemma move_in_range step self i :
  wf self → query_index self = Some i →
  let n := Z.of_nat (length (query_matches self)) in
  ∃ x, query_matches self !! Z.to_nat ((i + step) `mod` n) = Some x ∧
       move step self =
         (Ok x, {| knowledge := knowledge self;
                   query_index := Some ((i + step) `mod` n);
                   query_matches := query_matches self |}).
Proof.
  intros Hwf Hi n. unfold wf in Hwf. unfold move.
  rewrite Hi in Hwf |- *. fold n.
  destruct (Z.eqb_spec n 0) as [?|Hn]; [lia|].
  destruct (py_getitem_in_range (query_matches self) ((i + step) `mod` n))
    as (x & Hx & ->); [apply Z.mod_pos_bound; lia|].
  by exists x.
Qed.

Lemma next_results_spec k : ∀ self i,
  wf self → query_index self = Some i →
  let n := Z.of_nat (length (query_matches self)) in
  length (next_results k self).1 = k ∧
  (∀ j, (j < k)%nat →
     ∃ x, query_matches self !! Z.to_nat ((i + 1 + Z.of_nat j) `mod` n) = Some x
          ∧ (next_results k self).1 !! j = Some (Ok x)) ∧
  (next_results k self).2 =
    {| knowledge := knowledge self;
       query_index := Some ((i + Z.of_nat k) `mod` n);
       query_matches := query_matches self |}.
Proof.
  induction k as [|k IH]; intros self i Hwf Hi n.
  { simpl. split; [done|]. split; [intros; lia|].
    unfold wf in Hwf. rewrite Hi in Hwf.
    rewrite Z.add_0_r, Z.mod_small by done. rewrite <-Hi. by destruct self. }
  destruct (move_in_range 1 self i Hwf Hi) as (x & Hx & Hm). fold n in Hx, Hm.
  simpl. unfold next_result. rewrite Hm.
  set (self' := {| knowledge := knowledge self;
                   query_index := Some ((i + 1) `mod` n);
                   query_matches := query_matches self |}).
  assert (wf self') as Hwf'.
  { pose proof (wf_move 1 self Hwf) as H. by rewrite Hm in H. }
  destruct (IH self' ((i + 1) `mod` n) Hwf' eq_refl) as (Hlen & Hlook & Hst).
  simpl in Hlen, Hlook, Hst. fold n in Hlook, Hst.
  destruct (next_results k self') as [rs self''] eqn:Hrs. simpl in *.
  unfold wf in Hwf. rewrite Hi in Hwf.
  split; [by rewrite Hlen|]. split.
  - intros [|j] Hj.
    + exists x. by rewrite Z.add_0_r.
    + destruct (Hlook j ltac:(lia)) as (y & Hy & Hj').
      exists y. split; [|done]. rewrite <-Hy. do 2 f_equal.
      rewrite <-(Z.add_assoc ((i + 1) `mod` n)), Z.add_mod_idemp_l by lia.
      f_equal. lia.
  - rewrite Hst. do 2 f_equal.
    rewrite Z.add_mod_idemp_l by lia. f_equal. lia.
Qed.

(** As many calls of [next_result] as there are matches return every
    match once, in the cached order taken cyclically from the entry after
    the cursor, and bring the cursor back to where it was. *)
Lemma next_results_cycle self i :
  wf self → query_index self = Some i →
  let m := query_matches self in
  next_results (length m) self =
    (Ok <$> (drop (Z.to_nat (i + 1)) m ++ take (Z.to_nat (i + 1)) m), self).
Proof.
  intros Hwf Hi m.
  destruct (next_results_spec (length m) self i Hwf Hi) as (Hlen & Hlook & Hst).
  fold m in Hlen, Hlook, Hst.
  unfold wf in Hwf. rewrite Hi in Hwf. fold m in Hwf.
  destruct (next_results (length m) self) as [rs self'] eqn:Hrs.
  simpl in *. f_equal.
  - apply list_eq. intros j. rewrite list_lookup_fmap.
    destruct (decide (j < length m)%nat) as [Hj|Hj].
    + destruct (Hlook j Hj) as (x & Hx & ->).
      destruct (decide (j < length m - Z.to_nat (i + 1))%nat) as [Hj'|Hj'].
      * rewrite lookup_app_l by (rewrite length_drop; lia).
        rewrite lookup_drop. rewrite Z.mod_small in Hx by lia.
        replace (Z.to_nat (i + 1) + j)%nat
          with (Z.to_nat (i + 1 + Z.of_nat j)) by lia.
        by rewrite Hx.
      * rewrite lookup_app_r by (rewrite length_drop; lia).
        rewrite length_drop, lookup_take_lt by lia.
        replace ((i + 1 + Z.of_nat j) `mod` Z.of_nat (length m))
          with (i + 1 + Z.of_nat j - Z.of_nat (length m)) in Hx.
        2:{ apply Z.mod_unique with 1; lia. }
        replace (j - (length m - Z.to_nat (i + 1)))%nat
          with (Z.to_nat (i + 1 + Z.of_nat j - Z.of_nat (length m))) by lia.
        by rewrite Hx.
    + rewrite (lookup_ge_None_2 rs) by lia.
      rewrite lookup_ge_None_2; [done|].
      rewrite length_app, length_drop, length_take. lia.
  - rewrite Hst.
    replace ((i + Z.of_nat (length m)) `mod` Z.of_nat (length m)) with i.
    2:{ apply Z.mod_unique with 1; lia. }
    rewrite <-Hi. by destruct self.
Qed.
(** After a query of the naive store that returned a record: the cursor
    stands on that record; [has_prev_result] and [has_next_result] are true
    whatever the cursor; a move goes to the index taken modulo the number
    of matches, so it stays among them; and as many calls of [next_result]
    as there are matches return each of them once, cyclically in sorted
    order, and bring the cursor back. *)
Lemma naive_cursor_navigation tmm_lt attr_vals self record :
  wf self →
  (query tmm_lt attr_vals self).1 = Ok (Some record) →
  let self' := (query tmm_lt attr_vals self).2 in
  let m := query_matches self' in
  ∃ i : Z,
    query_index self' = Some i ∧
    0 ≤ i < Z.of_nat (length m) ∧
    m !! Z.to_nat i = Some record ∧
    (∀ s, has_prev_result s = true ∧ has_next_result s = true) ∧
    (∀ step, ∃ x,
       m !! Z.to_nat ((i + step) `mod` Z.of_nat (length m)) = Some x ∧
       move step self' =
         (Ok x, {| knowledge := knowledge self';
                   query_index := Some ((i + step) `mod` Z.of_nat (length m));
                   query_matches := m |})) ∧
    next_results (length m) self' =
      (Ok <$> (drop (Z.to_nat (i + 1)) m ++ take (Z.to_nat (i + 1)) m), self') ∧
    drop (Z.to_nat (i + 1)) m ++ take (Z.to_nat (i + 1)) m ≡ₚ m.
Proof.
  intros Hwf Hq self' m.
  pose proof (wf_query tmm_lt attr_vals self Hwf) as Hwf'. fold self' in Hwf'.
  assert (∃ i, query_index self' = Some i ∧ py_getitem m i = Ok record)
    as (i & Hi & Hrec).
  { subst m self'.
    destruct (filter (λ c, matches attr_vals c = true) (knowledge self))
      as [|c cs] eqn:Hc.
    { unfold query in Hq. by rewrite Hc in Hq. }
    destruct (query_matching tmm_lt attr_vals self c cs Hwf Hc)
      as (r & _ & _ & Heq).
    rewrite Heq in Hq |- *. cbn [fst snd query_index query_matches] in *.
    eexists. split; [done|].
    by destruct (py_getitem r _) as [x|]; simplify_eq/=. }
  exists i. split; [done|].
  assert (0 ≤ i < Z.of_nat (length m)) as Hrange.
  { unfold wf in Hwf'. by rewrite Hi in Hwf'. }
  split; [done|]. split.
  { destruct (py_getitem_in_range m i Hrange) as (x & Hx & Hx').
    rewrite Hrec in Hx'. by simplify_eq. }
  split; [done|]. split.
  { intros step. apply (move_in_range step self' i Hwf' Hi). }
  split.
  { apply (next_results_cycle self' i Hwf' Hi). }
  rewrite Permutation_app_comm. by rewrite take_drop.
Qed.


(** *** The matches of a query and the moves of the cursor *)

Lemma matches_spec (attr_vals r : TreeMultiMap) :
  matches attr_vals r = true ↔
  ∀ a v, (a, v) ∈ tmm_items attr_vals → tmm_get a r = Some v.
Proof.
  unfold matches, tmm_items.
  induction attr_vals as [|[a v] m IH]; simpl.
  { split; [|done]. intros _ a v Hin. by apply elem_of_nil in Hin. }
  rewrite andb_true_iff, IH, bool_decide_eq_true. split.
  - intros [Hav Hm] a' v' [[= -> ->]|Hin]%elem_of_cons; [done|by apply Hm].
  - intros H. split; [apply H; by left|]. intros a' v' Hin. apply H. by right.
Qed.

Section navigation.
Variable tmm_lt : TreeMultiMap → TreeMultiMap → bool.

Lemma selected_query attr_vals self c cs :
  wf self →
  filter (λ c, matches attr_vals c = true) (knowledge self) = c :: cs →
  ∃ r, (query tmm_lt attr_vals self).1 = Ok (Some r) ∧
       selected (query tmm_lt attr_vals self).2 = Some r ∧
       query_matches (query tmm_lt attr_vals self).2 ≡ₚ c :: cs ∧
       knowledge (query tmm_lt attr_vals self).2 = knowledge self.
Proof.
  intros Hwf Hc.
  pose proof (wf_query tmm_lt attr_vals self Hwf) as Hwf'.
  destruct (query_matching tmm_lt attr_vals self c cs Hwf Hc)
    as (r & _ & Hp & Hq).
  cbv zeta in Hq.
  set (index := match selected self with Some _ => _ | None => _ end) in *.
  clearbody index. rewrite Hq in Hwf' |- *. clear Hq.
  unfold wf in Hwf'. cbn [fst snd query_index query_matches knowledge] in *.
  destruct (py_getitem_in_range _ _ Hwf') as (x & Hx & Hget).
  exists x. rewrite Hget. unfold selected. simpl. by rewrite Hx.
Qed.

Lemma query_filter attr_vals self :
  wf self →
  knowledge (query tmm_lt attr_vals self).2 = knowledge self ∧
  query_matches (query tmm_lt attr_vals self).2
    ≡ₚ filter (λ c, matches attr_vals c = true) (knowledge self) ∧
  match (query tmm_lt attr_vals self).1 with
  | Ok (Some r) => selected (query tmm_lt attr_vals self).2 = Some r
  | Ok None =>
      query_matches (query tmm_lt attr_vals self).2 = [] ∧
      query_index (query tmm_lt attr_vals self).2 = None
  | Raise _ => False
  end.
Proof.
  intros Hwf.
  destruct (filter (λ c, matches attr_vals c = true) (knowledge self))
    as [|c cs] eqn:Hc.
  - unfold query. by rewrite Hc.
  - destruct (selected_query attr_vals self c cs Hwf Hc)
      as (r & -> & Hsel & Hp & Hk).
    by rewrite Hp.
Qed.

(** X1: on a store whose cursor is in range, [query] never raises and
    leaves the stored records as they are; the matches it caches are the
    stored records that hold every queried attribute with the queried
    value, each as often as it is stored; what it returns is the record
    under the new cursor, or [None] with the cursor and the cache cleared. *)
Theorem query_finds_the_matches attr_vals self :
  wf self →
  let self' := (query tmm_lt attr_vals self).2 in
  knowledge self' = knowledge self ∧
  query_matches self'
    ≡ₚ filter (λ c, matches attr_vals c = true) (knowledge self) ∧
  (∀ r, r ∈ query_matches self' ↔
     r ∈ knowledge self ∧
     ∀ a v, (a, v) ∈ tmm_items attr_vals → tmm_get a r = Some v) ∧
  match (query tmm_lt attr_vals self).1 with
  | Ok (Some r) => selected self' = Some r
  | Ok None => query_matches self' = [] ∧ query_index self' = None
  | Raise _ => False
  end.
Proof.
  intros Hwf self'. subst self'.
  destruct (query_filter attr_vals self Hwf) as (Hk & Hp & Hr).
  split; [done|]. split; [done|]. split; [|done].
  intros r. rewrite Hp, list_elem_of_filter, matches_spec. tauto.
Qed.

(** X2: a [query] that returns [None] found no stored record that matches;
    it leaves the records, clears the cursor and the cached matches, and
    from then on [prev_result] and [next_result] raise [TypeError] and
    change nothing, although [has_prev_result] and [has_next_result] are
    true. *)
Theorem query_without_match_leaves_no_cursor attr_vals self :
  (query tmm_lt attr_vals self).1 = Ok None →
  let self' := (query tmm_lt attr_vals self).2 in
  filter (λ c, matches attr_vals c = true) (knowledge self) = [] ∧
  knowledge self' = knowledge self ∧
  query_index self' = None ∧
  query_matches self' = [] ∧
  has_prev_result self' = true ∧
  has_next_result self' = true ∧
  prev_result self' = (Raise TypeError, self') ∧
  next_result self' = (Raise TypeError, self').
Proof.
  intros Hq self'. subst self'. revert Hq. unfold query.
  destruct (filter (λ c, matches attr_vals c = true) (knowledge self))
    as [|c cs] eqn:Hc; [done|].
  destruct (query_index self) as [i|]; cbn [fmap outcome_fmap].
  - destruct (py_getitem (query_matches self) i); cbn [fmap outcome_fmap];
      [|done].
    destruct (py_sorted _ _) as [r|]; cbn [fst]; [|done].
    by destruct (py_getitem r _).
  - destruct (py_sorted _ _) as [r|]; cbn [fst]; [|done].
    by destruct (py_getitem r _).
Qed.

(** X3: with a cursor in range, [prev_result] after [next_result], and
    [next_result] after [prev_result], return the record that was selected
    before and leave the store as it was. *)
Theorem prev_result_undoes_next_result self i :
  wf self → query_index self = Some i →
  ∃ r, selected self = Some r ∧
       prev_result (next_result self).2 = (Ok r, self) ∧
       next_result (prev_result self).2 = (Ok r, self).
Proof.
  intros Hwf Hi.
  assert (∀ step, ∃ r, selected self = Some r ∧
            move (- step) (move step self).2 = (Ok r, self)) as Hmove.
  { intros step.
    destruct (move_in_range step self i Hwf Hi) as (x & _ & Hm).
    cbv zeta in Hm.
    pose proof (wf_move step self Hwf) as Hwf'. rewrite Hm in Hwf' |- *.
    cbn [snd] in *.
    destruct (move_in_range (- step) _ _ Hwf' eq_refl) as (y & Hy & Hm').
    cbv zeta in Hm'. cbn [query_matches knowledge] in *.
    unfold wf in Hwf. rewrite Hi in Hwf.
    assert (((i + step) `mod` Z.of_nat (length (query_matches self)) + - step)
              `mod` Z.of_nat (length (query_matches self)) = i) as Hback.
    { rewrite Z.add_mod_idemp_l by lia.
      replace (i + step + - step) with i by lia. apply Z.mod_small. lia. }
    rewrite Hback in Hm', Hy. exists y. split.
    - unfold selected. by rewrite Hi.
    - rewrite Hm'. f_equal. destruct self; simpl in *. by subst. }
  destruct (Hmove 1) as (r & Hsel & H1).
  destruct (Hmove (-1)) as (r' & Hsel' & H2).
  rewrite Hsel in Hsel'. injection Hsel' as <-.
  exists r. by repeat split.
Qed.

(** X4: a record stored with pairwise different attribute names is found
    by every query for pairs it was stored with: the query returns a record
    and the stored record is among the cached matches. *)
Theorem stored_record_is_found mem_id kwargs attr_vals self :
  wf self →
  NoDup kwargs.*1 →
  (∀ av, av ∈ tmm_items attr_vals → av ∈ kwargs) →
  let self' := (query tmm_lt attr_vals (store mem_id kwargs self).2).2 in
  tmm_of_kwargs kwargs ∈ query_matches self' ∧
  ∃ r, (query tmm_lt attr_vals (store mem_id kwargs self).2).1 = Ok (Some r) ∧
       r ∈ query_matches self'.
Proof.
  intros Hwf Hnd Hsub self'.
  assert (wf (store mem_id kwargs self).2) as Hwf' by done.
  assert (tmm_of_kwargs kwargs
            ∈ filter (λ c, matches attr_vals c = true)
                (knowledge (store mem_id kwargs self).2)) as Hin.
  { apply list_elem_of_filter. split.
    - apply matches_spec. intros a v Hav. apply tmm_get_of_kwargs; [done|].
      by apply Hsub.
    - simpl. apply elem_of_app. right. by left. }
  destruct (filter _ _) as [|c cs] eqn:Hc; [by apply elem_of_nil in Hin|].
  destruct (selected_query attr_vals _ c cs Hwf' Hc)
    as (r & Hr & Hsel & Hp & _).
  fold self' in Hsel, Hp. split; [by rewrite Hp|].
  exists r. split; [done|].
  unfold selected in Hsel. destruct (query_index self'); [|done].
  simpl in Hsel. by eapply list_elem_of_lookup_2.
Qed.

(** X5: in every store a program can get to through the methods the
    cursor is in range and every cached match is one of the stored records,
    so that a move by any number of steps from a cursor returns a stored
    record and does not raise. *)
Theorem reachable_navigation self :
  reachable tmm_lt self →
  wf self ∧
  query_matches self ⊆ knowledge self ∧
  ∀ step i, query_index self = Some i →
    ∃ x, (move step self).1 = Ok x ∧ x ∈ knowledge self.
Proof.
  intros Hreach.
  assert (wf self ∧ query_matches self ⊆ knowledge self) as [Hwf Hsub].
  { induction Hreach as [|s _ _|s mem_id kwargs _ [IHwf IH]|s mem_id _ IH
                         |s attr_vals _ [IHwf IH]|s _ [IHwf IH]|s _ [IHwf IH]].
    - done.
    - done.
    - split; [done|]. simpl. intros x Hx. apply elem_of_app. left. by apply IH.
    - done.
    - split; [by apply wf_query|].
      destruct (query_filter attr_vals s IHwf) as (Hk & Hp & _).
      intros x Hx. rewrite Hk. rewrite Hp in Hx.
      by apply list_elem_of_filter in Hx as [_ ?].
    - split; [by apply wf_move|]. unfold prev_result, move.
      destruct (query_index s); [|done]. by case_match.
    - split; [by apply wf_move|]. unfold next_result, move.
      destruct (query_index s); [|done]. by case_match. }
  split; [done|]. split; [done|]. intros step i Hi.
  destruct (move_in_range step self i Hwf Hi) as (x & Hx & Hm).
  cbv zeta in Hm. rewrite Hm. exists x. split; [done|].
  apply Hsub. by eapply list_elem_of_lookup_2.
Qed.
End navigation.

Lemma query_finds_the_matches_witness :
  wf grid_store ∧
  let self' := (query items_ltb [("row", "1")] grid_store).2 in
  knowledge self' = knowledge grid_store ∧
  query_matches self'
    ≡ₚ filter (λ c, matches [("row", "1")] c = true) (knowledge grid_store) ∧
  (∀ r, r ∈ query_matches self' ↔
     r ∈ knowledge grid_store ∧
     ∀ a v, (a, v) ∈ tmm_items [("row", "1")] → tmm_get a r = Some v) ∧
  match (query items_ltb [("row", "1")] grid_store).1 with
  | Ok (Some r) => selected self' = Some r
  | Ok None => query_matches self' = [] ∧ query_index self' = None
  | Raise _ => False
  end.
Proof.
  assert (wf grid_store) as Hwf by (by vm_compute).
  split; [exact Hwf|].
  exact (query_finds_the_matches items_ltb [("row", "1")] grid_store Hwf).
Defined.

Lemma query_without_match_leaves_no_cursor_witness :
  (query items_ltb [("row", "7")] example_store).1 = Ok None ∧
  let self' := (query items_ltb [("row", "7")] example_store).2 in
  filter (λ c, matches [("row", "7")] c = true) (knowledge example_store) = [] ∧
  knowledge self' = knowledge example_store ∧
  query_index self' = None ∧
  query_matches self' = [] ∧
  has_prev_result self' = true ∧
  has_next_result self' = true ∧
  prev_result self' = (Raise TypeError, self') ∧
  next_result self' = (Raise TypeError, self').
Proof.
  assert ((query items_ltb [("row", "7")] example_store).1 = Ok None) as Hq
    by (by vm_compute).
  split; [exact Hq|].
  exact (query_without_match_leaves_no_cursor items_ltb [("row", "7")]
           example_store Hq).
Defined.

Lemma prev_result_undoes_next_result_witness :
  wf example_store ∧ query_index example_store = Some 1 ∧
  ∃ r, selected example_store = Some r ∧
       prev_result (next_result example_store).2 = (Ok r, example_store) ∧
       next_result (prev_result example_store).2 = (Ok r, example_store).
Proof.
  assert (wf example_store) as Hwf by (by vm_compute).
  assert (query_index example_store = Some 1) as Hi by (by vm_compute).
  split; [exact Hwf|]. split; [exact Hi|].
  exact (prev_result_undoes_next_result example_store 1 Hwf Hi).
Defined.

Lemma stored_record_is_found_witness :
  let kwargs := [("index", "7"); ("row", "1"); ("col", "2")] in
  let attr_vals := [("col", "2"); ("row", "1")] in
  wf grid_store ∧ NoDup kwargs.*1 ∧
  (∀ av, av ∈ tmm_items attr_vals → av ∈ kwargs) ∧
  let self' := (query items_ltb attr_vals (store None kwargs grid_store).2).2 in
  tmm_of_kwargs kwargs ∈ query_matches self' ∧
  ∃ r, (query items_ltb attr_vals (store None kwargs grid_store).2).1
         = Ok (Some r) ∧
       r ∈ query_matches self'.
Proof.
  intros kwargs attr_vals.
  assert (wf grid_store) as Hwf by (by vm_compute).
  assert (NoDup kwargs.*1) as Hnd
    by (apply (bool_decide_unpack _); by vm_compute).
  assert (∀ av, av ∈ tmm_items attr_vals → av ∈ kwargs) as Hsub.
  { intros av Hav. unfold tmm_items, attr_vals in Hav.
    repeat (apply elem_of_cons in Hav as [->|Hav];
            [apply (bool_decide_unpack _); by vm_compute|]).
    by apply elem_of_nil in Hav. }
  split; [exact Hwf|]. split; [exact Hnd|]. split; [exact Hsub|].
  exact (stored_record_is_found items_ltb None kwargs attr_vals grid_store
           Hwf Hnd Hsub).
Defined.

Lemma reachable_navigation_witness :
  reachable items_ltb example_store ∧
  wf example_store ∧
  query_matches example_store ⊆ knowledge example_store ∧
  ∀ step i, query_index example_store = Some i →
    ∃ x, (move step example_store).1 = Ok x ∧ x ∈ knowledge example_store.
Proof.
  assert (reachable items_ltb example_store) as Hreach.
  { unfold example_store, queried_store, grid_store.
    apply reachable_next_result, reachable_query.
    repeat apply reachable_store. apply reachable_init. }
  split; [exact Hreach|].
  exact (reachable_navigation items_ltb example_store Hreach).
Defined.

End NaiveDictKBFacts.

(** ** Activation histories: [<] is a strict order where it is defined *)

Ltac num_cases :=
  unfold num_eqb, num_ltb in *;
  repeat match goal with
    | H : context [Z.eqb ?a ?b] |- _ => destruct (Z.eqb_spec a b)
    | |- context [Z.eqb ?a ?b] => destruct (Z.eqb_spec a b)
    | H : context [Z.ltb ?a ?b] |- _ => destruct (Z.ltb_spec a b)
    | |- context [Z.ltb ?a ?b] => destruct (Z.ltb_spec a b)
    end;
  simpl in *; simplify_eq; try done; try lia.

Lemma entry_eqb_refl x : entry_eqb x x = true.
Proof. destruct x; simpl; num_cases. Qed.

Lemma entry_eqb_sym x y : entry_eqb x y = entry_eqb y x.
Proof. destruct x, y; simpl; try done; num_cases. Qed.

Lemma entry_eqb_trans x y z :
  entry_eqb x y = true → entry_eqb y z = true → entry_eqb x z = true.
Proof. destruct x, y, z; simpl; try done; num_cases. Qed.

Lemma entry_lt_asym x y :
  entry_lt x y = Ok true → entry_lt y x = Ok false ∧ entry_eqb x y = false.
Proof. destruct x, y; simpl; try done; num_cases. Qed.

Lemma entry_lt_trans x y z :
  entry_lt x y = Ok true → entry_lt y z = Ok true → entry_lt x z = Ok true.
Proof. destruct x, y, z; simpl; try done; num_cases. Qed.

Lemma entry_lt_eqb_l x x' y :
  entry_eqb x x' = true → entry_lt x y = Ok true → entry_lt x' y = Ok true.
Proof. destruct x, x', y; simpl; try done; num_cases. Qed.

Lemma entry_lt_eqb_r x y y' :
  entry_eqb y y' = true → entry_lt x y = Ok true → entry_lt x y' = Ok true.
Proof. destruct x, y, y'; simpl; try done; num_cases. Qed.

Lemma history_lt_irrefl h : history_lt h h = Ok false.
Proof. induction h as [|x h IH]; simpl; [done|]. by rewrite entry_eqb_refl. Qed.

Lemma history_lt_asym h1 h2 :
  history_lt h1 h2 = Ok true → history_lt h2 h1 = Ok false.
Proof.
  revert h2. induction h1 as [|x h1 IH]; intros [|y h2]; simpl; try done.
  rewrite (entry_eqb_sym y x).
  destruct (entry_eqb x y); [by apply IH|].
  by intros [? _]%entry_lt_asym.
Qed.

Lemma history_lt_trans h1 h2 h3 :
  history_lt h1 h2 = Ok true → history_lt h2 h3 = Ok true →
  history_lt h1 h3 = Ok true.
Proof.
  revert h2 h3.
  induction h1 as [|x h1 IH]; intros [|y h2] [|z h3]; simpl; try done.
  destruct (entry_eqb x y) eqn:Hxy, (entry_eqb y z) eqn:Hyz.
  - rewrite (entry_eqb_trans x y z) by done. apply IH.
  - intros _ Hlt.
    destruct (entry_eqb x z) eqn:Hxz.
    { rewrite entry_eqb_sym in Hxy.
      by rewrite (entry_eqb_trans y x z) in Hyz. }
    rewrite entry_eqb_sym in Hxy. by apply (entry_lt_eqb_l y).
  - intros Hlt _.
    destruct (entry_eqb x z) eqn:Hxz.
    { rewrite entry_eqb_sym in Hyz.
      by rewrite (entry_eqb_trans x z y) in Hxy. }
    by apply (entry_lt_eqb_r x y).
  - intros H1 H2. pose proof (entry_lt_trans x y z H1 H2) as H3.
    destruct (entry_lt_asym x z H3) as [_ ->]. done.
Qed.

(** ** The graph store *)

Module NetworkXKBFacts.
Import NetworkXKB.

(** *** [store] *)

Lemma store_attribute_nodes mem_id now act acc kv n :
  is_Some (nodes acc.1 !! n) →
  nodes (store_attribute mem_id now act acc kv).1 !! n = nodes acc.1 !! n.
Proof.
  destruct acc as [g idx], kv as [attribute value]. simpl. intros Hn.
  unfold graph_contains. case_bool_decide as Hv; [done|].
  simpl. apply lookup_insert_ne. intros ->. done.
Qed.

Lemma store_loop_nodes mem_id now act kwargs : ∀ acc n,
  is_Some (nodes acc.1 !! n) →
  nodes (foldl (store_attribute mem_id now act) acc kwargs).1 !! n
    = nodes acc.1 !! n.
Proof.
  induction kwargs as [|kv kwargs IH]; intros acc n Hn; simpl; [done|].
  rewrite IH; [by apply store_attribute_nodes|].
  by rewrite store_attribute_nodes.
Qed.

(** [store] of an identifier that is not yet a node returns [True], moves
    the clock on by one and leaves the identifier with the snapshot taken at
    the time of the call. *)
Lemma store_fresh uuid mem_id kwargs self :
  graph_contains mem_id (graph self) = false →
  (store uuid (Some mem_id) kwargs self).1 = Ok true ∧
  time (store uuid (Some mem_id) kwargs self).2 = time self + 1 ∧
  activation_fn (store uuid (Some mem_id) kwargs self).2 = activation_fn self ∧
  nodes (graph (store uuid (Some mem_id) kwargs self).2) !! mem_id
    = Some [ETuple (getTime self) (getActivation self)].
Proof.
  intros Hfresh. unfold store. simpl. rewrite Hfresh. simpl.
  repeat split; try done.
  rewrite store_loop_nodes; simpl.
  - apply lookup_insert_eq.
  - rewrite lookup_insert_eq. by eexists.
Qed.

(** C10: [clear] empties the graph, the inverted index and the cursor and
    leaves the clock where it was: a [store] after [clear] records the
    snapshot of the time before the [clear], not of time zero, so that a
    store that was cleared after its clock had moved differs from a new one
    in its clock and in the snapshots it records. *)
Theorem clear_keeps_clock uuid (self : t) (mem_id : string)
    (kwargs : list (string * string)) :
  time self ≠ 0 →
  let cleared := (clear self).2 in
  let fresh := init (Some (activation_fn self)) in
  graph cleared = graph_empty ∧
  inverted_index cleared = ∅ ∧
  query_results cleared = None ∧
  result_index cleared = None ∧
  getTime cleared = getTime self ∧
  getTime fresh = 0 ∧
  nodes (graph (store uuid (Some mem_id) kwargs cleared).2) !! mem_id
    = Some [ETuple (getTime self) (getActivation self)] ∧
  nodes (graph (store uuid (Some mem_id) kwargs fresh).2) !! mem_id
    = Some [ETuple 0 (PyInt 1)] ∧
  getTime (store uuid (Some mem_id) kwargs cleared).2 = getTime self + 1 ∧
  cleared ≠ fresh ∧
  store uuid (Some mem_id) kwargs cleared ≠ store uuid (Some mem_id) kwargs fresh.
Proof.
  intros Htime cleared fresh.
  assert (graph_contains mem_id (graph cleared) = false) as Hc by done.
  assert (graph_contains mem_id (graph fresh) = false) as Hf by done.
  destruct (store_fresh uuid mem_id kwargs cleared Hc) as (_ & Ht & _ & Hn).
  destruct (store_fresh uuid mem_id kwargs fresh Hf) as (_ & Ht' & _ & Hn').
  repeat split; try done.
  - intros Heq. apply (f_equal time) in Heq. simpl in Heq. done.
  - intros Heq. apply (f_equal (λ r, time r.2)) in Heq. simpl in Heq.
    rewrite Ht, Ht' in Heq. simpl in Heq. lia.
Qed.

Lemma clear_keeps_clock_witness :
  let self := (store example_uuid (Some "cat") [("is_a", "mammal")]
                 (init (Some append_activation_fn))).2 in
  time self ≠ 0 ∧
  let cleared := (clear self).2 in
  let fresh := init (Some (activation_fn self)) in
  graph cleared = graph_empty ∧
  inverted_index cleared = ∅ ∧
  query_results cleared = None ∧
  result_index cleared = None ∧
  getTime cleared = getTime self ∧
  getTime fresh = 0 ∧
  nodes (graph (store example_uuid (Some "bear") [("is_a", "mammal")] cleared).2)
    !! "bear" = Some [ETuple (getTime self) (getActivation self)] ∧
  nodes (graph (store example_uuid (Some "bear") [("is_a", "mammal")] fresh).2)
    !! "bear" = Some [ETuple 0 (PyInt 1)] ∧
  getTime (store example_uuid (Some "bear") [("is_a", "mammal")] cleared).2
    = getTime self + 1 ∧
  cleared ≠ fresh ∧
  store example_uuid (Some "bear") [("is_a", "mammal")] cleared
    ≠ store example_uuid (Some "bear") [("is_a", "mammal")] fresh.
Proof.
  intros self.
  assert (time self ≠ 0) as Htime by (by vm_compute).
  split; [exact Htime|].
  exact (clear_keeps_clock example_uuid self "bear" [("is_a", "mammal")] Htime).
Defined.

(** What [getActivation] returns at some clocks, among them 40 and 200,
    where the double nearest to [1 / time] lies above the half and [round]
    goes up, 8, where the double is the half and [round] goes to the even
    side, and a clock below zero. *)
Example getActivation_values :
  (λ now, getActivation (pass_time now (init None)))
    <$> [0; 1; 3; 8; 40; 200; 201; -40]
  = [PyInt 1; PyFloat 100; PyFloat 33; PyFloat 12; PyFloat 3; PyFloat 1;
     PyFloat 0; PyFloat (-3)].
Proof. by vm_compute. Qed.

(** A store that is cleared at clock 40: the next [store] records the
    snapshot [(40, 0.03)]. *)
Example snapshot_after_clear_at_40 :
  let self := pass_time 40 (init (Some append_activation_fn)) in
  getTime (clear self).2 = 40 ∧
  nodes (graph (store example_uuid (Some "bear") [("is_a", "mammal")]
                  (clear self).2).2) !! "bear"
    = Some [ETuple 40 (PyFloat 3)].
Proof. by vm_compute. Qed.

(** *** Edges *)

Lemma add_neighbour_edges (u v a : string) (nbrs : list (string * list string)) :
  (nbr ← add_neighbour v a nbrs; (λ attribute, (u, nbr.1, attribute)) <$> nbr.2)
  ≡ₚ (nbr ← nbrs; (λ attribute, (u, nbr.1, attribute)) <$> nbr.2) ++ [(u, v, a)].
Proof.
  induction nbrs as [|[w keys] nbrs IH]; simpl; [done|].
  case_decide as Hw; simpl.
  - subst w. rewrite fmap_app. simpl.
    rewrite <-!(assoc_L (++)). f_equiv. apply Permutation_app_comm.
  - rewrite IH. by rewrite (assoc_L (++)).
Qed.

Lemma out_edges_add_edge (u v a : string) (g : MultiDiGraph) :
  out_edges u (add_edge u v a g) ≡ₚ out_edges u g ++ [(u, v, a)].
Proof.
  unfold out_edges, add_edge. simpl. rewrite lookup_insert_eq. simpl.
  apply add_neighbour_edges.
Qed.

Lemma store_loop_out_edges mem_id now act kwargs : ∀ acc,
  out_edges mem_id (foldl (store_attribute mem_id now act) acc kwargs).1
  ≡ₚ out_edges mem_id acc.1 ++ ((λ kv, (mem_id, kv.2, kv.1)) <$> kwargs).
Proof.
  induction kwargs as [|[attribute value] kwargs IH]; intros [g idx]; simpl.
  { by rewrite app_nil_r. }
  rewrite IH. simpl. rewrite out_edges_add_edge.
  rewrite <-(assoc_L (++)). simpl. by destruct (graph_contains value g).
Qed.

Lemma record_of_edges_Permutation (edges : list (string * string * string)) :
  ∀ m : TreeMultiMap,
  foldl (λ result e, tmm_add e.2 e.1.2 result) m edges
  ≡ₚ ((λ e, (e.2, e.1.2)) <$> edges) ++ m.
Proof.
  induction edges as [|e edges IH]; intros m; simpl; [done|].
  rewrite IH, tmm_add_Permutation. by rewrite Permutation_middle.
Qed.

(** The round trip over an activation function that accepts the call and
    leaves the edges alone: [store] of an identifier that is not in the
    graph followed by [retrieve] returns a record with exactly the stored
    pairs. *)
Lemma store_retrieve_round_trip uuid (mem_id : string)
    (kwargs : list (string * string)) (self : t) :
  graph_contains mem_id (graph self) = false →
  adj (graph self) !! mem_id = None →
  (∀ g a, is_Some (nodes g !! mem_id) →
     ∃ g', activation_fn self g mem_id a = Ok g' ∧ adj g' = adj g) →
  ∃ record self',
    retrieve mem_id (store uuid (Some mem_id) kwargs self).2
      = (Ok (Some record), self') ∧
    tmm_items record ≡ₚ kwargs.
Proof.
  intros Hfresh Hadj Hfn.
  destruct (store_fresh uuid mem_id kwargs self Hfresh) as (_ & _ & Hfn' & Hn).
  assert (out_edges mem_id (graph (store uuid (Some mem_id) kwargs self).2)
          ≡ₚ (λ kv, (mem_id, kv.2, kv.1)) <$> kwargs) as Hedges.
  { unfold store. simpl. rewrite Hfresh. simpl.
    rewrite store_loop_out_edges. simpl.
    unfold out_edges at 1. simpl. by rewrite Hadj. }
  set (self1 := (store uuid (Some mem_id) kwargs self).2) in *.
  unfold retrieve, graph_contains. rewrite Hn.
  rewrite bool_decide_eq_true_2 by by eexists.
  unfold _activate_and_return. cbn [activation_fn graph pass_time].
  destruct (Hfn (graph self1) (getTime (pass_time 1 self1),
                               getActivation (pass_time 1 self1)))
    as (g' & Hg' & Hadj'); [by rewrite Hn|].
  rewrite Hfn', Hg'. simpl. eexists _, _. split; [done|].
  unfold tmm_items, record_of.
  rewrite record_of_edges_Permutation, app_nil_r.
  assert (out_edges mem_id g' = out_edges mem_id (graph self1)) as ->.
  { unfold out_edges. by rewrite Hadj'. }
  rewrite Hedges, <-list_fmap_compose.
  match goal with
  | |- ?f <$> _ ≡ₚ _ =>
      assert (∀ l : list (string * string), f <$> l = l) as Hid
  end.
  { induction l as [|[k v] l IH]; [done|]. cbn. f_equal. exact IH. }
  by rewrite Hid.
Qed.


(** *** The candidates of a query *)

Lemma neighbour_keys_add_neighbour (w v a : string)
    (nbrs : list (string * list string)) :
  neighbour_keys w (add_neighbour v a nbrs) =
    if decide (w = v) then Some (default [] (neighbour_keys v nbrs) ++ [a])
    else neighbour_keys w nbrs.
Proof.
  induction nbrs as [|[w' keys] nbrs IH]; simpl.
  { repeat case_decide; by simplify_eq. }
  repeat (case_decide; simplify_eq/=); done.
Qed.

Lemma get_edge_data_add_edge (c w u v a : string) (g : MultiDiGraph) :
  get_edge_data c w (add_edge u v a g) =
    if decide (c = u ∧ w = v)
    then Some (default [] (get_edge_data u v g) ++ [a])
    else get_edge_data c w g.
Proof.
  unfold get_edge_data, add_edge. simpl.
  destruct (decide (c = u)) as [->|Hc].
  - rewrite lookup_insert_eq. simpl. rewrite neighbour_keys_add_neighbour.
    destruct (decide (w = v)) as [->|Hw].
    + rewrite decide_True by done. by destruct (adj g !! u).
    + rewrite decide_False by (by intros [_ ?]). by destruct (adj g !! u).
  - rewrite lookup_insert_ne by done.
    by rewrite decide_False by (by intros [? _]).
Qed.

Lemma lookup_index_add (attribute mem_id a : string)
    (idx : gmap string (gset string)) :
  default ∅ (index_add attribute mem_id idx !! a) =
    if decide (attribute = a) then {[mem_id]} ∪ default ∅ (idx !! a)
    else default ∅ (idx !! a).
Proof.
  unfold index_add. case_decide as Ha.
  - subst. by rewrite lookup_insert_eq.
  - by rewrite lookup_insert_ne.
Qed.

Lemma index_covers_store_attribute mem_id now act acc kv :
  index_covers acc.1 acc.2 →
  index_covers (store_attribute mem_id now act acc kv).1
               (store_attribute mem_id now act acc kv).2.
Proof.
  destruct acc as [g idx], kv as [attribute value]. simpl.
  intros Hcov c v keys a. rewrite get_edge_data_add_edge, lookup_index_add.
  assert (∀ c v, get_edge_data c v
                   (if graph_contains value g then g
                    else add_node value [ENum (PyInt now); ENum act] g)
                 = get_edge_data c v g) as Hsame
    by (intros; by destruct (graph_contains value g)).
  rewrite !Hsame. case_decide as Hcv.
  - destruct Hcv as [-> ->]. intros [= <-] Ha.
    apply elem_of_app in Ha as [Ha|Ha%list_elem_of_singleton].
    + destruct (get_edge_data mem_id value g) as [keys|] eqn:Hk;
        [|by apply elem_of_nil in Ha].
      pose proof (Hcov _ _ _ _ Hk Ha). case_decide; set_solver.
    + subst. rewrite decide_True by done. set_solver.
  - intros Hk Ha. pose proof (Hcov _ _ _ _ Hk Ha). case_decide; set_solver.
Qed.

Lemma index_covers_init fn :
  index_covers (graph (init fn)) (inverted_index (init fn)).
Proof. by intros c v keys a. Qed.

(** [store] keeps the index in step with the edges, for an activation
    function that leaves the edges alone. *)
Lemma index_covers_store uuid mem_id kwargs self :
  (∀ g m a g', activation_fn self g m a = Ok g' → adj g' = adj g) →
  index_covers (graph self) (inverted_index self) →
  index_covers (graph (store uuid mem_id kwargs self).2)
               (inverted_index (store uuid mem_id kwargs self).2).
Proof.
  intros Hfn Hcov. unfold store.
  set (m := default (uuid self) mem_id).
  assert (∀ g, adj g = adj (graph self) →
            index_covers
              (foldl (store_attribute m (getTime self) (getActivation self))
                     (g, inverted_index self) kwargs).1
              (foldl (store_attribute m (getTime self) (getActivation self))
                     (g, inverted_index self) kwargs).2) as Hloop.
  { intros g Hg.
    assert (index_covers (g, inverted_index self).1 (g, inverted_index self).2)
      as Hacc.
    { intros c v keys a. unfold get_edge_data. simpl. rewrite Hg. apply Hcov. }
    revert Hacc. generalize (g, inverted_index self).
    induction kwargs as [|kv kwargs IH]; intros acc Hacc; simpl; [done|].
    apply IH. by apply index_covers_store_attribute. }
  destruct (graph_contains m (graph self)).
  - destruct (activation_fn self (graph self) m _) as [g|] eqn:Hg; [|done].
    simpl. apply Hloop. by eapply Hfn.
  - simpl. by apply Hloop.
Qed.

Lemma touched_index_lookup attr_vals self a :
  default ∅ (touched_index attr_vals self !! a)
    = default ∅ (inverted_index self !! a).
Proof.
  unfold touched_index. generalize (inverted_index self).
  induction (tmm_keys attr_vals) as [|k ks IH]; intros idx; simpl; [done|].
  rewrite IH. unfold index_touch.
  destruct (idx !! k) eqn:Hk; [done|].
  destruct (decide (k = a)) as [->|Hne].
  - by rewrite lookup_insert_eq, Hk.
  - by rewrite lookup_insert_ne.
Qed.

Lemma elem_of_foldl_intersection (f : string → gset string)
    (l : list string) : ∀ (X : gset string) (c : string),
  c ∈ foldl (λ acc a, acc ∩ f a) X l ↔ c ∈ X ∧ ∀ a, a ∈ l → c ∈ f a.
Proof.
  induction l as [|a l IH]; intros X c; simpl.
  { split; [intros ?; split; [done|by intros ? ?%elem_of_nil]|by intros [? _]]. }
  rewrite IH, elem_of_intersection. split.
  - intros [[? ?] Hl]. split; [done|].
    intros a' [->|?]%elem_of_cons; [done|by apply Hl].
  - intros [? Hl]. split; [split; [done|apply Hl; left]|].
    intros a' ?. apply Hl. by right.
Qed.

(** What the two passes of [query] admit, on a store whose index is in step
    with its edges: the identifiers that have, for every queried pair, an
    edge to the value whose first parallel edge carries the attribute.
    Admission implies a matching edge for every term; the label of a second
    or later parallel edge is not looked at. *)
Lemma candidates_spec (attr_vals : TreeMultiMap) (self : t) (c : string) :
  index_covers (graph self) (inverted_index self) →
  tmm_keys attr_vals ≠ [] →
  c ∈ candidates attr_vals self ↔
  ∀ a v, (a, v) ∈ tmm_items attr_vals →
    ∃ keys, get_edge_data c v (graph self) = Some (a :: keys).
Proof.
  intros Hcov Hne.
  assert (candidate_matches (graph self) attr_vals c = true ↔
          ∀ a v, (a, v) ∈ tmm_items attr_vals →
            ∃ keys, get_edge_data c v (graph self) = Some (a :: keys)) as Hm.
  { unfold candidate_matches. rewrite forallb_forall. split.
    - intros H a v Hav. apply list_elem_of_In, H in Hav.
      unfold edge_matches, has_edge in Hav. simpl in Hav.
      destruct (get_edge_data c v (graph self)) as [[|a0 keys]|]; try done.
      apply bool_decide_eq_true in Hav as ->. by eexists.
    - intros H [a v] Hav%list_elem_of_In. destruct (H a v Hav) as [keys Hk].
      unfold edge_matches, has_edge. simpl. rewrite Hk.
      by rewrite bool_decide_eq_true_2. }
  unfold candidates. unfold tmm_keys in *.
  destruct attr_vals as [|[a0 v0] attr_vals]; [done|]. cbn [fmap list_fmap fst].
  rewrite elem_of_filter, Hm.
  split; [by intros [? _]|]. intros Hall. split; [done|].
  change (foldl _ _ _) with
    (foldl (λ acc a, acc ∩ default ∅ (touched_index ((a0, v0) :: attr_vals) self !! a))
       (default ∅ (touched_index ((a0, v0) :: attr_vals) self !! a0))
       (attr_vals.*1)).
  apply elem_of_foldl_intersection. split.
  - rewrite touched_index_lookup.
    destruct (Hall a0 v0) as [keys Hk]; [left|].
    eapply Hcov; [done|left].
  - intros a (av & -> & Hav)%list_elem_of_fmap. rewrite touched_index_lookup.
    destruct av as [a v]. destruct (Hall a v) as [keys Hk]; [by right|].
    eapply Hcov; [done|left].
Qed.


(** *** Ranking *)

Lemma with_keys_spec (g : MultiDiGraph) (l : list string) :
  with_keys g l =
    if decide (Forall (λ c, is_Some (nodes g !! c)) l)
    then Ok ((λ c, (default [] (nodes g !! c), c)) <$> l)
    else Raise KeyError.
Proof.
  induction l as [|c l IH]; simpl.
  { done. }
  unfold node_activation. destruct (nodes g !! c) as [h|] eqn:Hc; simpl.
  - rewrite IH. case_decide as Hl.
    + rewrite decide_True; [done|].
      constructor; [rewrite Hc; by eexists|done].
    + rewrite decide_False; [done|]. by intros [_ ?]%Forall_cons.
  - rewrite decide_False; [done|].
    intros [[? Hs] _]%Forall_cons. congruence.
Qed.

(** The order [sorted] gives the matches is the same whatever order they
    arrive in, provided no two of them tie. *)
Lemma sort_by_activation_unique (g : MultiDiGraph) (X : gset string)
    (l1 l2 : list string) :
  l1 ≡ₚ elements X → l2 ≡ₚ elements X →
  strictly_ranked g X →
  sort_by_activation g l1 = sort_by_activation g l2.
Proof.
  intros H1 H2 Hranked.
  assert (l1 ≡ₚ l2) as Hp by by rewrite H1, H2.
  assert (NoDup l1) as Hnd by (rewrite H1; apply NoDup_elements).
  unfold sort_by_activation. rewrite !with_keys_spec.
  destruct (decide (Forall (λ c, is_Some (nodes g !! c)) l1)) as [Hn|Hn].
  2:{ rewrite decide_False; [done|]. by rewrite <-Hp. }
  rewrite decide_True by by rewrite <-Hp.
  set (f := λ c : string, (default [] (nodes g !! c), c)).
  assert (Inj (=) (=) f) as Hinj by (by intros c c' [= _ ->]).
  cbn [mbind outcome_bind].
  destruct (py_sorted_reverse_unique keyed_lt (λ p, p ∈ f <$> l1))
    with (l1 := f <$> l1) (l2 := f <$> l2) as (r & -> & ->); try done.
  - (* defined *)
    intros x y (c & -> & Hc)%list_elem_of_fmap (c' & -> & Hc')%list_elem_of_fmap.
    unfold keyed_lt. simpl.
    destruct (decide (c = c')) as [->|Hne].
    { rewrite history_lt_irrefl. by eexists. }
    rewrite H1 in Hc, Hc'. apply elem_of_elements in Hc, Hc'.
    pose proof (Hranked c Hc c' Hc' Hne) as Hr. unfold ranked in Hr.
    destruct (nodes g !! c) as [h|]; [|done].
    destruct (nodes g !! c') as [h'|]; [|done]. simpl.
    destruct Hr as [Hr|Hr]; [by eexists|].
    apply history_lt_asym in Hr. by eexists.
  - (* transitive *)
    intros x y z _ _ _. apply history_lt_trans.
  - (* total *)
    intros x y (c & -> & Hc)%list_elem_of_fmap (c' & -> & Hc')%list_elem_of_fmap Hne.
    assert (c ≠ c') as Hne' by congruence.
    rewrite H1 in Hc, Hc'. apply elem_of_elements in Hc, Hc'.
    pose proof (Hranked c Hc c' Hc' Hne') as Hr. unfold ranked in Hr.
    unfold keyed_lt. simpl.
    destruct (nodes g !! c) as [h|]; [|done].
    by destruct (nodes g !! c') as [h'|].
  - (* asymmetric *)
    intros x y Hxy Hyx. apply history_lt_asym in Hxy.
    unfold keyed_lt in Hyx. congruence.
  - by apply Forall_forall.
  - by apply NoDup_fmap_2.
  - by rewrite Hp.
Qed.

Lemma query_order_deterministic (it1 it2 : gset string → list string)
    (attr_vals : TreeMultiMap) (self : t) :
  (∀ X, it1 X ≡ₚ elements X) → (∀ X, it2 X ≡ₚ elements X) →
  strictly_ranked (graph self) (candidates attr_vals self) →
  query it1 attr_vals self = query it2 attr_vals self.
Proof.
  intros H1 H2 Hranked. unfold query.
  destruct (tmm_keys attr_vals); [done|]. cbv zeta.
  case_decide; [done|].
  by rewrite (sort_by_activation_unique _ (candidates attr_vals self)
                _ (it2 (candidates attr_vals self))).
Qed.

(** C2: [query] orders its matches by a stable descending sort on their
    activation histories and by nothing else.  Two runs of one sequence of
    [store] and [query] calls, which may iterate sets in different orders,
    return the same results and leave the same stores, cursors included,
    as long as every query finds its matches strictly ranked. *)
Theorem runs_agree_without_ties (uuid : t → string)
    (it1 it2 : gset string → list string) (calls : list call) :
  (∀ X, it1 X ≡ₚ elements X) → (∀ X, it2 X ≡ₚ elements X) →
  ∀ self,
    ranked_run uuid it1 calls self →
    run uuid it1 calls self = run uuid it2 calls self.
Proof.
  intros H1 H2. induction calls as [|c calls IH]; intros self; simpl; [done|].
  intros [Hc Hrun].
  assert (do_call uuid it1 c self = do_call uuid it2 c self) as Heq.
  { destruct c as [mem_id kwargs|attr_vals]; simpl; [done|].
    by rewrite (query_order_deterministic it1 it2). }
  rewrite <-Heq. f_equal. by apply IH.
Qed.


Lemma reversed_elements_Permutation (X : gset string) :
  reversed_elements X ≡ₚ elements X.
Proof. apply reverse_Permutation. Qed.

Lemma runs_agree_without_ties_witness :
  (∀ X : gset string, elements X ≡ₚ elements X) ∧
  (∀ X, reversed_elements X ≡ₚ elements X) ∧
  ranked_run example_uuid elements scenario_calls
    (init (Some append_activation_fn)) ∧
  run example_uuid elements scenario_calls (init (Some append_activation_fn))
    = run example_uuid reversed_elements scenario_calls
        (init (Some append_activation_fn)).
Proof.
  assert (ranked_run example_uuid elements scenario_calls
            (init (Some append_activation_fn))) as Hranked.
  { apply (bool_decide_unpack _). by vm_compute. }
  split; [done|]. split; [exact reversed_elements_Permutation|].
  split; [exact Hranked|].
  exact (runs_agree_without_ties example_uuid elements reversed_elements
           scenario_calls (λ X, reflexivity (elements X))
           reversed_elements_Permutation
           (init (Some append_activation_fn)) Hranked).
Defined.

(** The matches of the last query of the scenario, as test.py expects
    them. *)
Example scenario_ranking :
  query_results <$> (snd <$> last (run example_uuid elements scenario_calls
                                     (init (Some append_activation_fn))))
    = Some (Some ["whale"; "bear"; "cat"]).
Proof. by vm_compute. Qed.

(** Two runs of [tied_calls] that iterate the candidate set in opposite
    orders: the identifiers [p] and [q] tie, the sort keeps the order in
    which the set yields them, and the two runs return different top
    results and cache the matches in different orders. *)
Lemma query_order_depends_on_set_iteration :
  let run1 := run example_uuid elements tied_calls (init (Some no_activation_fn)) in
  let run2 := run example_uuid reversed_elements tied_calls
                (init (Some no_activation_fn)) in
  (∀ X, reversed_elements X ≡ₚ elements X) ∧
  (query_results <$> (snd <$> last run1)) = Some (Some ["q"; "p"]) ∧
  (query_results <$> (snd <$> last run2)) = Some (Some ["p"; "q"]) ∧
  (fst <$> last run1)
    = Some (inr (Ok (Some [("k", "z"); ("name", "second")]))) ∧
  (fst <$> last run2)
    = Some (inr (Ok (Some [("k", "z"); ("name", "first")]))) ∧
  run1 ≠ run2.
Proof.
  intros run1 run2.
  split; [exact reversed_elements_Permutation|].
  repeat split; by vm_compute.
Qed.


(** *** The cursor *)

Lemma activate_and_return_cursor mem_id activation self :
  query_results (_activate_and_return mem_id activation self).2
    = query_results self ∧
  result_index (_activate_and_return mem_id activation self).2
    = result_index self.
Proof.
  unfold _activate_and_return.
  by destruct (activation_fn self (graph self) mem_id activation).
Qed.

Lemma cursor_at_has_prev_result results i self :
  cursor_at results i self → has_prev_result self = Ok (bool_decide (0 < i)).
Proof.
  intros (Hr & Hi & _). unfold has_prev_result. rewrite Hr, Hi. f_equal.
  destruct (Z.ltb_spec 0 i).
  - by rewrite bool_decide_eq_true_2.
  - by rewrite bool_decide_eq_false_2 by lia.
Qed.

Lemma cursor_at_has_next_result results i self :
  cursor_at results i self →
  has_next_result self = Ok (bool_decide (i < Z.of_nat (length results) - 1)).
Proof.
  intros (Hr & Hi & _). unfold has_next_result. rewrite Hr, Hi. f_equal.
  destruct (Z.ltb_spec i (Z.of_nat (length results) - 1)).
  - by rewrite bool_decide_eq_true_2.
  - by rewrite bool_decide_eq_false_2 by lia.
Qed.

(** A move that stays inside the cached matches leaves the cursor on the
    entry it was moved to, and what it returns, when the activation
    function returns, is the record of the identifier found there. *)
Lemma move_cursor step results i self :
  cursor_at results i self →
  0 ≤ i + step < Z.of_nat (length results) →
  cursor_at results (i + step) (move step self).2 ∧
  ∃ node, results !! Z.to_nat (i + step) = Some node ∧
    ∀ record, (move step self).1 = Ok record →
      record = record_of node (graph (move step self).2).
Proof.
  intros (Hr & Hi & Hrange) Hstep. unfold move. rewrite Hi, Hr.
  destruct (py_getitem_in_range results (i + step) Hstep) as (node & Hnode & ->).
  match goal with
  | |- context [_activate_and_return ?m ?a ?s] =>
      pose proof (activate_and_return_cursor m a s) as [Hr' Hi'];
      unfold _activate_and_return in *;
      destruct (activation_fn s (graph s) m a) as [g|e]
  end.
  - split; [done|]. exists node. split; [done|]. by intros ? [= <-].
  - split; [done|]. exists node. split; [done|]. done.
Qed.

Lemma after_next_cursor results k : ∀ i self,
  cursor_at results i self →
  i + Z.of_nat k < Z.of_nat (length results) →
  cursor_at results (i + Z.of_nat k) (after_next k self).
Proof.
  induction k as [|k IH]; intros i self Hc Hk; simpl.
  { by rewrite Z.add_0_r. }
  destruct Hc as (Hr & Hi & Hrange).
  destruct (move_cursor 1 results i self) as [Hc' _]; [done|lia|].
  replace (i + Z.of_nat (S k)) with ((i + 1) + Z.of_nat k) by lia.
  apply IH; [done|lia].
Qed.

(** A query that returns a record leaves the cursor on the first of its
    matches. *)
Lemma query_cursor set_iter attr_vals self record :
  (query set_iter attr_vals self).1 = Ok (Some record) →
  ∃ results, cursor_at results 0 (query set_iter attr_vals self).2.
Proof.
  unfold query. destruct (tmm_keys attr_vals); [done|]. cbv zeta.
  case_decide; [done|].
  destruct (sort_by_activation _ _) as [results|]; [|done].
  destruct (py_getitem results 0) as [node|] eqn:Hnode; [|done].
  match goal with
  | |- context [_activate_and_return ?m ?a ?s] =>
      pose proof (activate_and_return_cursor m a s) as [Hr' Hi'];
      destruct (_activate_and_return m a s) as [r self2]
  end.
  intros _. exists results. simpl in *. split; [done|]. split; [done|].
  unfold py_getitem in Hnode. simpl in Hnode.
  destruct (0 <? Z.of_nat (length results)) eqn:Hlen; [|done].
  apply Z.ltb_lt in Hlen. lia.
Qed.

(** After a query of the graph store that returned a record: the cursor
    starts on the first match; [k] calls of [next_result], for [k] below
    the number of matches, leave it on the match of rank [k], where
    [has_prev_result] is false exactly for [k = 0] and [has_next_result]
    exactly for the last match; [prev_result] from there leads one match
    back; and what [next_result] returns is the record of the next match. *)
Lemma graph_cursor_navigation set_iter attr_vals self record :
  (query set_iter attr_vals self).1 = Ok (Some record) →
  ∃ results,
    cursor_at results 0 (query set_iter attr_vals self).2 ∧
    ∀ k : nat, (k < length results)%nat →
      let self_k := after_next k (query set_iter attr_vals self).2 in
      cursor_at results (Z.of_nat k) self_k ∧
      has_prev_result self_k = Ok (bool_decide (0 < k)%nat) ∧
      has_next_result self_k = Ok (bool_decide (k < length results - 1)%nat) ∧
      ((0 < k)%nat → cursor_at results (Z.of_nat k - 1) (prev_result self_k).2) ∧
      ((k < length results - 1)%nat →
         cursor_at results (Z.of_nat k + 1) (next_result self_k).2 ∧
         ∃ node, results !! S k = Some node ∧
           ∀ r, (next_result self_k).1 = Ok r →
             r = record_of node (graph (next_result self_k).2)).
Proof.
  intros Hq. destruct (query_cursor _ _ _ _ Hq) as [results Hc].
  exists results. split; [done|]. intros k Hk self_k.
  assert (cursor_at results (Z.of_nat k) self_k) as Hck.
  { apply (after_next_cursor results k 0); [done|lia]. }
  split; [done|].
  split.
  { rewrite (cursor_at_has_prev_result results (Z.of_nat k)) by done.
    f_equal. apply bool_decide_ext. lia. }
  split.
  { rewrite (cursor_at_has_next_result results (Z.of_nat k)) by done.
    f_equal. apply bool_decide_ext. lia. }
  split.
  - intros Hpos.
    destruct (move_cursor (-1) results (Z.of_nat k) self_k) as [Hc' _];
      [done|lia|done].
  - intros Hnext.
    destruct (move_cursor 1 results (Z.of_nat k) self_k)
      as (Hc' & node & Hnode & Hrec); [done|lia|].
    split; [done|]. exists node. split; [|done].
    rewrite <-Hnode. f_equal. lia.
Qed.


(** [retrieve] of the graph store does not touch the cursor, whether the
    identifier is found or not, and whatever the activation function does. *)
Lemma retrieve_cursor_unchanged (mem_id : string) (self : t) :
  query_results (retrieve mem_id self).2 = query_results self ∧
  result_index (retrieve mem_id self).2 = result_index self.
Proof.
  unfold retrieve. destruct (graph_contains mem_id (graph self)); [|done].
  match goal with
  | |- context [_activate_and_return ?m ?a ?s] =>
      pose proof (activate_and_return_cursor m a s) as [Hr Hi];
      destruct (_activate_and_return m a s) as [r self2]
  end.
  done.
Qed.


(** *** Evaluations *)

(** C1: an identifier stored with two attributes of the same value has two
    parallel edges to the value node; [query] looks at the label of the
    first of them only, so a query for the second attribute, which the
    identifier carries, finds nothing. *)
Theorem query_misses_second_parallel_edge
    (fn : option activation_fn_t) (uuid : t → string)
    (set_iter : gset string → list string) :
  let self := (store uuid (Some "x") [("a", "v"); ("b", "v")] (init fn)).2 in
  out_edges "x" (graph self) = [("x", "v", "a"); ("x", "v", "b")] ∧
  inverted_index self !! "b" = Some {["x"]} ∧
  candidate_matches (graph self) [("a", "v")] "x" = true ∧
  candidate_matches (graph self) [("b", "v")] "x" = false ∧
  query set_iter [("b", "v")] self = (Ok None, with_cursor None None self).
Proof. by vm_compute. Qed.

(** C8: with the activation function [__init__] installs by default,
    [retrieve] of an identifier that was just stored raises [TypeError]
    where the round trip would return the record. *)
Theorem default_store_retrieve_raises (uuid : t → string) (mem_id : string)
    (kwargs : list (string * string)) :
  let self := (store uuid (Some mem_id) kwargs (init None)).2 in
  (store uuid (Some mem_id) kwargs (init None)).1 = Ok true ∧
  retrieve mem_id self = (Raise TypeError, pass_time 1 self).
Proof.
  intros self.
  assert (graph_contains mem_id (graph (init None)) = false) as Hfresh by done.
  destruct (store_fresh uuid mem_id kwargs (init None) Hfresh)
    as (Hok & _ & Hfn & Hn).
  split; [done|]. unfold retrieve, graph_contains. fold self in Hn, Hfn.
  rewrite Hn. rewrite bool_decide_eq_true_2 by by eexists.
  unfold _activate_and_return. simpl. by rewrite Hfn.
Qed.

(** *** The clock *)

Lemma activate_and_return_time mem_id activation self :
  time (_activate_and_return mem_id activation self).2 = time self ∧
  inverted_index (_activate_and_return mem_id activation self).2
    = inverted_index self ∧
  activation_fn (_activate_and_return mem_id activation self).2
    = activation_fn self.
Proof.
  unfold _activate_and_return.
  by destruct (activation_fn self (graph self) mem_id activation).
Qed.

(** X6: the clock moves on by one with every [store] that returns, every
    [retrieve] of an identifier in the graph and every [query] that returns
    a record; it stays where it is for a [store] that raises, a [retrieve]
    of an unknown identifier, a [query] without a match, [prev_result],
    [next_result] and [clear]; no [query] moves it back or by more than
    one. *)
Theorem clock_advances uuid set_iter self :
  (∀ mem_id kwargs,
     time (store uuid mem_id kwargs self).2 =
       match (store uuid mem_id kwargs self).1 with
       | Ok _ => time self + 1
       | Raise _ => time self
       end) ∧
  (∀ mem_id,
     time (retrieve mem_id self).2 =
       if graph_contains mem_id (graph self) then time self + 1
       else time self) ∧
  (∀ attr_vals,
     time self ≤ time (query set_iter attr_vals self).2 ≤ time self + 1 ∧
     match (query set_iter attr_vals self).1 with
     | Ok (Some _) => time (query set_iter attr_vals self).2 = time self + 1
     | Ok None => time (query set_iter attr_vals self).2 = time self
     | Raise _ => True
     end) ∧
  time (prev_result self).2 = time self ∧
  time (next_result self).2 = time self ∧
  time (clear self).2 = time self.
Proof.
  split; [|split; [|split; [|split; [|split]]]].
  - intros mem_id kwargs. unfold store. cbv zeta.
    by destruct (if graph_contains _ _ then _ else _).
  - intros mem_id. unfold retrieve.
    destruct (graph_contains mem_id (graph self)); [|done].
    match goal with
    | |- context [_activate_and_return ?m ?a ?s] =>
        pose proof (activate_and_return_time m a s) as [Ht _];
        destruct (_activate_and_return m a s) as [r self2]
    end.
    simpl in *. lia.
  - intros attr_vals. unfold query.
    destruct (tmm_keys attr_vals); [simpl; lia|]. cbv zeta.
    case_decide; [simpl; lia|].
    destruct (sort_by_activation _ _) as [results|]; [|simpl; lia].
    destruct (py_getitem results 0) as [node|]; [|simpl; lia].
    match goal with
    | |- context [_activate_and_return ?m ?a ?s] =>
        pose proof (activate_and_return_time m a s) as [Ht _];
        destruct (_activate_and_return m a s) as [[r|] self2]
    end; simpl in *; lia.
  - unfold prev_result, move. destruct (result_index self); [|done].
    destruct (query_results self); [|done].
    destruct (py_getitem _ _); [|done].
    match goal with
    | |- context [_activate_and_return ?m ?a ?s] =>
        pose proof (activate_and_return_time m a s) as [Ht _]
    end.
    by rewrite Ht.
  - unfold next_result, move. destruct (result_index self); [|done].
    destruct (query_results self); [|done].
    destruct (py_getitem _ _); [|done].
    match goal with
    | |- context [_activate_and_return ?m ?a ?s] =>
        pose proof (activate_and_return_time m a s) as [Ht _]
    end.
    by rewrite Ht.
  - done.
Qed.

(** *** A query without a match *)

(** X7: a [query] of the graph store that returns [None] had no candidate
    left; it changes nothing but the cursor, which it clears, and the index
    entries it creates by reading them; afterwards both flags are false and
    [prev_result] and [next_result] raise [TypeError] and change nothing. *)
Theorem query_without_match_clears_cursor set_iter attr_vals self :
  (query set_iter attr_vals self).1 = Ok None →
  let self' := (query set_iter attr_vals self).2 in
  candidates attr_vals self = ∅ ∧
  self' = with_cursor None None
            (with_inverted_index (touched_index attr_vals self) self) ∧
  has_prev_result self' = Ok false ∧
  has_next_result self' = Ok false ∧
  prev_result self' = (Raise TypeError, self') ∧
  next_result self' = (Raise TypeError, self').
Proof.
  unfold query. destruct (tmm_keys attr_vals); [done|]. cbv zeta.
  case_decide as Hc; [done|].
  destruct (sort_by_activation _ _) as [results|]; [|done].
  destruct (py_getitem results 0) as [node|]; [|done].
  match goal with
  | |- context [_activate_and_return ?m ?a ?s] =>
      destruct (_activate_and_return m a s) as [[r|] self2]
  end; done.
Qed.

(** *** Invariants of the stores a program can get to *)

Lemma index_covers_ext (g g' : MultiDiGraph) (idx idx' : gmap string (gset string)) :
  adj g' = adj g →
  (∀ a, default ∅ (idx' !! a) = default ∅ (idx !! a)) →
  index_covers g idx → index_covers g' idx'.
Proof.
  intros Hadj Hidx Hcov c v keys a. unfold get_edge_data.
  rewrite Hadj, Hidx. apply Hcov.
Qed.

Lemma activate_and_return_adj mem_id activation self :
  (∀ g m a g', activation_fn self g m a = Ok g' → adj g' = adj g) →
  adj (graph (_activate_and_return mem_id activation self).2) = adj (graph self).
Proof.
  intros Hfn. unfold _activate_and_return.
  destruct (activation_fn self (graph self) mem_id activation) eqn:Hg; [|done].
  simpl. by eapply Hfn.
Qed.

Lemma move_frame step self :
  (∀ g m a g', activation_fn self g m a = Ok g' → adj g' = adj g) →
  adj (graph (move step self).2) = adj (graph self) ∧
  inverted_index (move step self).2 = inverted_index self ∧
  activation_fn (move step self).2 = activation_fn self.
Proof.
  intros Hfn. unfold move. destruct (result_index self); [|done].
  destruct (query_results self); [|done].
  destruct (py_getitem _ _); [|done].
  match goal with
  | |- context [_activate_and_return ?m ?a ?s] =>
      pose proof (activate_and_return_time m a s) as (_ & Hi & Hf);
      pose proof (activate_and_return_adj m a s Hfn) as Ha
  end.
  by rewrite Ha, Hi, Hf.
Qed.

Lemma move_cursor_fields step self :
  (query_results self = None ↔ result_index self = None) →
  (query_results (move step self).2 = None ↔ result_index (move step self).2 = None).
Proof.
  unfold move. destruct (result_index self) as [i|] eqn:Hi;
    [|simpl; by rewrite Hi].
  destruct (query_results self) as [results|] eqn:Hr;
    [|intros [H _]; by specialize (H eq_refl)].
  intros _. destruct (py_getitem _ _); [|done].
  match goal with
  | |- context [_activate_and_return ?m ?a ?s] =>
      pose proof (activate_and_return_cursor m a s) as [Hr' Hi']
  end.
  rewrite Hr', Hi'. done.
Qed.

Lemma retrieve_frame mem_id self :
  (∀ g m a g', activation_fn self g m a = Ok g' → adj g' = adj g) →
  adj (graph (retrieve mem_id self).2) = adj (graph self) ∧
  inverted_index (retrieve mem_id self).2 = inverted_index self ∧
  activation_fn (retrieve mem_id self).2 = activation_fn self.
Proof.
  intros Hfn. unfold retrieve.
  destruct (graph_contains mem_id (graph self)); [|done].
  match goal with
  | |- context [_activate_and_return ?m ?a ?s] =>
      pose proof (activate_and_return_time m a s) as (_ & Hi & Hf);
      pose proof (activate_and_return_adj m a s Hfn) as Ha;
      destruct (_activate_and_return m a s) as [r self2]
  end.
  done.
Qed.

Lemma query_frame set_iter attr_vals self :
  (∀ g m a g', activation_fn self g m a = Ok g' → adj g' = adj g) →
  adj (graph (query set_iter attr_vals self).2) = adj (graph self) ∧
  (∀ a, default ∅ (inverted_index (query set_iter attr_vals self).2 !! a)
        = default ∅ (inverted_index self !! a)) ∧
  activation_fn (query set_iter attr_vals self).2 = activation_fn self.
Proof.
  intros Hfn. unfold query. destruct (tmm_keys attr_vals); [done|]. cbv zeta.
  pose proof (touched_index_lookup attr_vals self) as Ht.
  case_decide; [done|].
  destruct (sort_by_activation _ _) as [results|]; [|done].
  destruct (py_getitem results 0) as [node|]; [|done].
  match goal with
  | |- context [_activate_and_return ?m ?a ?s] =>
      pose proof (activate_and_return_time m a s) as (_ & Hi & Hf);
      pose proof (activate_and_return_adj m a s Hfn) as Ha;
      destruct (_activate_and_return m a s) as [r self2]
  end.
  simpl in *. by rewrite Hi.
Qed.

Lemma query_cursor_fields set_iter attr_vals self :
  (query_results self = None ↔ result_index self = None) →
  (query_results (query set_iter attr_vals self).2 = None
   ↔ result_index (query set_iter attr_vals self).2 = None).
Proof.
  intros Hinv. unfold query. destruct (tmm_keys attr_vals); [done|]. cbv zeta.
  case_decide; [done|].
  destruct (sort_by_activation _ _) as [results|]; [|done].
  destruct (py_getitem results 0) as [node|]; [|done].
  match goal with
  | |- context [_activate_and_return ?m ?a ?s] =>
      pose proof (activate_and_return_cursor m a s) as [Hr' Hi'];
      destruct (_activate_and_return m a s) as [r self2]
  end.
  simpl in *. by rewrite Hr', Hi'.
Qed.

Lemma store_frame uuid mem_id kwargs self :
  query_results (store uuid mem_id kwargs self).2 = query_results self ∧
  result_index (store uuid mem_id kwargs self).2 = result_index self ∧
  activation_fn (store uuid mem_id kwargs self).2 = activation_fn self.
Proof.
  unfold store. cbv zeta. by destruct (if graph_contains _ _ then _ else _).
Qed.

Section reachable_facts.
Variable uuid : t → string.
Variable set_iter : gset string → list string.
Variable fn : option activation_fn_t.

Lemma reachable_activation_fn self :
  reachable uuid set_iter fn self →
  activation_fn self = default default_activation_fn fn.
Proof.
  induction 1 as [|s _ IH|s mem_id kwargs _ IH|s mem_id _ IH|s attr_vals _ IH
                  |s _ IH|s _ IH|s dt _ IH]; try done.
  - by destruct (store_frame uuid mem_id kwargs s) as (_ & _ & ->).
  - unfold retrieve. destruct (graph_contains mem_id (graph s)); [|done].
    match goal with
    | |- context [_activate_and_return ?m ?a ?s] =>
        pose proof (activate_and_return_time m a s) as (_ & _ & Hf);
        destruct (_activate_and_return m a s) as [r self2]
    end.
    simpl in *. by rewrite Hf.
  - unfold query. destruct (tmm_keys attr_vals); [done|]. cbv zeta.
    case_decide; [done|].
    destruct (sort_by_activation _ _) as [results|]; [|done].
    destruct (py_getitem results 0) as [node|]; [|done].
    match goal with
    | |- context [_activate_and_return ?m ?a ?s] =>
        pose proof (activate_and_return_time m a s) as (_ & _ & Hf);
        destruct (_activate_and_return m a s) as [r self2]
    end.
    simpl in *. by rewrite Hf.
  - unfold prev_result, move. destruct (result_index s); [|done].
    destruct (query_results s); [|done].
    destruct (py_getitem _ _); [|done].
    match goal with
    | |- context [_activate_and_return ?m ?a ?s] =>
        pose proof (activate_and_return_time m a s) as (_ & _ & Hf)
    end.
    by rewrite Hf.
  - unfold next_result, move. destruct (result_index s); [|done].
    destruct (query_results s); [|done].
    destruct (py_getitem _ _); [|done].
    match goal with
    | |- context [_activate_and_return ?m ?a ?s] =>
        pose proof (activate_and_return_time m a s) as (_ & _ & Hf)
    end.
    by rewrite Hf.
Qed.

(** X8: in every store a program can get to through the methods,
    [query_results] and [result_index] are set or unset together, so that
    [has_prev_result] and [has_next_result] return a boolean and do not
    raise. *)
Theorem reachable_cursor_flags_defined self :
  reachable uuid set_iter fn self →
  (query_results self = None ↔ result_index self = None) ∧
  (∃ b, has_prev_result self = Ok b) ∧
  (∃ b, has_next_result self = Ok b).
Proof.
  intros Hreach.
  assert (query_results self = None ↔ result_index self = None) as Hinv.
  { induction Hreach as [|s _ IH|s mem_id kwargs _ IH|s mem_id _ IH
                         |s attr_vals _ IH|s _ IH|s _ IH|s dt _ IH]; try done.
    - by destruct (store_frame uuid mem_id kwargs s) as (-> & -> & _).
    - by destruct (retrieve_cursor_unchanged mem_id s) as [-> ->].
    - by apply query_cursor_fields.
    - by apply move_cursor_fields.
    - by apply move_cursor_fields. }
  split; [done|]. unfold has_prev_result, has_next_result.
  destruct (query_results self) as [results|]; [|split; by eexists].
  destruct (result_index self) as [i|]; [split; by eexists|].
  destruct Hinv as [_ Hinv]. by specialize (Hinv eq_refl).
Qed.

Hypothesis fn_keeps_edges :
  ∀ g m a g', default default_activation_fn fn g m a = Ok g' → adj g' = adj g.

Lemma reachable_index_covers self :
  reachable uuid set_iter fn self →
  index_covers (graph self) (inverted_index self).
Proof.
  intros Hreach.
  induction Hreach as [|s Hs IH|s mem_id kwargs Hs IH|s mem_id Hs IH
                       |s attr_vals Hs IH|s Hs IH|s Hs IH|s dt Hs IH];
    try (pose proof (reachable_activation_fn s Hs) as Hfn;
         assert (∀ g m a g', activation_fn s g m a = Ok g' → adj g' = adj g)
           as Hkeeps by (rewrite Hfn; exact fn_keeps_edges)).
  - apply index_covers_init.
  - by intros c v keys a.
  - by apply index_covers_store.
  - destruct (retrieve_frame mem_id s Hkeeps) as (Ha & Hi & _).
    eapply index_covers_ext; [exact Ha| |exact IH]. by rewrite Hi.
  - destruct (query_frame set_iter attr_vals s Hkeeps) as (Ha & Hi & _).
    eapply index_covers_ext; [exact Ha|exact Hi|exact IH].
  - destruct (move_frame (-1) s Hkeeps) as (Ha & Hi & _). unfold prev_result.
    eapply index_covers_ext; [exact Ha| |exact IH]. by rewrite Hi.
  - destruct (move_frame 1 s Hkeeps) as (Ha & Hi & _). unfold next_result.
    eapply index_covers_ext; [exact Ha| |exact IH]. by rewrite Hi.
  - done.
Qed.
End reachable_facts.

(** X9: in every store a program can get to, over an activation function
    that leaves the edges alone, the candidates of a query are the
    identifiers that have, for every queried pair, edges to the value, the
    first of which carries the attribute. *)
Theorem reachable_query_candidates uuid set_iter fn attr_vals self c :
  (∀ g m a g', default default_activation_fn fn g m a = Ok g' → adj g' = adj g) →
  reachable uuid set_iter fn self →
  tmm_keys attr_vals ≠ [] →
  c ∈ candidates attr_vals self ↔
  ∀ a v, (a, v) ∈ tmm_items attr_vals →
    ∃ keys, get_edge_data c v (graph self) = Some (a :: keys).
Proof.
  intros Hfn Hreach Hne. apply candidates_spec; [|done].
  by eapply reachable_index_covers.
Qed.

(** *** What [store] adds *)

Lemma out_edges_store_attribute_ne u mem_id now act acc kv :
  u ≠ mem_id →
  out_edges u (store_attribute mem_id now act acc kv).1 = out_edges u acc.1.
Proof.
  intros Hne. destruct acc as [g idx], kv as [attribute value].
  unfold out_edges. simpl. rewrite lookup_insert_ne by done.
  by destruct (graph_contains value g).
Qed.

Lemma store_loop_out_edges_ne u mem_id now act kwargs : ∀ acc,
  u ≠ mem_id →
  out_edges u (foldl (store_attribute mem_id now act) acc kwargs).1
    = out_edges u acc.1.
Proof.
  induction kwargs as [|kv kwargs IH]; intros acc Hne; simpl; [done|].
  rewrite IH by done. by apply out_edges_store_attribute_ne.
Qed.

Lemma out_edges_adj u g g' : adj g' = adj g → out_edges u g' = out_edges u g.
Proof. intros Hadj. unfold out_edges. by rewrite Hadj. Qed.

Lemma record_of_items mem_id g :
  tmm_items (record_of mem_id g) ≡ₚ (λ e, (e.2, e.1.2)) <$> out_edges mem_id g.
Proof.
  unfold tmm_items, record_of.
  by rewrite record_of_edges_Permutation, app_nil_r.
Qed.

Lemma kwargs_of_edges (mem_id : string) (kwargs : list (string * string)) :
  (λ e : string * string * string, (e.2, e.1.2))
    <$> ((λ kv : string * string, (mem_id, kv.2, kv.1)) <$> kwargs) = kwargs.
Proof.
  induction kwargs as [|[k v] kwargs IH]; [done|]. cbn. f_equal. exact IH.
Qed.

(** X10: a [store] that returns, over an activation function that leaves
    the edges alone, gives the identifier one more outgoing edge for every
    keyword argument and takes none away, leaves the outgoing edges of every
    other node as they are, and so extends the record of the identifier by
    the stored pairs. *)
Theorem store_adds_edges uuid mem_id kwargs self :
  (∀ g m a g', activation_fn self g m a = Ok g' → adj g' = adj g) →
  (store uuid mem_id kwargs self).1 = Ok true →
  let m := default (uuid self) mem_id in
  let self' := (store uuid mem_id kwargs self).2 in
  out_edges m (graph self')
    ≡ₚ out_edges m (graph self) ++ ((λ kv, (m, kv.2, kv.1)) <$> kwargs) ∧
  (∀ u, u ≠ m → out_edges u (graph self') = out_edges u (graph self)) ∧
  tmm_items (record_of m (graph self'))
    ≡ₚ tmm_items (record_of m (graph self)) ++ kwargs.
Proof.
  intros Hfn Hok m self'.
  assert (∃ g0, adj g0 = adj (graph self) ∧
            graph self' =
              (foldl (store_attribute m (getTime self) (getActivation self))
                     (g0, inverted_index self) kwargs).1) as (g0 & Hadj & Hg).
  { subst self'. revert Hok. unfold store. fold m. cbv zeta.
    destruct (graph_contains m (graph self)).
    - destruct (activation_fn self (graph self) m _) as [g|] eqn:Hact; [|done].
      intros _. exists g. split; [by eapply Hfn|done].
    - intros _. eexists. split; [|simpl; reflexivity]. done. }
  assert (out_edges m (graph self')
            ≡ₚ out_edges m (graph self) ++ ((λ kv, (m, kv.2, kv.1)) <$> kwargs))
    as Hedges.
  { rewrite Hg, store_loop_out_edges. simpl.
    by rewrite (out_edges_adj m (graph self) g0). }
  split; [done|]. split.
  - intros u Hu. rewrite Hg, store_loop_out_edges_ne by done. simpl.
    by apply out_edges_adj.
  - rewrite !record_of_items, Hedges, fmap_app. by rewrite kwargs_of_edges.
Qed.

(** X11: over an activation function that accepts the call and keeps the
    node and the edges, [store] returns [True] and a [retrieve] of the same
    identifier afterwards returns a record with the pairs the identifier had
    before and the pairs that were stored. *)
Theorem retrieve_returns_what_was_stored uuid (mem_id : string)
    (kwargs : list (string * string)) (self : t) :
  (∀ g a, is_Some (nodes g !! mem_id) →
     ∃ g', activation_fn self g mem_id a = Ok g' ∧ adj g' = adj g ∧
           is_Some (nodes g' !! mem_id)) →
  ∃ record self',
    (store uuid (Some mem_id) kwargs self).1 = Ok true ∧
    retrieve mem_id (store uuid (Some mem_id) kwargs self).2
      = (Ok (Some record), self') ∧
    tmm_items record
      ≡ₚ tmm_items (record_of mem_id (graph self)) ++ kwargs.
Proof.
  intros Hfn.
  set (now := getTime self). set (act := getActivation self).
  assert (∃ g0, adj g0 = adj (graph self) ∧ is_Some (nodes g0 !! mem_id) ∧
            store uuid (Some mem_id) kwargs self =
              (Ok true,
               pass_time 1
                 (with_inverted_index
                    (foldl (store_attribute mem_id now act)
                           (g0, inverted_index self) kwargs).2
                    (with_graph
                       (foldl (store_attribute mem_id now act)
                              (g0, inverted_index self) kwargs).1 self))))
    as (g0 & Hadj & Hnode & Hstore).
  { unfold store. simpl. unfold graph_contains.
    case_bool_decide as Hin.
    - destruct (Hfn (graph self) (now, act) Hin) as (g' & Hg' & Hadj & Hn).
      fold now act. rewrite Hg'. by exists g'.
    - eexists. split; [|split; [|done]]; simpl; [done|].
      rewrite lookup_insert_eq. by eexists. }
  rewrite Hstore. cbn [fst snd].
  set (g1 := (foldl (store_attribute mem_id now act)
                    (g0, inverted_index self) kwargs).1).
  assert (is_Some (nodes g1 !! mem_id)) as Hn1.
  { unfold g1. by rewrite store_loop_nodes. }
  assert (out_edges mem_id g1
            ≡ₚ out_edges mem_id (graph self)
                 ++ ((λ kv, (mem_id, kv.2, kv.1)) <$> kwargs)) as Hedges.
  { unfold g1. rewrite store_loop_out_edges. simpl.
    by rewrite (out_edges_adj mem_id (graph self) g0). }
  unfold retrieve, graph_contains. cbn [graph pass_time with_inverted_index with_graph].
  rewrite bool_decide_eq_true_2 by done.
  unfold _activate_and_return.
  cbn [activation_fn graph pass_time with_inverted_index with_graph].
  match goal with
  | |- context [activation_fn self g1 mem_id ?a] =>
      destruct (Hfn g1 a Hn1) as (g2 & -> & Hadj2 & _)
  end.
  eexists _, _. split; [done|]. split; [done|].
  rewrite !record_of_items, (out_edges_adj mem_id g1 g2) by done.
  rewrite Hedges, fmap_app. by rewrite kwargs_of_edges.
Qed.


(** *** The order of the matches *)

(** X12: when [query] returns a record and no two candidates tie, the
    cached matches are the candidates, each once, in strictly descending
    order of the activation histories they had before the query, and the
    record returned is the one of the first match. *)
Theorem query_ranks_by_activation set_iter attr_vals self record :
  (∀ X, set_iter X ≡ₚ elements X) →
  strictly_ranked (graph self) (candidates attr_vals self) →
  (query set_iter attr_vals self).1 = Ok (Some record) →
  ∃ results top,
    query_results (query set_iter attr_vals self).2 = Some results ∧
    NoDup results ∧
    (∀ c, c ∈ results ↔ c ∈ candidates attr_vals self) ∧
    results !! 0%nat = Some top ∧
    record = record_of top (graph (query set_iter attr_vals self).2) ∧
    ∀ (i j : nat) c c',
      (i < j)%nat → results !! i = Some c → results !! j = Some c' →
      ∃ h h', nodes (graph self) !! c = Some h ∧
              nodes (graph self) !! c' = Some h' ∧
              history_lt h' h = Ok true.
Proof.
  intros Hiter Hranked. unfold query.
  destruct (tmm_keys attr_vals); [done|]. cbv zeta.
  case_decide as Hc; [done|].
  set (X := candidates attr_vals self) in *.
  set (g := graph self) in *.
  destruct (sort_by_activation g (set_iter X)) as [results|] eqn:Hsort; [|done].
  destruct (py_getitem results 0) as [top|] eqn:Htop; [|done].
  apply py_getitem_Ok_lookup in Htop; [|done].
  match goal with
  | |- context [_activate_and_return ?m ?a ?s] =>
      pose proof (activate_and_return_cursor m a s) as [Hr' Hi'];
      unfold _activate_and_return in *;
      destruct (activation_fn s (graph s) m a) as [g'|e]
  end; [|done].
  cbn [fst snd fmap outcome_fmap] in *. intros [= <-].
  exists results, top. split; [done|].
  (* the sort *)
  revert Hsort. unfold sort_by_activation. rewrite with_keys_spec.
  case_decide as Hnodes; [|done]. cbn [mbind outcome_bind].
  set (f := λ c : string, (default [] (nodes g !! c), c)).
  destruct (py_sorted_reverse keyed_lt (f <$> set_iter X)) as [r|] eqn:Hr;
    [|done].
  cbn [mbind outcome_bind]. intros [= <-].
  assert (r.*2 ≡ₚ elements X) as Hperm.
  { apply py_sorted_reverse_Ok_Permutation in Hr. rewrite Hr, <-Hiter.
    rewrite <-list_fmap_compose. clear. generalize (set_iter X).
    induction l as [|c l IH]; [done|]. cbn. by constructor. }
  split; [rewrite Hperm; apply NoDup_elements|].
  split; [intros c; by rewrite Hperm, elem_of_elements|].
  split; [done|]. split; [done|].
  (* descending *)
  revert Hr. unfold py_sorted_reverse.
  destruct (py_sorted keyed_lt (reverse (f <$> set_iter X))) as [asc|] eqn:Hasc;
    [|done].
  cbn [fmap outcome_fmap]. intros [= <-].
  assert (Inj (=) (=) f) as Hinj by (by intros c c' [= _ ->]).
  assert (∀ p, p ∈ asc → ∃ c, p = f c ∧ c ∈ X) as Hasc_elem.
  { intros p Hp. apply py_sorted_Ok_Permutation in Hasc. rewrite Hasc in Hp.
    apply elem_of_reverse, list_elem_of_fmap in Hp as (c & -> & Hc').
    exists c. split; [done|]. by rewrite Hiter, elem_of_elements in Hc'. }
  assert (StronglySorted (λ x y, keyed_lt x y = Ok true) asc) as Hsorted.
  { apply (py_sorted_StronglySorted keyed_lt (λ p, ∃ c, p = f c ∧ c ∈ X))
      with (l := reverse (f <$> set_iter X)); try done.
    - (* defined *)
      intros x y (c & -> & Hcx) (c' & -> & Hcx'). unfold keyed_lt. simpl.
      destruct (decide (c = c')) as [->|Hne].
      { rewrite history_lt_irrefl. by eexists. }
      pose proof (Hranked c Hcx c' Hcx' Hne) as Hrk. unfold ranked in Hrk.
      fold g in Hrk.
      destruct (nodes g !! c) as [h|]; [|done].
      destruct (nodes g !! c') as [h'|]; [|done]. simpl.
      destruct Hrk as [Hrk|Hrk]; [by eexists|].
      apply history_lt_asym in Hrk. by eexists.
    - (* transitive *)
      intros x y z _ _ _. apply history_lt_trans.
    - (* total *)
      intros x y (c & -> & Hcx) (c' & -> & Hcx') Hne.
      assert (c ≠ c') as Hne' by congruence.
      pose proof (Hranked c Hcx c' Hcx' Hne') as Hrk. unfold ranked in Hrk.
      fold g in Hrk. unfold keyed_lt. simpl.
      destruct (nodes g !! c) as [h|]; [|done].
      by destruct (nodes g !! c') as [h'|].
    - apply Forall_forall. intros p Hp.
      apply elem_of_reverse, list_elem_of_fmap in Hp as (c & -> & Hc').
      exists c. split; [done|]. by rewrite Hiter, elem_of_elements in Hc'.
    - rewrite reverse_Permutation. apply NoDup_fmap_2; [done|].
      rewrite Hiter. apply NoDup_elements. }
  intros i j c c' Hij Hi Hj.
  rewrite list_lookup_fmap in Hi, Hj.
  destruct (reverse asc !! i) as [[h c0]|] eqn:Hi0; [|done].
  destruct (reverse asc !! j) as [[h' c0']|] eqn:Hj0; [|done].
  simpl in Hi, Hj. injection Hi as ->. injection Hj as ->.
  pose proof (lookup_lt_Some _ _ _ Hi0) as Hli.
  pose proof (lookup_lt_Some _ _ _ Hj0) as Hlj.
  rewrite length_reverse in Hli, Hlj.
  rewrite reverse_lookup in Hi0, Hj0 by done.
  pose proof (StronglySorted_lookup_lt _ asc Hsorted
                (length asc - S j)%nat (length asc - S i)%nat _ _
                ltac:(lia) Hj0 Hi0) as Hlt.
  destruct (Hasc_elem (h, c)) as (c1 & [= -> ->] & Hc1);
    [by eapply list_elem_of_lookup_2|].
  destruct (Hasc_elem (h', c')) as (c2 & [= -> ->] & Hc2);
    [by eapply list_elem_of_lookup_2|].
  unfold keyed_lt in Hlt. simpl in Hlt.
  rewrite Forall_forall in Hnodes.
  destruct (Hnodes c1) as [h1 Hh1]; [by rewrite Hiter, elem_of_elements|].
  destruct (Hnodes c2) as [h2 Hh2]; [by rewrite Hiter, elem_of_elements|].
  rewrite Hh1, Hh2 in Hlt. simpl in Hlt. by exists h1, h2.
Qed.

(** *** Moves the flags do not offer *)

(** X13: [prev_result] on the first match, which [has_prev_result] does
    not offer, moves the cursor to index -1 and activates the last match:
    the record it returns, when the activation function returns, is the one
    of the last match. *)
Theorem prev_result_before_the_first_match results self :
  cursor_at results 0 self →
  has_prev_result self = Ok false ∧
  result_index (prev_result self).2 = Some (-1) ∧
  ∃ node, last results = Some node ∧
    ∀ record, (prev_result self).1 = Ok record →
      record = record_of node (graph (prev_result self).2).
Proof.
  intros (Hr & Hi & Hrange).
  split; [unfold has_prev_result; by rewrite Hr, Hi|].
  unfold prev_result, move. rewrite Hi, Hr.
  assert (∃ node, last results = Some node ∧
            py_getitem results (0 + -1) = Ok node) as (node & Hlast & ->).
  { destruct (last results) as [node|] eqn:Hlast.
    - exists node. split; [done|]. by apply py_getitem_last.
    - apply last_None in Hlast. subst. simpl in Hrange. lia. }
  match goal with
  | |- context [_activate_and_return ?m ?a ?s] =>
      pose proof (activate_and_return_cursor m a s) as [Hr' Hi'];
      unfold _activate_and_return in *;
      destruct (activation_fn s (graph s) m a) as [g|e]
  end.
  - split; [done|]. exists node. split; [done|]. by intros ? [= <-].
  - split; [done|]. exists node. split; [done|]. done.
Qed.

(** X14: [next_result] on the last match, which [has_next_result] does not
    offer, raises [IndexError] and leaves the cursor one past the end of the
    matches, where [has_prev_result] is true. *)
Theorem next_result_after_the_last_match results self :
  cursor_at results (Z.of_nat (length results) - 1) self →
  has_next_result self = Ok false ∧
  next_result self =
    (Raise IndexError,
     with_cursor (Some results) (Some (Z.of_nat (length results))) self) ∧
  has_prev_result (next_result self).2 = Ok true.
Proof.
  intros (Hr & Hi & Hrange).
  assert (next_result self =
            (Raise IndexError,
             with_cursor (Some results) (Some (Z.of_nat (length results))) self))
    as Hnext.
  { unfold next_result, move. rewrite Hi, Hr.
    replace (Z.of_nat (length results) - 1 + 1)
      with (Z.of_nat (length results)) by lia.
    unfold py_getitem. cbv zeta.
    destruct (Z.ltb_spec (Z.of_nat (length results)) 0); [lia|].
    by rewrite Z.ltb_irrefl, andb_false_r. }
  split; [unfold has_next_result; rewrite Hr, Hi; by rewrite Z.ltb_irrefl|].
  split; [done|]. rewrite Hnext. unfold has_prev_result. simpl. f_equal.
  apply Z.ltb_lt. lia.
Qed.

(** *** Instances *)

Lemma append_activation_fn_keeps_edges g m a g' :
  append_activation_fn g m a = Ok g' →
  adj g' = adj g ∧ (is_Some (nodes g !! m) → is_Some (nodes g' !! m)).
Proof.
  unfold append_activation_fn. destruct (nodes g !! m); [|done].
  intros [= <-]. split; [done|]. intros _. simpl. rewrite lookup_insert_eq.
  by eexists.
Qed.

Lemma paired_store_reachable :
  reachable example_uuid elements (Some append_activation_fn) paired_store.
Proof.
  unfold paired_store, pair_store.
  apply reachable_query. repeat apply reachable_store. apply reachable_init.
Qed.

Lemma query_without_match_clears_cursor_witness :
  (query elements [("k", "w")] paired_store).1 = Ok None ∧
  let self' := (query elements [("k", "w")] paired_store).2 in
  candidates [("k", "w")] paired_store = ∅ ∧
  self' = with_cursor None None
            (with_inverted_index (touched_index [("k", "w")] paired_store)
               paired_store) ∧
  has_prev_result self' = Ok false ∧
  has_next_result self' = Ok false ∧
  prev_result self' = (Raise TypeError, self') ∧
  next_result self' = (Raise TypeError, self').
Proof.
  assert ((query elements [("k", "w")] paired_store).1 = Ok None) as Hq
    by (by vm_compute).
  split; [exact Hq|].
  exact (query_without_match_clears_cursor elements [("k", "w")] paired_store Hq).
Defined.

Lemma reachable_cursor_flags_defined_witness :
  reachable example_uuid elements (Some append_activation_fn) paired_store ∧
  (query_results paired_store = None ↔ result_index paired_store = None) ∧
  (∃ b, has_prev_result paired_store = Ok b) ∧
  (∃ b, has_next_result paired_store = Ok b).
Proof.
  split; [exact paired_store_reachable|].
  exact (reachable_cursor_flags_defined example_uuid elements
           (Some append_activation_fn) paired_store paired_store_reachable).
Defined.

Lemma reachable_query_candidates_witness :
  (∀ g m a g',
     default default_activation_fn (Some append_activation_fn) g m a = Ok g' →
     adj g' = adj g) ∧
  reachable example_uuid elements (Some append_activation_fn) paired_store ∧
  tmm_keys [("k", "v")] ≠ [] ∧
  ("a" ∈ candidates [("k", "v")] paired_store ↔
   ∀ a v, (a, v) ∈ tmm_items [("k", "v")] →
     ∃ keys, get_edge_data "a" v (graph paired_store) = Some (a :: keys)).
Proof.
  assert (∀ g m a g',
            default default_activation_fn (Some append_activation_fn) g m a
              = Ok g' → adj g' = adj g) as Hfn.
  { intros g m a g' Hg. by apply append_activation_fn_keeps_edges in Hg as [? _]. }
  assert (tmm_keys [("k", "v")] ≠ []) as Hne by done.
  split; [exact Hfn|]. split; [exact paired_store_reachable|].
  split; [exact Hne|].
  exact (reachable_query_candidates example_uuid elements
           (Some append_activation_fn) [("k", "v")] paired_store "a"
           Hfn paired_store_reachable Hne).
Defined.

Lemma store_adds_edges_witness :
  let kwargs := [("colour", "red")] in
  (∀ g m a g', activation_fn pair_store g m a = Ok g' → adj g' = adj g) ∧
  (store example_uuid (Some "a") kwargs pair_store).1 = Ok true ∧
  let self' := (store example_uuid (Some "a") kwargs pair_store).2 in
  out_edges "a" (graph self')
    ≡ₚ out_edges "a" (graph pair_store)
         ++ ((λ kv, ("a", kv.2, kv.1)) <$> kwargs) ∧
  (∀ u, u ≠ "a" → out_edges u (graph self') = out_edges u (graph pair_store)) ∧
  tmm_items (record_of "a" (graph self'))
    ≡ₚ tmm_items (record_of "a" (graph pair_store)) ++ kwargs.
Proof.
  intros kwargs.
  assert (∀ g m a g', activation_fn pair_store g m a = Ok g' → adj g' = adj g)
    as Hfn.
  { intros g m a g' Hg. by apply append_activation_fn_keeps_edges in Hg as [? _]. }
  assert ((store example_uuid (Some "a") kwargs pair_store).1 = Ok true) as Hok
    by (by vm_compute).
  split; [exact Hfn|]. split; [exact Hok|].
  exact (store_adds_edges example_uuid (Some "a") kwargs pair_store Hfn Hok).
Defined.

Lemma retrieve_returns_what_was_stored_witness :
  let kwargs := [("colour", "red")] in
  (∀ g a, is_Some (nodes g !! "a") →
     ∃ g', activation_fn pair_store g "a" a = Ok g' ∧ adj g' = adj g ∧
           is_Some (nodes g' !! "a")) ∧
  ∃ record self',
    (store example_uuid (Some "a") kwargs pair_store).1 = Ok true ∧
    retrieve "a" (store example_uuid (Some "a") kwargs pair_store).2
      = (Ok (Some record), self') ∧
    tmm_items record
      ≡ₚ tmm_items (record_of "a" (graph pair_store)) ++ kwargs.
Proof.
  intros kwargs.
  assert (∀ g a, is_Some (nodes g !! "a") →
            ∃ g', activation_fn pair_store g "a" a = Ok g' ∧ adj g' = adj g ∧
                  is_Some (nodes g' !! "a")) as Hfn.
  { intros g a Hn.
    change (activation_fn pair_store) with append_activation_fn.
    destruct (append_activation_fn g "a" a) as [g'|] eqn:Hg.
    - apply append_activation_fn_keeps_edges in Hg as [? Hn'].
      exists g'. split; [done|]. split; [done|]. by apply Hn'.
    - unfold append_activation_fn in Hg. destruct Hn as [h Hh].
      by rewrite Hh in Hg. }
  split; [exact Hfn|].
  exact (retrieve_returns_what_was_stored example_uuid "a" kwargs pair_store Hfn).
Defined.

Lemma query_ranks_by_activation_witness :
  (∀ X : gset string, elements X ≡ₚ elements X) ∧
  strictly_ranked (graph pair_store) (candidates [("k", "v")] pair_store) ∧
  (query elements [("k", "v")] pair_store).1
    = Ok (Some [("k", "v"); ("name", "beta")]) ∧
  ∃ results top,
    query_results (query elements [("k", "v")] pair_store).2 = Some results ∧
    NoDup results ∧
    (∀ c, c ∈ results ↔ c ∈ candidates [("k", "v")] pair_store) ∧
    results !! 0%nat = Some top ∧
    [("k", "v"); ("name", "beta")]
      = record_of top (graph (query elements [("k", "v")] pair_store).2) ∧
    ∀ (i j : nat) c c',
      (i < j)%nat → results !! i = Some c → results !! j = Some c' →
      ∃ h h', nodes (graph pair_store) !! c = Some h ∧
              nodes (graph pair_store) !! c' = Some h' ∧
              history_lt h' h = Ok true.
Proof.
  assert (strictly_ranked (graph pair_store) (candidates [("k", "v")] pair_store))
    as Hranked by (apply (bool_decide_unpack _); by vm_compute).
  assert ((query elements [("k", "v")] pair_store).1
            = Ok (Some [("k", "v"); ("name", "beta")])) as Hq
    by (by vm_compute).
  split; [done|]. split; [exact Hranked|]. split; [exact Hq|].
  exact (query_ranks_by_activation elements [("k", "v")] pair_store _
           (λ X, reflexivity (elements X)) Hranked Hq).
Defined.

Lemma prev_result_before_the_first_match_witness :
  cursor_at ["b"; "a"] 0 paired_store ∧
  has_prev_result paired_store = Ok false ∧
  result_index (prev_result paired_store).2 = Some (-1) ∧
  ∃ node, last ["b"; "a"] = Some node ∧
    ∀ record, (prev_result paired_store).1 = Ok record →
      record = record_of node (graph (prev_result paired_store).2).
Proof.
  assert (cursor_at ["b"; "a"] 0 paired_store) as Hc.
  { split; [by vm_compute|]. split; [by vm_compute|]. simpl. lia. }
  split; [exact Hc|].
  exact (prev_result_before_the_first_match ["b"; "a"] paired_store Hc).
Defined.

Lemma next_result_after_the_last_match_witness :
  let self := (next_result paired_store).2 in
  cursor_at ["b"; "a"] (Z.of_nat (length ["b"; "a"]) - 1) self ∧
  has_next_result self = Ok false ∧
  next_result self =
    (Raise IndexError,
     with_cursor (Some ["b"; "a"]) (Some (Z.of_nat (length ["b"; "a"]))) self) ∧
  has_prev_result (next_result self).2 = Ok true.
Proof.
  intros self.
  assert (cursor_at ["b"; "a"] (Z.of_nat (length ["b"; "a"]) - 1) self) as Hc.
  { split; [by vm_compute|]. split; [by vm_compute|]. simpl. lia. }
  split; [exact Hc|].
  exact (next_result_after_the_last_match ["b"; "a"] self Hc).
Defined.

End NetworkXKBFacts.

(** ** The store over a SPARQL endpoint *)

(** A [retrieve] that returns resets the cursor of this store. *)
Lemma sparql_retrieve_resets_cursor
    (_true_retrieve : string → outcome (gmap string string))
    (mem_id : string) (self self' : SparqlKB.t) (result : TreeMultiMap) :
  SparqlKB.retrieve _true_retrieve mem_id self = (Ok result, self') →
  SparqlKB.prev_query self' = None ∧
  SparqlKB.query_offset self' = 0 ∧
  SparqlKB.has_prev_result self' = false ∧
  SparqlKB.has_next_result self' = false.
Proof.
  unfold SparqlKB.retrieve. destruct (negb _); [done|].
  match goal with
  | |- context [match ?c with Ok _ => _ | Raise _ => _ end] =>
      destruct c as [cache|]; [|done]
  end.
  destruct (cache !! mem_id); [|done]. by intros [= _ <-].
Qed.


Module SparqlKBFacts.
Import SparqlKB.

(** *** [retrieve] *)

Lemma retrieve_Ok_inv (src : string → outcome (gmap string string))
    (mem_id : string) (self self' : t) (result : TreeMultiMap) :
  retrieve src mem_id self = (Ok result, self') →
  String.prefix "<http" mem_id = true ∧ py_endswith mem_id ">" = true ∧
  retrieve_cache self' !! mem_id = Some result ∧
  self' = mk (augments self) None 0 (retrieve_cache self') (query_cache self) ∧
  (∀ k r, retrieve_cache self !! k = Some r → retrieve_cache self' !! k = Some r).
Proof.
  unfold retrieve. cbv zeta.
  destruct (String.prefix "<http" mem_id); [|done].
  destruct (py_endswith mem_id ">"); [|done]. cbn [andb negb].
  destruct (retrieve_cache self !! mem_id) as [cached|] eqn:Hcache.
  - rewrite Hcache. intros [= <- <-]. by repeat split.
  - destruct (src mem_id) as [d|]; [|done]. cbn [mbind outcome_bind].
    rewrite lookup_insert_eq. intros [= <- <-]. cbn [retrieve_cache].
    repeat split; try done.
    + apply lookup_insert_eq.
    + intros k r Hk. rewrite lookup_insert_ne; [done|]. intros ->. congruence.
Qed.

Lemma retrieve_cache_hit (src : string → outcome (gmap string string))
    (mem_id : string) (self : t) (result : TreeMultiMap) :
  String.prefix "<http" mem_id = true → py_endswith mem_id ">" = true →
  retrieve_cache self !! mem_id = Some result →
  retrieve src mem_id self =
    (Ok result,
     mk (augments self) None 0 (retrieve_cache self) (query_cache self)).
Proof.
  intros Hp He Hc. unfold retrieve. cbv zeta. rewrite Hp, He. cbn [andb negb].
  by rewrite Hc, Hc.
Qed.

(** X15: a string that starts with [<http] and does not end with [>] is
    retrievable according to [retrievable], and [retrieve] rejects it with
    [ValueError], whatever the source, and changes nothing. *)
Theorem retrievable_ids_can_be_rejected (mem_id : string) :
  retrievable mem_id = true → py_endswith mem_id ">" = false →
  ∀ (src : string → outcome (gmap string string)) (self : t),
    retrieve src mem_id self = (Raise ValueError, self).
Proof.
  intros _ He src self. unfold retrieve. cbv zeta.
  by rewrite He, andb_false_r.
Qed.

(** X16: a [retrieve] that returns has taken a retrievable identifier,
    holds its result in the cache and has left the cache of queries alone;
    the same [retrieve] again returns the same record and leaves the store
    as it is, whatever the source would answer. *)
Theorem retrieve_answers_from_the_cache
    (src : string → outcome (gmap string string))
    (mem_id : string) (self self' : t) (result : TreeMultiMap) :
  retrieve src mem_id self = (Ok result, self') →
  retrievable mem_id = true ∧
  retrieve_cache self' !! mem_id = Some result ∧
  query_cache self' = query_cache self ∧
  ∀ src', retrieve src' mem_id self' = (Ok result, self').
Proof.
  intros (Hp & He & Hc & Hs & _)%retrieve_Ok_inv.
  split; [done|]. split; [done|]. split; [by rewrite Hs|].
  intros src'. rewrite (retrieve_cache_hit src' mem_id self' result) by done.
  f_equal. destruct self'; simpl in *. congruence.
Qed.

(** *** [query] and the cursor *)

Section endpoint.
Variable query_sparql : string → outcome (list (gmap string string)).

Lemma query_Ok_inv (attr_vals : TreeMultiMap) (self self' : t)
    (result : TreeMultiMap) :
  query query_sparql attr_vals self = (Ok result, self') →
  ∃ query_terms mem_id,
    py_sorted (λ a b, Ok (item_ltb a b)) (tmm_items attr_vals) = Ok query_terms ∧
    query_cache self' !! query_terms = Some mem_id ∧
    prev_query self' = None ∧ query_offset self' = 0 ∧
    augments self' = augments self ∧
    match mem_id with
    | None => result = tmm_empty ∧ retrieve_cache self' = retrieve_cache self
    | Some id =>
        String.prefix "<http" id = true ∧ py_endswith id ">" = true ∧
        retrieve_cache self' !! id = Some result
    end.
Proof.
  unfold query.
  destruct (py_sorted _ _) as [query_terms|]; [|done]. cbv zeta.
  set (cache := match query_cache self !! query_terms with
                | Some _ => _ | None => _ end).
  destruct cache as [cache|]; [|done].
  destruct (cache !! query_terms) as [[id|]|] eqn:Hterms; [| |done].
  - intros (Hp & He & Hc & Hs & _)%retrieve_Ok_inv.
    exists query_terms, (Some id). rewrite Hs. simpl. by rewrite Hc.
  - intros [= <- <-]. by exists query_terms, None.
Qed.

(** X17: after a [query] that returns there is no previous query and the
    offset is 0: [has_prev_result] and [has_next_result] are false, and
    [prev_result] and [next_result] return [None] and change nothing. *)
Theorem query_leaves_no_cursor (attr_vals : TreeMultiMap) (self self' : t)
    (result : TreeMultiMap) :
  query query_sparql attr_vals self = (Ok result, self') →
  prev_query self' = None ∧
  query_offset self' = 0 ∧
  has_prev_result self' = false ∧
  has_next_result self' = false ∧
  prev_result query_sparql self' = (Ok None, self') ∧
  next_result query_sparql self' = (Ok None, self').
Proof.
  intros (terms & mem_id & _ & _ & Hp & Ho & _)%query_Ok_inv.
  unfold has_prev_result, has_next_result, prev_result, next_result.
  by rewrite Hp, Ho.
Qed.

(** X18: a [query] that returned is answered from the caches when it is
    made again: it returns the same record and leaves the store as it is,
    whatever the endpoint would answer. *)
Theorem query_answers_from_the_cache (attr_vals : TreeMultiMap)
    (self self' : t) (result : TreeMultiMap) :
  query query_sparql attr_vals self = (Ok result, self') →
  ∀ query_sparql', query query_sparql' attr_vals self' = (Ok result, self').
Proof.
  intros Hq query_sparql'.
  destruct (query_Ok_inv _ _ _ _ Hq)
    as (terms & mem_id & Hterms & Hcache & Hp & Ho & _ & Hres).
  unfold query. rewrite Hterms. cbv zeta. rewrite Hcache, Hcache.
  destruct mem_id as [id|].
  - destruct Hres as (Hpre & Hend & Hrc).
    rewrite (retrieve_cache_hit _ id _ result) by done. simpl.
    f_equal. destruct self'; simpl in *. congruence.
  - destruct Hres as [-> _]. f_equal. destruct self'; simpl in *. congruence.
Qed.
End endpoint.

(** *** [_true_retrieve] *)

Lemma add_binding_spec (result : gmap string (gset string))
    (binding : gmap string string) (attr val : string) :
  binding !! "attr" = Some attr → binding !! "value" = Some val →
  ∃ result', add_binding result binding = Ok result' ∧
    (∀ a v, v ∈ default ∅ (result' !! a) ↔
       v ∈ default ∅ (result !! a) ∨ (a = attr ∧ v = val ∧ val ∉ BAD_VALUES)) ∧
    ((∀ a vals, result !! a = Some vals → vals ≠ ∅) →
     (∀ a vals, result' !! a = Some vals → vals ≠ ∅)).
Proof.
  intros Ha Hv. unfold add_binding. rewrite Hv, Ha.
  destruct (bool_decide (val ∈ BAD_VALUES)) eqn:Hbad.
  - apply bool_decide_eq_true in Hbad.
    eexists. split; [done|]. split; [|done]. intros a v.
    split; [by left|]. by intros [?|(_ & _ & ?)].
  - apply bool_decide_eq_false in Hbad.
    eexists. split; [done|]. split.
    + intros a v. destruct (decide (attr = a)) as [->|Hne].
      * rewrite lookup_insert_eq. simpl. rewrite elem_of_union, elem_of_singleton.
        split.
        -- intros [->|?]; [by right|by left].
        -- intros [?|(_ & -> & _)]; [by right|by left].
      * rewrite lookup_insert_ne by done.
        split; [by left|]. intros [?|(-> & _)]; done.
    + intros Hne a vals. destruct (decide (attr = a)) as [->|Hna].
      * rewrite lookup_insert_eq. intros [= <-]. set_solver.
      * rewrite lookup_insert_ne by done. apply Hne.
Qed.

Lemma group_bindings_spec (bindings : list (gmap string string)) :
  ∀ result0 : gmap string (gset string),
  Forall (λ b, is_Some (b !! "attr") ∧ is_Some (b !! "value")) bindings →
  ∃ result,
    foldl (λ acc binding, result ← acc; add_binding result binding)
          (Ok result0) bindings = Ok result ∧
    (∀ a v, v ∈ default ∅ (result !! a) ↔
       v ∈ default ∅ (result0 !! a) ∨
       ((v ∉ BAD_VALUES) ∧
        ∃ b, b ∈ bindings ∧ b !! "attr" = Some a ∧ b !! "value" = Some v)) ∧
    ((∀ a vals, result0 !! a = Some vals → vals ≠ ∅) →
     (∀ a vals, result !! a = Some vals → vals ≠ ∅)).
Proof.
  induction bindings as [|b bindings IH]; intros result0 Hall; simpl.
  { exists result0. split; [done|]. split; [|done]. intros a v. split; [by left|].
    intros [?|(_ & b & Hb & _)]; [done|]. by apply elem_of_nil in Hb. }
  apply Forall_cons in Hall as [[[attr Ha] [val Hv]] Hall].
  destruct (add_binding_spec result0 b attr val Ha Hv) as (r1 & -> & H1 & Hne1).
  destruct (IH r1 Hall) as (r & -> & Hr & Hne).
  exists r. split; [done|]. split; [|intros H0; by apply Hne, Hne1].
  intros a v. rewrite Hr, H1. split.
  - intros [[?|(-> & -> & Hbad)]|(Hbad & b' & Hb' & ? & ?)].
    + by left.
    + right. split; [done|]. exists b. split; [by left|done].
    + right. split; [done|]. exists b'. split; [by right|done].
  - intros [?|(Hbad & b' & [->|Hb']%elem_of_cons & Ha' & Hv')].
    + left. by left.
    + left. right. rewrite Ha in Ha'. rewrite Hv in Hv'. by simplify_eq.
    + right. split; [done|]. by exists b'.
Qed.

(** X19: when the endpoint answers the query of [_true_retrieve] with
    bindings that all have an attribute and a value, [_true_retrieve]
    returns a dictionary that holds, for an attribute, the largest of the
    values bound to it that are not in [BAD_VALUES], and holds nothing
    else. *)
Theorem true_retrieve_keeps_the_largest_values
    (query_sparql : string → outcome (list (gmap string string)))
    (mem_id : string) (bindings : list (gmap string string)) :
  query_sparql (retrieve_text mem_id) = Ok bindings →
  Forall (λ b, is_Some (b !! "attr") ∧ is_Some (b !! "value")) bindings →
  ∃ result,
    _true_retrieve query_sparql mem_id = Ok result ∧
    ∀ attr val,
      result !! attr = Some val ↔
      (val ∉ BAD_VALUES) ∧
      (∃ b, b ∈ bindings ∧ b !! "attr" = Some attr ∧ b !! "value" = Some val) ∧
      ∀ b val', b ∈ bindings → b !! "attr" = Some attr →
        b !! "value" = Some val' → val' ∉ BAD_VALUES →
        String.ltb val val' = false.
Proof.
  intros Hq Hall. unfold _true_retrieve. cbv zeta. rewrite Hq.
  cbn [mbind outcome_bind].
  destruct (group_bindings_spec bindings ∅ Hall) as (grouped & -> & Hg & Hne).
  cbn [mbind outcome_bind].
  assert (∀ a vals, grouped !! a = Some vals → vals ≠ ∅) as Hne'.
  { apply Hne. intros a vals. by rewrite lookup_empty. }
  assert (∀ a vals, grouped !! a = Some vals →
            ∃ m, py_max (elements vals) = Ok m ∧ m ∈ vals ∧
                 ∀ y, y ∈ vals → String.ltb m y = false) as Hmax.
  { intros a vals Hvals. destruct (py_max_spec (elements vals)) as (m & Hm & Hin & Hge).
    - intros Hnil. apply elements_empty_inv in Hnil.
      apply (Hne' a vals Hvals). by apply leibniz_equiv.
    - exists m. split; [done|]. split; [by apply elem_of_elements|].
      intros y Hy. apply Hge. by apply elem_of_elements. }
  destruct (dict_mapM_spec (λ vals : gset string, py_max (elements vals)) grouped)
    as (result & -> & Hres).
  { intros k vals Hk. destruct (Hmax k vals Hk) as (m & Hm & _). by exists m. }
  exists result. split; [done|]. intros attr val. rewrite Hres.
  assert (∀ v, v ∈ default ∅ (grouped !! attr) ↔
            (v ∉ BAD_VALUES) ∧
            ∃ b, b ∈ bindings ∧ b !! "attr" = Some attr ∧ b !! "value" = Some v)
    as Hg'.
  { intros v. rewrite Hg, lookup_empty. simpl.
    split; [|by right]. intros [Hv|Hv]; [|done].
    by apply not_elem_of_empty in Hv. }
  destruct (grouped !! attr) as [vals|] eqn:Hvals; simpl in *.
  - destruct (Hmax attr vals Hvals) as (m & -> & Hin & Hge). split.
    + intros [= <-]. apply Hg' in Hin as [Hbad Hb].
      split; [done|]. split; [done|].
      intros b val' Hb' Ha' Hv' Hbad'. apply Hge, Hg'. split; [done|].
      by exists b.
    + intros (Hbad & Hb & Hlargest). f_equal.
      assert (val ∈ vals) as Hval by (by apply Hg').
      apply string_ltb_total; [by apply Hge|].
      apply Hg' in Hin as (Hbad' & b & Hb' & Ha' & Hv').
      by apply (Hlargest b m).
  - split; [done|]. intros (Hbad & Hb & _).
    assert (val ∈ (∅ : gset string)) as Hval by (by apply Hg').
    by apply not_elem_of_empty in Hval.
Qed.

(** *** Instances *)

Lemma retrievable_ids_can_be_rejected_witness :
  retrievable "<http://example.org/The_Wall" = true ∧
  py_endswith "<http://example.org/The_Wall" ">" = false ∧
  ∀ (src : string → outcome (gmap string string)) (self : t),
    retrieve src "<http://example.org/The_Wall" self = (Raise ValueError, self).
Proof.
  split; [reflexivity|]. split; [reflexivity|].
  exact (retrievable_ids_can_be_rejected "<http://example.org/The_Wall"
           eq_refl eq_refl).
Defined.

Lemma retrieve_answers_from_the_cache_witness :
  let src := _true_retrieve example_endpoint in
  let result := [("<http://example.org/label>", "<http://example.org/b>")] in
  let self' := (retrieve src example_resource (init None)).2 in
  retrieve src example_resource (init None) = (Ok result, self') ∧
  retrievable example_resource = true ∧
  retrieve_cache self' !! example_resource = Some result ∧
  query_cache self' = query_cache (init None) ∧
  ∀ src', retrieve src' example_resource self' = (Ok result, self').
Proof.
  intros src result self'.
  assert (retrieve src example_resource (init None) = (Ok result, self')) as Hr
    by (by vm_compute).
  split; [exact Hr|].
  exact (retrieve_answers_from_the_cache src example_resource (init None) self'
           result Hr).
Defined.

Lemma query_leaves_no_cursor_witness :
  let attr_vals := [("<http://example.org/label>", "<http://example.org/b>")] in
  let result := [("<http://example.org/label>", "<http://example.org/b>")] in
  let self' := (query example_endpoint attr_vals (init None)).2 in
  query example_endpoint attr_vals (init None) = (Ok result, self') ∧
  prev_query self' = None ∧
  query_offset self' = 0 ∧
  has_prev_result self' = false ∧
  has_next_result self' = false ∧
  prev_result example_endpoint self' = (Ok None, self') ∧
  next_result example_endpoint self' = (Ok None, self').
Proof.
  intros attr_vals result self'.
  assert (query example_endpoint attr_vals (init None) = (Ok result, self'))
    as Hq by (by vm_compute).
  split; [exact Hq|].
  exact (query_leaves_no_cursor example_endpoint attr_vals (init None) self'
           result Hq).
Defined.

Lemma query_answers_from_the_cache_witness :
  let attr_vals := [("<http://example.org/label>", "<http://example.org/b>")] in
  let result := [("<http://example.org/label>", "<http://example.org/b>")] in
  let self' := (query example_endpoint attr_vals (init None)).2 in
  query example_endpoint attr_vals (init None) = (Ok result, self') ∧
  ∀ query_sparql', query query_sparql' attr_vals self' = (Ok result, self').
Proof.
  intros attr_vals result self'.
  assert (query example_endpoint attr_vals (init None) = (Ok result, self'))
    as Hq by (by vm_compute).
  split; [exact Hq|].
  exact (query_answers_from_the_cache example_endpoint attr_vals (init None)
           self' result Hq).
Defined.

Lemma true_retrieve_keeps_the_largest_values_witness :
  example_endpoint (retrieve_text example_resource) = Ok example_bindings ∧
  Forall (λ b, is_Some (b !! "attr") ∧ is_Some (b !! "value")) example_bindings ∧
  ∃ result,
    _true_retrieve example_endpoint example_resource = Ok result ∧
    ∀ attr val,
      result !! attr = Some val ↔
      (val ∉ BAD_VALUES) ∧
      (∃ b, b ∈ example_bindings ∧ b !! "attr" = Some attr
            ∧ b !! "value" = Some val) ∧
      ∀ b val', b ∈ example_bindings → b !! "attr" = Some attr →
        b !! "value" = Some val' → val' ∉ BAD_VALUES →
        String.ltb val val' = false.
Proof.
  assert (example_endpoint (retrieve_text example_resource) = Ok example_bindings)
    as Hq by (by vm_compute).
  assert (Forall (λ b, is_Some (b !! "attr") ∧ is_Some (b !! "value"))
            example_bindings) as Hall.
  { unfold example_bindings.
    repeat (apply Forall_cons; split;
            [split; apply (bool_decide_unpack _); by vm_compute|]).
    by apply Forall_nil. }
  split; [exact Hq|]. split; [exact Hall|].
  exact (true_retrieve_keeps_the_largest_values example_endpoint
           example_resource example_bindings Hq Hall).
Defined.

Example true_retrieve_example :
  _true_retrieve example_endpoint example_resource
    = Ok {[ "<http://example.org/label>" := "<http://example.org/b>" ]}.
Proof. by vm_compute. Qed.
End SparqlKBFacts.

(** ** The two stores side by side *)

(** C4: after a query that returned a record,
    - on the graph store [has_prev_result] is false exactly on the first
      match and [has_next_result] exactly on the last, the moves that these
      two allow keep the cursor among the cached matches, and [next_result]
      goes through the matches in ranking order, each once;
    - on the naive store [has_prev_result] and [has_next_result] are true
      wherever the cursor stands, every move lands on the index taken
      modulo the number of matches, and as many calls of [next_result] as
      there are matches return each match once, cyclically in sorted order,
      and bring the cursor back to where it was. *)
Theorem cursor_navigation
    (set_iter : gset string → list string) (attr_vals : TreeMultiMap)
    (graph_kb : NetworkXKB.t) (record : TreeMultiMap)
    (tmm_lt : TreeMultiMap → TreeMultiMap → bool) (naive_attr_vals : TreeMultiMap)
    (naive_kb : NaiveDictKB.t) (naive_record : TreeMultiMap) :
  (NetworkXKB.query set_iter attr_vals graph_kb).1 = Ok (Some record) →
  NaiveDictKB.wf naive_kb →
  (NaiveDictKB.query tmm_lt naive_attr_vals naive_kb).1 = Ok (Some naive_record) →
  (∃ results,
     NetworkXKB.cursor_at results 0 (NetworkXKB.query set_iter attr_vals graph_kb).2 ∧
     ∀ k : nat, (k < length results)%nat →
       let self_k :=
         NetworkXKB.after_next k (NetworkXKB.query set_iter attr_vals graph_kb).2 in
       NetworkXKB.cursor_at results (Z.of_nat k) self_k ∧
       NetworkXKB.has_prev_result self_k = Ok (bool_decide (0 < k)%nat) ∧
       NetworkXKB.has_next_result self_k
         = Ok (bool_decide (k < length results - 1)%nat) ∧
       ((0 < k)%nat →
          NetworkXKB.cursor_at results (Z.of_nat k - 1)
            (NetworkXKB.prev_result self_k).2) ∧
       ((k < length results - 1)%nat →
          NetworkXKB.cursor_at results (Z.of_nat k + 1)
            (NetworkXKB.next_result self_k).2 ∧
          ∃ node, results !! S k = Some node ∧
            ∀ r, (NetworkXKB.next_result self_k).1 = Ok r →
              r = NetworkXKB.record_of node
                    (NetworkXKB.graph (NetworkXKB.next_result self_k).2)))
  ∧
  (let self' := (NaiveDictKB.query tmm_lt naive_attr_vals naive_kb).2 in
   let m := NaiveDictKB.query_matches self' in
   ∃ i : Z,
     NaiveDictKB.query_index self' = Some i ∧
     0 ≤ i < Z.of_nat (length m) ∧
     m !! Z.to_nat i = Some naive_record ∧
     (∀ s, NaiveDictKB.has_prev_result s = true
           ∧ NaiveDictKB.has_next_result s = true) ∧
     (∀ step, ∃ x,
        m !! Z.to_nat ((i + step) `mod` Z.of_nat (length m)) = Some x ∧
        NaiveDictKB.move step self' =
          (Ok x,
           {| NaiveDictKB.knowledge := NaiveDictKB.knowledge self';
              NaiveDictKB.query_index :=
                Some ((i + step) `mod` Z.of_nat (length m));
              NaiveDictKB.query_matches := m |})) ∧
     NaiveDictKB.next_results (length m) self' =
       (Ok <$> (drop (Z.to_nat (i + 1)) m ++ take (Z.to_nat (i + 1)) m), self') ∧
     drop (Z.to_nat (i + 1)) m ++ take (Z.to_nat (i + 1)) m ≡ₚ m).
Proof.
  intros Hgraph Hwf Hnaive. split.
  - exact (NetworkXKBFacts.graph_cursor_navigation _ _ _ _ Hgraph).
  - exact (NaiveDictKBFacts.naive_cursor_navigation _ _ _ _ Hwf Hnaive).
Qed.

Lemma cursor_navigation_witness :
  (NetworkXKB.query elements [("k", "v")] NetworkXKB.pair_store).1
    = Ok (Some [("k", "v"); ("name", "beta")]) ∧
  NaiveDictKB.wf NaiveDictKB.grid_store ∧
  (NaiveDictKB.query items_ltb [("row", "1")] NaiveDictKB.grid_store).1
    = Ok (Some [("col", "0"); ("index", "5"); ("row", "1")]) ∧
  (∃ results, NetworkXKB.cursor_at results 0 NetworkXKB.paired_store) ∧
  (∃ i : Z,
     NaiveDictKB.query_index NaiveDictKB.queried_store = Some i ∧
     NaiveDictKB.next_results
       (length (NaiveDictKB.query_matches NaiveDictKB.queried_store))
       NaiveDictKB.queried_store
     = (Ok <$> (drop (Z.to_nat (i + 1))
                  (NaiveDictKB.query_matches NaiveDictKB.queried_store)
                ++ take (Z.to_nat (i + 1))
                     (NaiveDictKB.query_matches NaiveDictKB.queried_store)),
        NaiveDictKB.queried_store)).
Proof.
  assert ((NetworkXKB.query elements [("k", "v")] NetworkXKB.pair_store).1
          = Ok (Some [("k", "v"); ("name", "beta")])) as Hgraph by (by vm_compute).
  assert (NaiveDictKB.wf NaiveDictKB.grid_store) as Hwf by (by vm_compute).
  assert ((NaiveDictKB.query items_ltb [("row", "1")] NaiveDictKB.grid_store).1
          = Ok (Some [("col", "0"); ("index", "5"); ("row", "1")]))
    as Hnaive by (by vm_compute).
  destruct (cursor_navigation elements [("k", "v")] NetworkXKB.pair_store _
              items_ltb [("row", "1")] NaiveDictKB.grid_store _
              Hgraph Hwf Hnaive)
    as [(results & Hc & _) (i & Hi & _ & _ & _ & _ & Hcycle & _)].
  split; [exact Hgraph|]. split; [exact Hwf|]. split; [exact Hnaive|].
  split; [by exists results|]. by exists i.
Defined.

(** Two matches, walked from the first to the last. *)
Example graph_cursor_walk :
  NetworkXKB.query_results NetworkXKB.paired_store = Some ["b"; "a"] ∧
  NetworkXKB.has_prev_result NetworkXKB.paired_store = Ok false ∧
  NetworkXKB.has_next_result NetworkXKB.paired_store = Ok true ∧
  (NetworkXKB.next_result NetworkXKB.paired_store).1
    = Ok [("k", "v"); ("name", "alpha")] ∧
  NetworkXKB.has_next_result (NetworkXKB.next_result NetworkXKB.paired_store).2
    = Ok false.
Proof. by vm_compute. Qed.

(** Moves that [has_prev_result] and [has_next_result] do not allow:
    [prev_result] on the first match sets the index to [-1], which Python
    reads as the last entry; [next_result] on the last match raises and
    leaves the index one past the end. *)
Example graph_cursor_unguarded_moves :
  (NetworkXKB.prev_result NetworkXKB.paired_store).1
    = Ok [("k", "v"); ("name", "alpha")] ∧
  NetworkXKB.result_index (NetworkXKB.prev_result NetworkXKB.paired_store).2
    = Some (-1) ∧
  (NetworkXKB.next_result
     (NetworkXKB.next_result NetworkXKB.paired_store).2).1 = Raise IndexError ∧
  NetworkXKB.result_index
    (NetworkXKB.next_result
       (NetworkXKB.next_result NetworkXKB.paired_store).2).2 = Some 2.
Proof. by vm_compute. Qed.

(** On the naive store [has_prev_result] is true on the first match and
    [has_next_result] on the last; the moves wrap around. *)
Lemma naive_cursor_reports_neighbours_everywhere :
  (NaiveDictKB.query items_ltb [("row", "1")] NaiveDictKB.grid_store).1
    = Ok (Some [("col", "0"); ("index", "5"); ("row", "1")]) ∧
  length (NaiveDictKB.query_matches NaiveDictKB.queried_store) = 2%nat ∧
  NaiveDictKB.query_index NaiveDictKB.queried_store = Some 0 ∧
  NaiveDictKB.has_prev_result NaiveDictKB.queried_store = true ∧
  (NaiveDictKB.prev_result NaiveDictKB.queried_store).1
    = Ok [("col", "1"); ("index", "6"); ("row", "1")] ∧
  NaiveDictKB.query_index NaiveDictKB.example_store = Some 1 ∧
  NaiveDictKB.has_next_result NaiveDictKB.example_store = true ∧
  (NaiveDictKB.next_result NaiveDictKB.example_store).1
    = Ok [("col", "0"); ("index", "5"); ("row", "1")].
Proof. by vm_compute. Qed.

(** C3: [retrieve] of the naive store is not supported: every call raises
    [NotImplementedError] and leaves the store, the cursor with it, as it
    was, so that [has_prev_result] and [has_next_result] go on reporting
    neighbours. *)
Theorem naive_retrieve_unsupported (mem_id : string) (self : NaiveDictKB.t) :
  NaiveDictKB.retrieve mem_id self = (Raise NotImplementedError, self) ∧
  NaiveDictKB.selected (NaiveDictKB.retrieve mem_id self).2
    = NaiveDictKB.selected self ∧
  NaiveDictKB.has_prev_result (NaiveDictKB.retrieve mem_id self).2 = true ∧
  NaiveDictKB.has_next_result (NaiveDictKB.retrieve mem_id self).2 = true.
Proof. done. Qed.

(** After [retrieve] the cursor of the query before it is still there: on
    the graph store whether the identifier is found or not, on the naive
    store because [retrieve] raises.  [has_next_result] and
    [has_prev_result] report a neighbour, and the move returns a match of
    that earlier query. *)
Lemma retrieve_keeps_cursor :
  (* graph store, the identifier is found *)
  NetworkXKB.query_results NetworkXKB.paired_store = Some ["b"; "a"] ∧
  (NetworkXKB.retrieve "b" NetworkXKB.paired_store).1
    = Ok (Some [("k", "v"); ("name", "beta")]) ∧
  NetworkXKB.query_results (NetworkXKB.retrieve "b" NetworkXKB.paired_store).2
    = Some ["b"; "a"] ∧
  NetworkXKB.has_next_result (NetworkXKB.retrieve "b" NetworkXKB.paired_store).2
    = Ok true ∧
  (NetworkXKB.next_result (NetworkXKB.retrieve "b" NetworkXKB.paired_store).2).1
    = Ok [("k", "v"); ("name", "alpha")] ∧
  (* graph store, the identifier is not found *)
  (NetworkXKB.retrieve "c" NetworkXKB.paired_store).1 = Ok None ∧
  NetworkXKB.has_next_result (NetworkXKB.retrieve "c" NetworkXKB.paired_store).2
    = Ok true ∧
  (* naive store *)
  (NaiveDictKB.retrieve "b" NaiveDictKB.example_store).1
    = Raise NotImplementedError ∧
  NaiveDictKB.has_prev_result
    (NaiveDictKB.retrieve "b" NaiveDictKB.example_store).2 = true ∧
  (NaiveDictKB.prev_result
     (NaiveDictKB.retrieve "b" NaiveDictKB.example_store).2).1
    = Ok [("col", "0"); ("index", "5"); ("row", "1")].
Proof. by vm_compute. Qed.

(** ** The memory architecture *)

Module MemoryArchitectureFacts.
Import MemoryArchitecture.

Lemma concat_mapM_elem_of {A B} (f : A → outcome (list B)) (l : list A)
    (r : list B) (x : B) :
  concat_mapM f l = Ok r → x ∈ r →
  ∃ y ys, y ∈ l ∧ f y = Ok ys ∧ x ∈ ys.
Proof.
  revert r. induction l as [|y l IH]; intros r; simpl.
  { intros [= <-]. by intros ?%elem_of_nil. }
  destruct (f y) as [ys|] eqn:Hy; simpl; [|done].
  destruct (concat_mapM f l) as [zs|]; simpl; [|done].
  intros [= <-] [Hx|Hx]%elem_of_app.
  - exists y, ys. split; [left|done].
  - destruct (IH zs eq_refl Hx) as (y' & ys' & ? & ? & ?).
    exists y', ys'. split; [by right|done].
Qed.

Lemma concat_mapM_total {A B} (f : A → outcome (list B)) (l : list A) :
  (∀ y, y ∈ l → ∃ ys, f y = Ok ys) → ∃ r, concat_mapM f l = Ok r.
Proof.
  induction l as [|y l IH]; intros Hf; simpl; [by eexists|].
  destruct (Hf y) as [ys ->]; [left|]. simpl.
  destruct IH as [zs ->]; [|by eexists].
  intros y' Hy'. apply Hf. by right.
Qed.

Lemma tmm_get_keys (k : string) (m : TreeMultiMap) :
  k ∈ tmm_keys m → is_Some (tmm_get k m).
Proof.
  unfold tmm_keys. induction m as [|[k' v'] m IH]; simpl.
  { by intros ?%elem_of_nil. }
  intros Hk. case_decide; [by eexists|].
  apply elem_of_cons in Hk as [->|Hk]; [done|]. by apply IH.
Qed.

Section architecture_facts.
Context {E KB : Type} `{!Environment E} `{!KnowledgeStore KB}.
Implicit Types self : t (E := E) (KB := KB).

(** What the innermost loop of [_generate_copy_actions] lets through. *)
Lemma copy_action_to_spec self src_buf attr dst_buf dst_props acts a :
  copy_action_to self src_buf attr (dst_buf, dst_props) = Ok acts →
  a ∈ acts →
  ∃ src dst val,
    a = copy_action src_buf attr dst_buf attr ∧
    src_buf ≠ dst_buf ∧
    (dst_buf ∉ buf_ignore self) ∧
    writable dst_props = true ∧
    ¬ (src_buf = "perceptual" ∧ dst_buf = "scratch") ∧
    buffers self !! src_buf = Some src ∧ tmm_get attr src = Some val ∧
    buffers self !! dst_buf = Some dst ∧ tmm_get attr dst ≠ Some val.
Proof.
  unfold copy_action_to, buffer.
  destruct (bool_decide (src_buf ≠ dst_buf)) eqn:Hne; simpl;
    [|by intros [= <-] ?%elem_of_nil].
  destruct (bool_decide (dst_buf ∉ buf_ignore self)) eqn:Hig; simpl;
    [|by intros [= <-] ?%elem_of_nil].
  destruct (writable dst_props) eqn:Hw; simpl;
    [|by intros [= <-] ?%elem_of_nil].
  destruct (negb _) eqn:Hpair; simpl; [|by intros [= <-] ?%elem_of_nil].
  destruct (buffers self !! src_buf) as [src|] eqn:Hsrc; simpl; [|done].
  destruct (tmm_get attr src) as [val|] eqn:Hval; [|done].
  destruct (buffers self !! dst_buf) as [dst|] eqn:Hdst; simpl; [|done].
  destruct (bool_decide (Some val ≠ tmm_get attr dst)) eqn:Hdiff;
    intros [= <-]; [|by intros ?%elem_of_nil].
  intros ->%list_elem_of_singleton.
  apply bool_decide_eq_true in Hne, Hig, Hdiff.
  exists src, dst, val. repeat split; try done.
  intros [-> ->]. done.
Qed.

Lemma generated_copy_action self acts a :
  _generate_copy_actions self = Ok acts →
  a ∈ acts →
  ∃ src_buf attr dst_buf dst_props src dst val,
    a = copy_action src_buf attr dst_buf attr ∧
    src_buf ≠ dst_buf ∧
    (dst_buf, dst_props) ∈ BUFFERS ∧
    (dst_buf ∉ buf_ignore self) ∧
    writable dst_props = true ∧
    ¬ (src_buf = "perceptual" ∧ dst_buf = "scratch") ∧
    buffers self !! src_buf = Some src ∧ tmm_get attr src = Some val ∧
    buffers self !! dst_buf = Some dst ∧ tmm_get attr dst ≠ Some val.
Proof.
  intros Hgen Ha. unfold _generate_copy_actions in Hgen.
  destruct (concat_mapM_elem_of _ _ _ _ Hgen Ha)
    as ([src_buf src_props] & acts1 & _ & Hsrc & Ha1).
  cbn [fst snd] in Hsrc.
  destruct (_ || _); [by simplify_eq; apply elem_of_nil in Ha1|].
  destruct (buffer src_buf self) as [attrs|]; [|done].
  cbn [mbind outcome_bind] in Hsrc.
  destruct (concat_mapM_elem_of _ _ _ _ Hsrc Ha1)
    as (attr & acts2 & _ & Hattr & Ha2).
  destruct (concat_mapM_elem_of _ _ _ _ Hattr Ha2)
    as ([dst_buf dst_props] & acts3 & Hdst & Hto & Ha3).
  destruct (copy_action_to_spec _ _ _ _ _ _ _ Hto Ha3)
    as (src & dst & val & ? & ? & ? & ? & ? & ? & ? & ? & ?).
  by exists src_buf, attr, dst_buf, dst_props, src, dst, val.
Qed.

(** [_generate_copy_actions] returns whenever every buffer that is not
    ignored exists. *)
Lemma generate_copy_actions_total self :
  (∀ buf props, (buf, props) ∈ BUFFERS → buf ∉ buf_ignore self →
     is_Some (buffers self !! buf)) →
  ∃ acts, _generate_copy_actions self = Ok acts.
Proof.
  intros Hwf. apply concat_mapM_total. intros [src_buf src_props] Hsrc.
  cbn [fst snd].
  case_bool_decide as Hig; cbn [orb]; [by eexists|].
  destruct (copyable src_props); cbn [negb]; [|by eexists].
  unfold buffer at 1. destruct (Hwf _ _ Hsrc Hig) as [src Hs]. rewrite Hs.
  cbn [mbind outcome_bind].
  apply concat_mapM_total. intros attr Hattr.
  apply concat_mapM_total. intros [dst_buf dst_props] Hdst.
  unfold copy_action_to, buffer. rewrite Hs. cbn [mbind outcome_bind].
  destruct (tmm_get_keys attr src Hattr) as [val ->].
  destruct (bool_decide (src_buf ≠ dst_buf)); cbn [andb]; [|by eexists].
  case_bool_decide as Hig'; cbn [andb]; [|by eexists].
  destruct (writable dst_props); cbn [andb]; [|by eexists].
  destruct (negb _); [|by eexists].
  destruct (Hwf _ _ Hdst Hig') as [dst ->]. cbn [mbind outcome_bind].
  case_bool_decide; by eexists.
Qed.

Lemma generated_delete_name self acts a :
  _generate_delete_actions self = Ok acts → a ∈ acts → name a = "delete".
Proof.
  intros Hgen Ha. unfold _generate_delete_actions in Hgen.
  destruct (concat_mapM_elem_of _ _ _ _ Hgen Ha) as ([buf props] & ys & _ & Hys & Hy).
  cbn [fst snd] in Hys.
  destruct (_ || _); [by simplify_eq; apply elem_of_nil in Hy|].
  destruct (buffer buf self) as [attrs|]; [|done].
  cbn [mbind outcome_bind] in Hys. simplify_eq.
  by apply list_elem_of_fmap in Hy as (attr & -> & _).
Qed.

Lemma generated_retrieve_name self acts a :
  _generate_retrieve_actions self = Ok acts → a ∈ acts → name a = "retrieve".
Proof.
  intros Hgen Ha. unfold _generate_retrieve_actions in Hgen.
  destruct (concat_mapM_elem_of _ _ _ _ Hgen Ha) as ([buf props] & ys & _ & Hys & Hy).
  cbn [fst snd] in Hys.
  destruct (_ || _); [by simplify_eq; apply elem_of_nil in Hy|].
  destruct (buffer buf self) as [attrs|]; [|done].
  cbn [mbind outcome_bind] in Hys. simplify_eq.
  by apply list_elem_of_fmap in Hy as (av & -> & _).
Qed.

Lemma generated_cursor_name self acts a :
  _generate_cursor_actions self = Ok acts → a ∈ acts →
  name a = "prev-result" ∨ name a = "next-result".
Proof.
  unfold _generate_cursor_actions.
  destruct (buffer "retrieval" self) as [retrieval|]; [|done].
  cbn [mbind outcome_bind].
  destruct (tmm_bool retrieval); [|by intros [= <-] ?%elem_of_nil].
  destruct (ks_has_prev_result _) as [has_prev|]; [|done].
  destruct (ks_has_next_result _) as [has_next|]; [|done].
  cbn [mbind outcome_bind]. intros [= <-] Ha.
  destruct has_prev, has_next; cbn in Ha;
    repeat (apply elem_of_cons in Ha as [->|Ha];
            [(by left) || (by right)|]);
    by apply elem_of_nil in Ha.
Qed.

(** C5: an action named [copy] in the legal action set is one of the
    wrapped environment's own actions or was generated from the buffers, and
    then it copies an attribute between two different buffers, into a
    writable buffer, not from [perceptual] into [scratch], and the
    destination does not hold the source's value for the attribute. *)
Theorem copy_actions_respect_capabilities
    (sorted_set : list Action → list Action) self
    (acts : list Action) (a : Action) :
  (∀ l x, x ∈ sorted_set l ↔ x ∈ l) →
  get_actions sorted_set self = Ok acts →
  a ∈ acts →
  name a = "copy" →
  a ∈ env_get_actions (super self) ∨
  ∃ src_buf attr dst_buf dst_props src dst val,
    a = copy_action src_buf attr dst_buf attr ∧
    src_buf ≠ dst_buf ∧
    (dst_buf, dst_props) ∈ BUFFERS ∧
    (dst_buf ∉ buf_ignore self) ∧
    writable dst_props = true ∧
    ¬ (src_buf = "perceptual" ∧ dst_buf = "scratch") ∧
    buffers self !! src_buf = Some src ∧ tmm_get attr src = Some val ∧
    buffers self !! dst_buf = Some dst ∧ tmm_get attr dst ≠ Some val.
Proof.
  intros Hsorted Hget Ha Hname. unfold get_actions in Hget.
  destruct (env_get_actions (super self)) as [|n ns] eqn:Hnative.
  { simplify_eq. by apply elem_of_nil in Ha. }
  match type of Hget with
  | (if ?allow_internal_actions then _ else _) = _ =>
      destruct allow_internal_actions
  end.
  2:{ simplify_eq. left. by apply Hsorted. }
  destruct (_generate_copy_actions self) as [copies|] eqn:Hc;
    cbn [mbind outcome_bind] in Hget; [|done].
  destruct (_generate_delete_actions self) as [deletes|] eqn:Hd;
    cbn [mbind outcome_bind] in Hget; [|done].
  destruct (_generate_retrieve_actions self) as [retrieves|] eqn:Hr;
    cbn [mbind outcome_bind] in Hget; [|done].
  destruct (_generate_cursor_actions self) as [cursors|] eqn:Hk;
    cbn [mbind outcome_bind] in Hget; [|done].
  simplify_eq.
  apply (proj1 (Hsorted _ _)) in Ha.
  change (a ∈ (n :: ns) ++ copies ++ deletes ++ retrieves ++ cursors) in Ha.
  rewrite !elem_of_app in Ha.
  destruct Ha as [Ha|[Ha|[Ha|[Ha|Ha]]]].
  - by left.
  - right. by apply (generated_copy_action self copies).
  - apply (generated_delete_name self) in Ha; [congruence|done].
  - apply (generated_retrieve_name self) in Ha; [congruence|done].
  - apply (generated_cursor_name self) in Ha as [?|?]; [congruence..|done].
Qed.

(** *** The episode lifecycle *)

(** Every buffer [_clear_buffers] leaves is empty. *)
Lemma clear_buffers_empty self buf b :
  buffers (_clear_buffers self) !! buf = Some b → b = tmm_empty.
Proof.
  unfold _clear_buffers, BUFFERS. cbn [buffers with_buffers foldl fst].
  repeat case_decide;
    repeat (rewrite lookup_insert; case_decide; [by intros [= <-]|]);
    by rewrite lookup_empty.
Qed.

Lemma clear_buffers_lookup self buf props :
  (buf, props) ∈ BUFFERS → buf ∉ buf_ignore self →
  buffers (_clear_buffers self) !! buf = Some tmm_empty.
Proof.
  unfold _clear_buffers, BUFFERS. cbn [buffers with_buffers foldl fst].
  intros Hbuf Hig.
  repeat (apply elem_of_cons in Hbuf as [[= -> ->]|Hbuf];
          [repeat case_decide; try done;
           by repeat (rewrite lookup_insert; case_decide; [done|])|]).
  by apply elem_of_nil in Hbuf.
Qed.

(** [start_new_episode] empties the buffers, loads [perceptual] with the
    observation of the wrapped environment, sets the count of internal
    actions to zero and does not touch the knowledge store. *)
Lemma start_new_episode_spec self :
  let self' := start_new_episode self in
  super self' = env_start_new_episode (super self) ∧
  buffers self' !! "perceptual" = Some (env_get_observation (super self')) ∧
  (∀ buf b, buf ≠ "perceptual" → buffers self' !! buf = Some b → b = tmm_empty) ∧
  internal_action_count self' = 0 ∧
  knowledge_store self' = knowledge_store self.
Proof.
  intros self'. split; [done|]. split.
  { unfold self', start_new_episode, _sync_input_buffers. simpl.
    by rewrite lookup_insert_eq. }
  split; [|done].
  intros buf b Hbuf. unfold self', start_new_episode, _sync_input_buffers.
  cbn [buffers with_internal_action_count with_buffers].
  rewrite lookup_insert_ne by done. apply clear_buffers_empty.
Qed.

Lemma super_reset_frame self :
  buf_ignore (super_reset self) = buf_ignore self ∧
  knowledge_store (super_reset self) = knowledge_store self.
Proof. unfold super_reset. by destruct env_reset. Qed.

(** [reset] leaves every buffer empty, [perceptual] with them, and does not
    touch the knowledge store; the count of internal actions it leaves is
    the one the wrapped [reset] leaves. *)
Lemma reset_spec self :
  (∀ buf b, buffers (reset self) !! buf = Some b → b = tmm_empty) ∧
  ("perceptual" ∉ buf_ignore self →
     buffers (reset self) !! "perceptual" = Some tmm_empty) ∧
  internal_action_count (reset self)
    = internal_action_count (super_reset self) ∧
  (∀ f, env_reset = ResetState f →
     internal_action_count (reset self) = internal_action_count self) ∧
  knowledge_store (reset self) = knowledge_store self.
Proof.
  destruct (super_reset_frame self) as [Hig Hks].
  split; [intros buf b; apply clear_buffers_empty|].
  split.
  { intros Hp. apply (clear_buffers_lookup _ _ (mkProps true false)).
    - by left.
    - by rewrite Hig. }
  split; [done|]. split; [|done].
  intros f Hf. unfold reset, super_reset. by rewrite Hf.
Qed.

End architecture_facts.

Lemma copy_actions_respect_capabilities_witness :
  let self := example_architecture in
  let a := copy_action "retrieval" "row" "query" "row" in
  ∃ acts,
    (∀ (l : list Action) x, x ∈ remove_dups l ↔ x ∈ l) ∧
    @get_actions _ _ _ (naive_store items_ltb) remove_dups self = Ok acts ∧
    a ∈ acts ∧
    name a = "copy" ∧
    (a ∈ env_get_actions (super self) ∨
     ∃ src_buf attr dst_buf dst_props src dst val,
       a = copy_action src_buf attr dst_buf attr ∧
       src_buf ≠ dst_buf ∧
       (dst_buf, dst_props) ∈ BUFFERS ∧
       (dst_buf ∉ buf_ignore self) ∧
       writable dst_props = true ∧
       ¬ (src_buf = "perceptual" ∧ dst_buf = "scratch") ∧
       buffers self !! src_buf = Some src ∧ tmm_get attr src = Some val ∧
       buffers self !! dst_buf = Some dst ∧ tmm_get attr dst ≠ Some val).
Proof.
  intros self a.
  destruct (@get_actions _ _ _ (naive_store items_ltb) remove_dups self)
    as [acts|] eqn:Hget; [|by vm_compute in Hget].
  assert (∀ (l : list Action) x, x ∈ remove_dups l ↔ x ∈ l) as Hsorted
    by (intros l x; apply elem_of_remove_dups).
  assert (a ∈ acts) as Ha.
  { vm_compute in Hget. injection Hget as <-.
    apply (bool_decide_unpack _). by vm_compute. }
  exists acts. split; [exact Hsorted|]. split; [reflexivity|].
  split; [exact Ha|]. split; [reflexivity|].
  exact (copy_actions_respect_capabilities remove_dups self acts a
           Hsorted Hget Ha eq_refl).
Defined.

(** The store of the example is the one the naive store reaches when the
    25 cells are stored and the cell of index 9 is queried, as test.py
    asserts. *)
Example example_architecture_store :
  NaiveDictKB.query items_ltb [("index", "9")]
    (NaiveDictKB.mk (grid_knowledge 5) None [])
  = (Ok (Some [("col", "4"); ("index", "9"); ("row", "1")]),
     knowledge_store example_architecture).
Proof. by vm_compute. Qed.


(** The copy actions of the example: the retrieved cell can be copied into
    [scratch], and [row] and [col] into [query]; [index], which [query]
    holds already with the same value, is not offered, nor is any copy out
    of [perceptual] into [scratch]. *)
Example example_copy_actions :
  _generate_copy_actions example_architecture
  = Ok [ copy_action "retrieval" "col" "query" "col";
         copy_action "retrieval" "col" "scratch" "col";
         copy_action "retrieval" "index" "scratch" "index";
         copy_action "retrieval" "row" "query" "row";
         copy_action "retrieval" "row" "scratch" "row" ].
Proof. by vm_compute. Qed.

(** C6: [reset] over [TestEnv]: the wrapped environment is back at index
    0 and has an observation, yet [perceptual] is left empty, because
    [_clear_buffers] runs last and nothing loads the buffer after it;
    [start_new_episode] from the same state loads it.  The count of
    internal actions is 0 after [reset] here only because the [reset] of
    [TestEnv] calls [start_new_episode].  The knowledge store is the same
    after both. *)
Theorem reset_leaves_perceptual_empty :
  let self := example_architecture in
  buffers self !! "perceptual" = Some [("index", "9")] ∧
  internal_action_count self = 1 ∧
  env_get_observation (super (reset self)) = [("index", "0")] ∧
  buffers (reset self) !! "perceptual" = Some [] ∧
  internal_action_count (reset self) = 0 ∧
  buffers (start_new_episode self) !! "perceptual" = Some [("index", "0")] ∧
  internal_action_count (start_new_episode self) = 0 ∧
  knowledge_store (reset self) = knowledge_store self ∧
  knowledge_store (start_new_episode self) = knowledge_store self.
Proof. by vm_compute. Qed.

(** *** The other generators, the legal actions and the observation *)

Lemma concat_mapM_elem_of_2 {A B} (f : A → outcome (list B)) (l : list A)
    (r : list B) (x : B) (y : A) (ys : list B) :
  concat_mapM f l = Ok r → y ∈ l → f y = Ok ys → x ∈ ys → x ∈ r.
Proof.
  revert r. induction l as [|z l IH]; intros r; simpl.
  { by intros _ ?%elem_of_nil. }
  destruct (f z) as [zs|] eqn:Hz; simpl; [|done].
  destruct (concat_mapM f l) as [rs|]; simpl; [|done].
  intros [= <-] [->|Hy]%elem_of_cons Hys Hx; apply elem_of_app.
  - left. congruence.
  - right. by apply (IH rs).
Qed.

Lemma concat_mapM_fmap {A B} (f : A → outcome (list B)) (g : A → B)
    (l : list A) :
  (∀ x, x ∈ l → f x = Ok [g x]) → concat_mapM f l = Ok (g <$> l).
Proof.
  induction l as [|x l IH]; intros Hf; simpl; [done|].
  rewrite (Hf x) by left. simpl. rewrite IH; [done|].
  intros y Hy. apply Hf. by right.
Qed.

Lemma concat_mapM_nil {A B} (f : A → outcome (list B)) (l : list A) :
  (∀ x, x ∈ l → f x = Ok []) → concat_mapM f l = Ok [].
Proof.
  induction l as [|x l IH]; intros Hf; simpl; [done|].
  rewrite (Hf x) by left. simpl. rewrite IH; [done|].
  intros y Hy. apply Hf. by right.
Qed.

Lemma dict_of_slots_lookup (l : list (string * string * string)) :
  ∀ (d0 : gmap string string) (key val : string),
  foldl (λ (d : gmap string string) (s : string * string * string),
           <[s.1.1 +:+ "_" +:+ s.1.2 := s.2]> d) d0 l !! key = Some val →
  d0 !! key = Some val ∨
  ∃ s, s ∈ l ∧ s.1.1 +:+ "_" +:+ s.1.2 = key ∧ s.2 = val.
Proof.
  induction l as [|s l IH]; intros d0 key val; simpl; [by left|].
  intros [Hd|(s' & Hs' & Hk & Hv)]%IH.
  - destruct (decide (s.1.1 +:+ "_" +:+ s.1.2 = key)) as [Hk|Hk].
    + rewrite Hk, lookup_insert_eq in Hd. injection Hd as <-.
      right. exists s. split; [by left|done].
    + rewrite lookup_insert_ne in Hd by done. by left.
  - right. exists s'. split; [by right|done].
Qed.

Lemma dict_of_slots_is_Some (l : list (string * string * string)) :
  ∀ (d0 : gmap string string) (s : string * string * string),
  s ∈ l →
  is_Some (foldl (λ (d : gmap string string) (s : string * string * string),
                    <[s.1.1 +:+ "_" +:+ s.1.2 := s.2]> d) d0 l
           !! (s.1.1 +:+ "_" +:+ s.1.2)).
Proof.
  assert (∀ (l : list (string * string * string)) (d0 : gmap string string) key,
            is_Some (d0 !! key) →
            is_Some (foldl (λ (d : gmap string string) s,
                              <[s.1.1 +:+ "_" +:+ s.1.2 := s.2]> d) d0 l !! key))
    as Hkeep.
  { clear. induction l as [|s l IH]; intros d0 key Hd; simpl; [done|].
    apply IH. destruct (decide (s.1.1 +:+ "_" +:+ s.1.2 = key)) as [<-|Hk].
    - rewrite lookup_insert_eq. by eexists.
    - by rewrite lookup_insert_ne. }
  induction l as [|s' l IH]; intros d0 s Hs; simpl.
  { by apply elem_of_nil in Hs. }
  apply elem_of_cons in Hs as [->|Hs]; [|by apply IH].
  apply Hkeep. rewrite lookup_insert_eq. by eexists.
Qed.

Lemma buffer_key_inj (buf buf' attr attr' : string) :
  buf ∈ BUFFERS.*1 → buf' ∈ BUFFERS.*1 →
  buf +:+ "_" +:+ attr = buf' +:+ "_" +:+ attr' → buf = buf' ∧ attr = attr'.
Proof.
  unfold BUFFERS. cbn [fmap list_fmap fst].
  intros Hb Hb'.
  repeat (apply elem_of_cons in Hb as [->|Hb]);
    try (by apply elem_of_nil in Hb);
    repeat (apply elem_of_cons in Hb' as [->|Hb']);
    try (by apply elem_of_nil in Hb');
    cbn; intros [=]; by subst.
Qed.

Section architecture_more.
Context {E KB : Type} `{!Environment E} `{!KnowledgeStore KB}.
Implicit Types self : t (E := E) (KB := KB).

(** *** The generators *)

(** X20: the actions [_generate_delete_actions] returns are the deletions
    of the attributes held by the writable buffers that are not ignored,
    all of them and no others. *)
Theorem delete_actions_respect_capabilities self acts a :
  _generate_delete_actions self = Ok acts →
  a ∈ acts ↔
  ∃ buf props attrs attr,
    a = delete_action buf attr ∧
    (buf, props) ∈ BUFFERS ∧
    (buf ∉ buf_ignore self) ∧
    writable props = true ∧
    buffers self !! buf = Some attrs ∧
    attr ∈ tmm_keys attrs.
Proof.
  intros Hgen. unfold _generate_delete_actions in Hgen. split.
  - intros Ha.
    destruct (concat_mapM_elem_of _ _ _ _ Hgen Ha)
      as ([buf props] & ys & Hbuf & Hys & Hy).
    cbn [fst snd] in Hys.
    destruct (bool_decide (buf ∈ buf_ignore self)) eqn:Hig; cbn [orb] in Hys;
      [by simplify_eq; apply elem_of_nil in Hy|].
    destruct (writable props) eqn:Hw; cbn [negb] in Hys;
      [|by simplify_eq; apply elem_of_nil in Hy].
    unfold buffer in Hys.
    destruct (buffers self !! buf) as [attrs|] eqn:Hattrs; [|done].
    cbn [mbind outcome_bind] in Hys. simplify_eq.
    apply list_elem_of_fmap in Hy as (attr & -> & Hattr).
    apply bool_decide_eq_false in Hig.
    by exists buf, props, attrs, attr.
  - intros (buf & props & attrs & attr & -> & Hbuf & Hig & Hw & Hattrs & Hattr).
    eapply (concat_mapM_elem_of_2 _ _ _ _ (buf, props)); [exact Hgen|done| |].
    + cbn [fst snd]. rewrite bool_decide_eq_false_2 by done. rewrite Hw.
      cbn [orb negb]. unfold buffer. rewrite Hattrs. cbn [mbind outcome_bind].
      reflexivity.
    + apply list_elem_of_fmap. by exists attr.
Qed.

(** X21: the actions [_generate_retrieve_actions] returns are the
    retrievals of the attributes of the copyable buffers that are not
    ignored whose value the store holds to be retrievable, all of them and
    no others. *)
Theorem retrieve_actions_respect_capabilities self acts a :
  _generate_retrieve_actions self = Ok acts →
  a ∈ acts ↔
  ∃ buf props attrs attr value,
    a = retrieve_action buf attr ∧
    (buf, props) ∈ BUFFERS ∧
    (buf ∉ buf_ignore self) ∧
    copyable props = true ∧
    buffers self !! buf = Some attrs ∧
    (attr, value) ∈ tmm_items attrs ∧
    ks_retrievable (KB := KB) value = true.
Proof.
  intros Hgen. unfold _generate_retrieve_actions in Hgen. split.
  - intros Ha.
    destruct (concat_mapM_elem_of _ _ _ _ Hgen Ha)
      as ([buf props] & ys & Hbuf & Hys & Hy).
    cbn [fst snd] in Hys.
    destruct (bool_decide (buf ∈ buf_ignore self)) eqn:Hig; cbn [orb] in Hys;
      [by simplify_eq; apply elem_of_nil in Hy|].
    destruct (copyable props) eqn:Hc; cbn [negb] in Hys;
      [|by simplify_eq; apply elem_of_nil in Hy].
    unfold buffer in Hys.
    destruct (buffers self !! buf) as [attrs|] eqn:Hattrs; [|done].
    cbn [mbind outcome_bind] in Hys. simplify_eq.
    apply list_elem_of_fmap in Hy as ([attr value] & -> & Hav).
    apply list_elem_of_filter in Hav as [Hr Hav].
    apply bool_decide_eq_false in Hig.
    by exists buf, props, attrs, attr, value.
  - intros (buf & props & attrs & attr & value & -> & Hbuf & Hig & Hc & Hattrs
            & Hav & Hr).
    eapply (concat_mapM_elem_of_2 _ _ _ _ (buf, props)); [exact Hgen|done| |].
    + cbn [fst snd]. rewrite bool_decide_eq_false_2 by done. rewrite Hc.
      cbn [orb negb]. unfold buffer. rewrite Hattrs. cbn [mbind outcome_bind].
      reflexivity.
    + apply list_elem_of_fmap. exists (attr, value). split; [done|].
      by apply list_elem_of_filter.
Qed.

(** X22: [_generate_cursor_actions] returns only when there is a
    [retrieval] buffer; it then offers [prev-result] exactly when the buffer
    is not empty and [has_prev_result] is true, [next-result] exactly when
    the buffer is not empty and [has_next_result] is true, and nothing
    else. *)
Theorem cursor_actions_follow_the_flags self acts :
  _generate_cursor_actions self = Ok acts →
  ∃ retrieval,
    buffers self !! "retrieval" = Some retrieval ∧
    (prev_result_action ∈ acts ↔
       retrieval ≠ tmm_empty ∧
       ks_has_prev_result (knowledge_store self) = Ok true) ∧
    (next_result_action ∈ acts ↔
       retrieval ≠ tmm_empty ∧
       ks_has_next_result (knowledge_store self) = Ok true) ∧
    ∀ a, a ∈ acts → a = prev_result_action ∨ a = next_result_action.
Proof.
  unfold _generate_cursor_actions, buffer.
  destruct (buffers self !! "retrieval") as [retrieval|]; [|done].
  cbn [mbind outcome_bind]. intros Hacts. exists retrieval. split; [done|].
  destruct retrieval as [|av retrieval]; cbn [tmm_bool] in Hacts.
  { injection Hacts as <-. split; [|split].
    - split; [by intros ?%elem_of_nil|by intros [? _]].
    - split; [by intros ?%elem_of_nil|by intros [? _]].
    - by intros a ?%elem_of_nil. }
  destruct (ks_has_prev_result _) as [has_prev|]; [|done].
  destruct (ks_has_next_result _) as [has_next|]; [|done].
  cbn [mbind outcome_bind] in Hacts. injection Hacts as <-.
  destruct has_prev, has_next; cbn [app]; repeat split;
    try done;
    try (intros _; apply (bool_decide_unpack _); by vm_compute);
    try (exfalso;
         match goal with Ha : _ ∈ _ |- _ => revert Ha end;
         apply (bool_decide_unpack _); by vm_compute);
    try (by intros [_ [=]]);
    try (intros a Ha;
         repeat (apply elem_of_cons in Ha as [->|Ha]; [(by left) || (by right)|]);
         by apply elem_of_nil in Ha).
Qed.


(** *** The legal actions *)

(** X23: the legal actions hold every action of the wrapped environment;
    there are none when the wrapped environment has none; they are the
    actions of the wrapped environment alone once the count of internal
    actions has reached [max_internal_actions]; and any other legal action
    is named [copy], [delete], [retrieve], [prev-result] or [next-result]
    and is offered while the count is below the maximum. *)
Theorem get_actions_within_budget (sorted_set : list Action → list Action)
    self acts :
  (∀ l x, x ∈ sorted_set l ↔ x ∈ l) →
  get_actions sorted_set self = Ok acts →
  (∀ a, a ∈ env_get_actions (super self) → a ∈ acts) ∧
  (env_get_actions (super self) = [] → acts = []) ∧
  (∀ n, max_internal_actions self = Some n → n ≤ internal_action_count self →
     ∀ a, a ∈ acts ↔ a ∈ env_get_actions (super self)) ∧
  (∀ a, a ∈ acts →
     a ∈ env_get_actions (super self) ∨
     (name a ∈ ["copy"; "delete"; "retrieve"; "prev-result"; "next-result"] ∧
      match max_internal_actions self with
      | None => True
      | Some n => internal_action_count self < n
      end)).
Proof.
  intros Hsorted Hget. unfold get_actions in Hget.
  destruct (env_get_actions (super self)) as [|n0 ns] eqn:Hnative.
  { simplify_eq. split; [done|]. split; [done|]. split; [done|].
    by intros a ?%elem_of_nil. }
  assert (match max_internal_actions self with
          | None => true
          | Some n => internal_action_count self <? n
          end = true →
          match max_internal_actions self with
          | None => True
          | Some n => internal_action_count self < n
          end) as Hallow.
  { destruct (max_internal_actions self); [|done]. by intros ?%Z.ltb_lt. }
  destruct (match max_internal_actions self with
            | None => true
            | Some n => internal_action_count self <? n
            end) eqn:Hbudget.
  2:{ simplify_eq. split; [intros a; apply Hsorted|]. split; [done|].
      split; [intros n _ _ a; apply Hsorted|].
      intros a Ha. left. by apply Hsorted. }
  destruct (_generate_copy_actions self) as [copies|] eqn:Hc;
    cbn [mbind outcome_bind] in Hget; [|done].
  destruct (_generate_delete_actions self) as [deletes|] eqn:Hd;
    cbn [mbind outcome_bind] in Hget; [|done].
  destruct (_generate_retrieve_actions self) as [retrieves|] eqn:Hr;
    cbn [mbind outcome_bind] in Hget; [|done].
  destruct (_generate_cursor_actions self) as [cursors|] eqn:Hk;
    cbn [mbind outcome_bind] in Hget; [|done].
  simplify_eq.
  split.
  { intros a Ha. apply Hsorted.
    change (a ∈ (n0 :: ns) ++ copies ++ deletes ++ retrieves ++ cursors).
    apply elem_of_app. by left. }
  split; [done|]. split.
  { intros n Hn Hle. rewrite Hn in Hbudget. apply Z.ltb_lt in Hbudget. lia. }
  intros a Ha. apply (proj1 (Hsorted _ _)) in Ha.
  change (a ∈ (n0 :: ns) ++ copies ++ deletes ++ retrieves ++ cursors) in Ha.
  rewrite !elem_of_app in Ha.
  destruct Ha as [Ha|[Ha|[Ha|[Ha|Ha]]]]; [by left|right..];
    (split; [|exact (Hallow eq_refl)]).
  - destruct (generated_copy_action self copies a Hc Ha)
      as (? & ? & ? & ? & ? & ? & ? & -> & _).
    simpl. by left.
  - rewrite (generated_delete_name self deletes a Hd Ha). right. by left.
  - rewrite (generated_retrieve_name self retrieves a Hr Ha).
    right. right. by left.
  - destruct (generated_cursor_name self cursors a Hk Ha) as [->| ->].
    + do 3 right. by left.
    + do 4 right. by left.
Qed.


(** *** The first action set of an episode *)

Lemma start_new_episode_buffers self :
  let self' := start_new_episode self in
  buf_ignore self' = buf_ignore self ∧
  buffers self' !! "perceptual" = Some (env_get_observation (super self')) ∧
  ∀ buf, buf ∈ ["query"; "retrieval"; "scratch"] →
    buffers self' !! buf = if decide (buf ∈ buf_ignore self) then None
                           else Some tmm_empty.
Proof.
  intros self'. split; [done|]. split.
  { unfold self', start_new_episode, _sync_input_buffers. simpl.
    by rewrite lookup_insert_eq. }
  intros buf Hbuf.
  unfold self', start_new_episode, _sync_input_buffers, _clear_buffers, BUFFERS.
  cbn [buffers with_internal_action_count with_buffers with_super foldl fst
       buf_ignore].
  repeat (apply elem_of_cons in Hbuf as [->|Hbuf];
          [rewrite lookup_insert_ne by done;
           repeat case_decide; try done;
           by repeat (rewrite lookup_insert; case_decide; [done|])|]).
  by apply elem_of_nil in Hbuf.
Qed.


Lemma copy_from_perceptual self (obs : TreeMultiMap) (attr : string) :
  buffers self !! "perceptual" = Some obs →
  buffers self !! "query" =
    (if decide ("query" ∈ buf_ignore self) then None else Some tmm_empty) →
  attr ∈ tmm_keys obs →
  concat_mapM (copy_action_to self "perceptual" attr) BUFFERS =
    Ok (if decide ("query" ∈ buf_ignore self) then []
        else [copy_action "perceptual" attr "query" attr]).
Proof.
  intros Hp Hq Hattr. destruct (tmm_get_keys attr obs Hattr) as [val Hval].
  unfold BUFFERS. cbn [concat_mapM]. unfold copy_action_to, buffer.
  cbn [writable andb]. rewrite Hp, Hq. cbn [mbind outcome_bind]. rewrite Hval.
  rewrite (bool_decide_eq_false_2 ("perceptual" ≠ "perceptual")) by (by intros ?).
  rewrite (bool_decide_eq_true_2 ("perceptual" ≠ "query")) by done.
  rewrite (bool_decide_eq_true_2 ("perceptual" ≠ "retrieval")) by done.
  rewrite (bool_decide_eq_true_2 ("perceptual" ≠ "scratch")) by done.
  rewrite (bool_decide_eq_true_2 ("perceptual" = "perceptual")) by done.
  rewrite (bool_decide_eq_false_2 ("query" = "scratch")) by done.
  rewrite (bool_decide_eq_true_2 ("scratch" = "scratch")) by done.
  rewrite !andb_false_r. cbn [andb negb mbind outcome_bind app].
  destruct (decide ("query" ∈ buf_ignore self)) as [Hig|Hig].
  - by rewrite (bool_decide_eq_false_2 ("query" ∉ buf_ignore self))
      by (by intros ?).
  - rewrite (bool_decide_eq_true_2 ("query" ∉ buf_ignore self)) by done.
    cbn [mbind outcome_bind tmm_get tmm_empty].
    by rewrite bool_decide_eq_true_2 by done.
Qed.

Lemma copy_actions_at_episode_start self :
  let self' := start_new_episode self in
  let obs := env_get_observation (super self') in
  _generate_copy_actions self' =
    Ok (if decide ("perceptual" ∈ buf_ignore self ∨ "query" ∈ buf_ignore self)
        then []
        else (λ attr, copy_action "perceptual" attr "query" attr)
               <$> tmm_keys obs).
Proof.
  intros self' obs.
  destruct (start_new_episode_buffers self) as (Hig & Hp & Hbufs).
  fold self' in Hig, Hp, Hbufs. fold obs in Hp.
  pose proof (Hbufs "query" ltac:(by left)) as Hq.
  pose proof (Hbufs "retrieval" ltac:(right; by left)) as Hr.
  pose proof (Hbufs "scratch" ltac:(do 2 right; by left)) as Hs.
  clear Hbufs. rewrite <-Hig in Hq, Hr, Hs |- *.
  unfold _generate_copy_actions.
  match goal with |- concat_mapM ?f _ = _ => set (F := f) end.
  assert (∀ src props,
            buffers self' !! src = Some tmm_empty ∨ src ∈ buf_ignore self'
            ∨ copyable props = false →
            F (src, props) = Ok []) as Hempty.
  { intros src props Hsrc. unfold F. cbn [fst snd].
    destruct (decide (src ∈ buf_ignore self')) as [Hin|Hin].
    { by rewrite bool_decide_eq_true_2. }
    rewrite bool_decide_eq_false_2 by done.
    destruct (copyable props); cbn [orb negb]; [|done].
    destruct Hsrc as [Hsrc|[?|?]]; [|done..].
    unfold buffer. by rewrite Hsrc. }
  unfold BUFFERS. cbn [concat_mapM].
  rewrite (Hempty "query"), (Hempty "retrieval"), (Hempty "scratch"); cycle 1.
  { destruct (decide ("scratch" ∈ buf_ignore self')); [right; by left|by left]. }
  { destruct (decide ("retrieval" ∈ buf_ignore self'));
      [right; by left|by left]. }
  { by do 2 right. }
  cbn [mbind outcome_bind app].
  assert (F ("perceptual", mkProps true false) =
          Ok (if decide ("perceptual" ∈ buf_ignore self'
                         ∨ "query" ∈ buf_ignore self')
              then []
              else (λ attr, copy_action "perceptual" attr "query" attr)
                     <$> tmm_keys obs)) as ->.
  { unfold F. cbn [fst snd copyable negb orb].
    destruct (decide ("perceptual" ∈ buf_ignore self')) as [Hin|Hin].
    { rewrite bool_decide_eq_true_2 by done. cbn [orb].
      by rewrite decide_True by by left. }
    rewrite bool_decide_eq_false_2 by done. cbn [orb].
    unfold buffer at 1. rewrite Hp. cbn [mbind outcome_bind].
    destruct (decide ("query" ∈ buf_ignore self')) as [Hqin|Hqin].
    - rewrite decide_True by by right.
      apply concat_mapM_nil. intros attr Hattr.
      rewrite (copy_from_perceptual self' obs attr Hp);
        [|by rewrite decide_True|done].
      by rewrite decide_True.
    - rewrite decide_False by (by intros [?|?]).
      apply concat_mapM_fmap. intros attr Hattr.
      rewrite (copy_from_perceptual self' obs attr Hp);
        [|by rewrite decide_False|done].
      by rewrite decide_False. }
  cbn [mbind outcome_bind]. by rewrite app_nil_r.
Qed.


Lemma delete_actions_at_episode_start self :
  _generate_delete_actions (start_new_episode self) = Ok [].
Proof.
  set (self' := start_new_episode self).
  destruct (start_new_episode_buffers self) as (Hig & _ & Hbufs).
  fold self' in Hig, Hbufs.
  pose proof (Hbufs "query" ltac:(by left)) as Hq.
  pose proof (Hbufs "scratch" ltac:(do 2 right; by left)) as Hs.
  clear Hbufs. rewrite <-Hig in Hq, Hs.
  unfold _generate_delete_actions.
  match goal with |- concat_mapM ?f _ = _ => set (F := f) end.
  assert (∀ buf props,
            buffers self' !! buf =
              (if decide (buf ∈ buf_ignore self') then None else Some tmm_empty)
            ∨ writable props = false →
            F (buf, props) = Ok []) as Hempty.
  { intros buf props Hbuf. unfold F. cbn [fst snd].
    destruct (decide (buf ∈ buf_ignore self')) as [Hin|Hin].
    { by rewrite bool_decide_eq_true_2. }
    rewrite bool_decide_eq_false_2 by done.
    destruct (writable props); cbn [orb negb]; [|done].
    destruct Hbuf as [Hbuf|?]; [|done].
    unfold buffer. by rewrite Hbuf. }
  unfold BUFFERS. cbn [concat_mapM].
  rewrite (Hempty "perceptual"), (Hempty "query"), (Hempty "retrieval"),
    (Hempty "scratch"); [done|by left|by right|by left|by right].
Qed.

Lemma retrieve_actions_at_episode_start self :
  let self' := start_new_episode self in
  let obs := env_get_observation (super self') in
  _generate_retrieve_actions self' =
    Ok (if decide ("perceptual" ∈ buf_ignore self) then []
        else (λ av : string * string, retrieve_action "perceptual" av.1)
               <$> filter (λ av, ks_retrievable (KB := KB) av.2 = true)
                          (tmm_items obs)).
Proof.
  intros self' obs.
  destruct (start_new_episode_buffers self) as (Hig & Hp & Hbufs).
  fold self' in Hig, Hp, Hbufs. fold obs in Hp.
  pose proof (Hbufs "retrieval" ltac:(right; by left)) as Hr.
  pose proof (Hbufs "scratch" ltac:(do 2 right; by left)) as Hs.
  clear Hbufs. rewrite <-Hig in Hr, Hs |- *.
  unfold _generate_retrieve_actions.
  match goal with |- concat_mapM ?f _ = _ => set (F := f) end.
  assert (∀ buf props,
            buffers self' !! buf =
              (if decide (buf ∈ buf_ignore self') then None else Some tmm_empty)
            ∨ copyable props = false →
            F (buf, props) = Ok []) as Hempty.
  { intros buf props Hbuf. unfold F. cbn [fst snd].
    destruct (decide (buf ∈ buf_ignore self')) as [Hin|Hin].
    { by rewrite bool_decide_eq_true_2. }
    rewrite bool_decide_eq_false_2 by done.
    destruct (copyable props); cbn [orb negb]; [|done].
    destruct Hbuf as [Hbuf|?]; [|done].
    unfold buffer. by rewrite Hbuf. }
  unfold BUFFERS. cbn [concat_mapM].
  rewrite (Hempty "query"), (Hempty "retrieval"), (Hempty "scratch");
    [|by left|by left|by right].
  cbn [mbind outcome_bind app]. unfold F. cbn [fst snd copyable negb orb].
  destruct (decide ("perceptual" ∈ buf_ignore self')) as [Hin|Hin].
  - by rewrite bool_decide_eq_true_2.
  - rewrite bool_decide_eq_false_2 by done. cbn [orb].
    unfold buffer. rewrite Hp. cbn [mbind outcome_bind]. by rewrite app_nil_r.
Qed.

Lemma cursor_actions_at_episode_start self :
  _generate_cursor_actions (start_new_episode self) =
    if decide ("retrieval" ∈ buf_ignore self) then Raise KeyError else Ok [].
Proof.
  destruct (start_new_episode_buffers self) as (_ & _ & Hbufs).
  pose proof (Hbufs "retrieval" ltac:(right; by left)) as Hr.
  unfold _generate_cursor_actions, buffer. rewrite Hr.
  by case_decide.
Qed.

Lemma get_actions_at_episode_start (sorted_set : list Action → list Action)
    self :
  let self' := start_new_episode self in
  let obs := env_get_observation (super self') in
  env_get_actions (super self') ≠ [] →
  match max_internal_actions self with None => True | Some n => 0 < n end →
  get_actions sorted_set self' =
    if decide ("retrieval" ∈ buf_ignore self) then Raise KeyError
    else
      Ok (sorted_set
            (env_get_actions (super self')
             ++ (if decide ("perceptual" ∈ buf_ignore self
                            ∨ "query" ∈ buf_ignore self)
                 then []
                 else (λ attr, copy_action "perceptual" attr "query" attr)
                        <$> tmm_keys obs)
             ++ []
             ++ (if decide ("perceptual" ∈ buf_ignore self) then []
                 else (λ av : string * string, retrieve_action "perceptual" av.1)
                        <$> filter (λ av, ks_retrievable (KB := KB) av.2 = true)
                                   (tmm_items obs))
             ++ [])).
Proof.
  intros self' obs Hnative Hbudget. unfold get_actions.
  destruct (env_get_actions (super self')) as [|n0 ns] eqn:Hn; [done|].
  assert (match max_internal_actions self' with
          | None => true
          | Some n => internal_action_count self' <? n
          end = true) as ->.
  { change (max_internal_actions self') with (max_internal_actions self).
    change (internal_action_count self') with 0.
    destruct (max_internal_actions self); [|done]. by apply Z.ltb_lt. }
  unfold self'.
  rewrite copy_actions_at_episode_start, delete_actions_at_episode_start,
    retrieve_actions_at_episode_start, cursor_actions_at_episode_start.
  cbn [mbind outcome_bind].
  by destruct (decide ("retrieval" ∈ buf_ignore self)).
Qed.

(** X24: an architecture built to ignore the [retrieval] buffer has no
    legal actions at the start of an episode: [get_actions] raises
    [KeyError] whenever the wrapped environment has actions and internal
    actions are allowed. *)
Theorem get_actions_needs_the_retrieval_buffer
    (sorted_set : list Action → list Action) self :
  "retrieval" ∈ buf_ignore self →
  env_get_actions (env_start_new_episode (super self)) ≠ [] →
  match max_internal_actions self with None => True | Some n => 0 < n end →
  get_actions sorted_set (start_new_episode self) = Raise KeyError.
Proof.
  intros Hig Hnative Hbudget.
  rewrite get_actions_at_episode_start by done. by rewrite decide_True.
Qed.

(** X25: at the start of an episode, with a [retrieval] buffer, the legal
    actions are the actions of the wrapped environment, the copy of every
    attribute of the observation from [perceptual] into [query], and the
    retrieval of every attribute of the observation whose value the store
    holds to be retrievable; the latter two unless the buffers involved are
    ignored. *)
Theorem first_actions_of_an_episode
    (sorted_set : list Action → list Action) self :
  (∀ l x, x ∈ sorted_set l ↔ x ∈ l) →
  "retrieval" ∉ buf_ignore self →
  env_get_actions (env_start_new_episode (super self)) ≠ [] →
  match max_internal_actions self with None => True | Some n => 0 < n end →
  let self' := start_new_episode self in
  let obs := env_get_observation (super self') in
  ∃ acts,
    get_actions sorted_set self' = Ok acts ∧
    ∀ a, a ∈ acts ↔
      a ∈ env_get_actions (super self') ∨
      (("perceptual" ∉ buf_ignore self) ∧ ("query" ∉ buf_ignore self) ∧
       ∃ attr, attr ∈ tmm_keys obs ∧
         a = copy_action "perceptual" attr "query" attr) ∨
      (("perceptual" ∉ buf_ignore self) ∧
       ∃ attr value, (attr, value) ∈ tmm_items obs ∧
         ks_retrievable (KB := KB) value = true ∧
         a = retrieve_action "perceptual" attr).
Proof.
  intros Hsorted Hig Hnative Hbudget self' obs.
  unfold self'. rewrite get_actions_at_episode_start by done.
  rewrite decide_False by done. eexists. split; [done|].
  intros a. rewrite Hsorted, !elem_of_app. fold self' obs. split.
  - intros [Ha|[Ha|[Ha|[Ha|Ha]]]].
    + by left.
    + right. left. case_decide as Hd; [by apply elem_of_nil in Ha|].
      apply list_elem_of_fmap in Ha as (attr & -> & Hattr).
      split; [by intros ?; apply Hd; left|].
      split; [by intros ?; apply Hd; right|]. by exists attr.
    + by apply elem_of_nil in Ha.
    + right. right. case_decide as Hd; [by apply elem_of_nil in Ha|].
      apply list_elem_of_fmap in Ha as ([attr value] & -> & Hav).
      apply list_elem_of_filter in Hav as [Hr Hav].
      split; [done|]. by exists attr, value.
    + by apply elem_of_nil in Ha.
  - intros [Ha|[(Hp & Hq & attr & Hattr & ->)|(Hp & attr & value & Hav & Hr & ->)]].
    + by left.
    + right. left. rewrite decide_False by (by intros [?|?]).
      apply list_elem_of_fmap. by exists attr.
    + do 3 right. left. rewrite decide_False by done.
      apply list_elem_of_fmap. exists (attr, value). split; [done|].
      by apply list_elem_of_filter.
Qed.

(** *** The observation *)

Lemma slots_spec self :
  ∃ l, slots self = Ok l ∧
    ∀ buf attr val,
      (buf, attr, val) ∈ l ↔
      ∃ attrs, buffers self !! buf = Some attrs ∧ (attr, val) ∈ tmm_items attrs.
Proof.
  unfold slots.
  destruct (py_sorted_Permutation
              (λ a b : string * TreeMultiMap, Ok (String.ltb a.1 b.1))
              (λ _, True) (λ x y _ _, ex_intro _ _ eq_refl)
              (map_to_list (buffers self))) as (bufs & -> & Hp).
  { by apply Forall_true. }
  cbn [mbind outcome_bind]. eexists. split; [done|].
  intros buf attr val. rewrite list_elem_of_bind. split.
  - intros ([buf' attrs] & Hs & Hb). cbn [fst snd] in Hs.
    apply list_elem_of_fmap in Hs as ([attr' val'] & [= -> -> ->] & Hav).
    rewrite Hp in Hb. apply elem_of_map_to_list in Hb. by exists attrs.
  - intros (attrs & Hb & Hav). exists (buf, attrs). split.
    + cbn [fst snd]. apply list_elem_of_fmap. by exists (attr, val).
    + rewrite Hp. by apply elem_of_map_to_list.
Qed.

(** X26: when the buffers bear the names of [BUFFERS], [to_dict] returns a
    dictionary whose every entry is the value of an attribute of a buffer
    under the key [<buffer>_<attribute>], and which has such an entry for
    every attribute of every buffer. *)
Theorem to_dict_keys self :
  (∀ buf, is_Some (buffers self !! buf) → buf ∈ BUFFERS.*1) →
  ∃ d, to_dict self = Ok d ∧
    (∀ key val, d !! key = Some val →
       ∃ buf attrs attr,
         buffers self !! buf = Some attrs ∧
         (attr, val) ∈ tmm_items attrs ∧
         key = buf +:+ "_" +:+ attr) ∧
    (∀ buf attrs attr val,
       buffers self !! buf = Some attrs → (attr, val) ∈ tmm_items attrs →
       ∃ val', d !! (buf +:+ "_" +:+ attr) = Some val' ∧
               (attr, val') ∈ tmm_items attrs).
Proof.
  intros Hnames. unfold to_dict.
  destruct (slots_spec self) as (l & -> & Hl). cbn [mbind outcome_bind].
  eexists. split; [done|]. split.
  - intros key val [Hd|([[buf attr] val'] & Hs & Hk & Hv)]%dict_of_slots_lookup.
    { by rewrite lookup_empty in Hd. }
    cbn [fst snd] in Hk, Hv. subst val'.
    apply Hl in Hs as (attrs & Hb & Hav). by exists buf, attrs, attr.
  - intros buf attrs attr val Hb Hav.
    assert ((buf, attr, val) ∈ l) as Hs by (apply Hl; by exists attrs).
    destruct (dict_of_slots_is_Some l ∅ _ Hs) as [val' Hval'].
    cbn [fst snd] in Hval'. exists val'. split; [done|].
    apply dict_of_slots_lookup in Hval'
      as [Hd|([[buf' attr'] val''] & Hs' & Hk & Hv)].
    { by rewrite lookup_empty in Hd. }
    cbn [fst snd] in Hk, Hv. subst val''.
    apply Hl in Hs' as (attrs' & Hb' & Hav').
    apply buffer_key_inj in Hk as [-> ->].
    + by simplify_eq.
    + apply Hnames. by eexists.
    + apply Hnames. by eexists.
Qed.

End architecture_more.

(** *** Instances *)

Lemma delete_actions_respect_capabilities_witness :
  let self := example_architecture in
  let a := delete_action "query" "index" in
  _generate_delete_actions self = Ok [a] ∧
  (a ∈ [a] ↔
   ∃ buf props attrs attr,
     a = delete_action buf attr ∧
     (buf, props) ∈ BUFFERS ∧
     (buf ∉ buf_ignore self) ∧
     writable props = true ∧
     buffers self !! buf = Some attrs ∧
     attr ∈ tmm_keys attrs).
Proof.
  intros self a.
  assert (_generate_delete_actions self = Ok [a]) as Hgen by (by vm_compute).
  split; [exact Hgen|].
  exact (delete_actions_respect_capabilities self [a] a Hgen).
Defined.

Lemma retrieve_actions_respect_capabilities_witness :
  let self := graph_architecture in
  let acts := [ retrieve_action "perceptual" "index";
                retrieve_action "retrieval" "index";
                retrieve_action "retrieval" "row" ] in
  let a := retrieve_action "retrieval" "row" in
  @_generate_retrieve_actions _ _
     (graph_store NetworkXKB.example_uuid elements) self = Ok acts ∧
  (a ∈ acts ↔
   ∃ buf props attrs attr value,
     a = retrieve_action buf attr ∧
     (buf, props) ∈ BUFFERS ∧
     (buf ∉ buf_ignore self) ∧
     copyable props = true ∧
     buffers self !! buf = Some attrs ∧
     (attr, value) ∈ tmm_items attrs ∧
     NetworkXKB.retrievable value = true).
Proof.
  intros self acts a.
  assert (@_generate_retrieve_actions _ _
            (graph_store NetworkXKB.example_uuid elements) self = Ok acts)
    as Hgen by (by vm_compute).
  split; [exact Hgen|].
  exact (@retrieve_actions_respect_capabilities _ _
           (graph_store NetworkXKB.example_uuid elements) self acts a Hgen).
Defined.

Lemma cursor_actions_follow_the_flags_witness :
  let self := graph_architecture in
  let acts := [next_result_action] in
  @_generate_cursor_actions _ _
     (graph_store NetworkXKB.example_uuid elements) self = Ok acts ∧
  ∃ retrieval,
    buffers self !! "retrieval" = Some retrieval ∧
    (prev_result_action ∈ acts ↔
       retrieval ≠ tmm_empty ∧
       NetworkXKB.has_prev_result (knowledge_store self) = Ok true) ∧
    (next_result_action ∈ acts ↔
       retrieval ≠ tmm_empty ∧
       NetworkXKB.has_next_result (knowledge_store self) = Ok true) ∧
    ∀ a, a ∈ acts → a = prev_result_action ∨ a = next_result_action.
Proof.
  intros self acts.
  assert (@_generate_cursor_actions _ _
            (graph_store NetworkXKB.example_uuid elements) self = Ok acts)
    as Hgen by (by vm_compute).
  split; [exact Hgen|].
  exact (@cursor_actions_follow_the_flags _ _
           (graph_store NetworkXKB.example_uuid elements) self acts Hgen).
Defined.

Lemma get_actions_within_budget_witness :
  let self := example_architecture in
  ∃ acts,
    (∀ (l : list Action) x, x ∈ remove_dups l ↔ x ∈ l) ∧
    @get_actions _ _ _ (naive_store items_ltb) remove_dups self = Ok acts ∧
    (∀ a, a ∈ env_get_actions (super self) → a ∈ acts) ∧
    (env_get_actions (super self) = [] → acts = []) ∧
    (∀ n, max_internal_actions self = Some n → n ≤ internal_action_count self →
       ∀ a, a ∈ acts ↔ a ∈ env_get_actions (super self)) ∧
    (∀ a, a ∈ acts →
       a ∈ env_get_actions (super self) ∨
       (name a ∈ ["copy"; "delete"; "retrieve"; "prev-result"; "next-result"] ∧
        match max_internal_actions self with
        | None => True
        | Some n => internal_action_count self < n
        end)).
Proof.
  intros self.
  destruct (@get_actions _ _ _ (naive_store items_ltb) remove_dups self)
    as [acts|] eqn:Hget; [|by vm_compute in Hget].
  assert (∀ (l : list Action) x, x ∈ remove_dups l ↔ x ∈ l) as Hsorted
    by (intros l x; apply elem_of_remove_dups).
  exists acts. split; [exact Hsorted|]. split; [reflexivity|].
  exact (@get_actions_within_budget _ _ _ (naive_store items_ltb) remove_dups
           self acts Hsorted Hget).
Defined.

Lemma get_actions_needs_the_retrieval_buffer_witness :
  let self := retrieval_ignored_architecture in
  "retrieval" ∈ buf_ignore self ∧
  env_get_actions (env_start_new_episode (super self)) ≠ [] ∧
  match max_internal_actions self with None => True | Some n => 0 < n end ∧
  @get_actions _ _ _ (naive_store items_ltb) remove_dups
     (start_new_episode self) = Raise KeyError.
Proof.
  intros self.
  assert ("retrieval" ∈ buf_ignore self) as Hig
    by (apply (bool_decide_unpack _); by vm_compute).
  assert (env_get_actions (env_start_new_episode (super self)) ≠ []) as Hnative
    by (by vm_compute).
  split; [exact Hig|]. split; [exact Hnative|]. split; [exact I|].
  exact (@get_actions_needs_the_retrieval_buffer _ _ _ (naive_store items_ltb)
           remove_dups self Hig Hnative I).
Defined.

Lemma first_actions_of_an_episode_witness :
  let self := example_architecture in
  (∀ (l : list Action) x, x ∈ remove_dups l ↔ x ∈ l) ∧
  ("retrieval" ∉ buf_ignore self) ∧
  env_get_actions (env_start_new_episode (super self)) ≠ [] ∧
  match max_internal_actions self with None => True | Some n => 0 < n end ∧
  let self' := start_new_episode self in
  let obs := env_get_observation (super self') in
  ∃ acts,
    @get_actions _ _ _ (naive_store items_ltb) remove_dups self' = Ok acts ∧
    ∀ a, a ∈ acts ↔
      a ∈ env_get_actions (super self') ∨
      (("perceptual" ∉ buf_ignore self) ∧ ("query" ∉ buf_ignore self) ∧
       ∃ attr, attr ∈ tmm_keys obs ∧
         a = copy_action "perceptual" attr "query" attr) ∨
      (("perceptual" ∉ buf_ignore self) ∧
       ∃ attr value, (attr, value) ∈ tmm_items obs ∧
         NaiveDictKB.retrievable value = true ∧
         a = retrieve_action "perceptual" attr).
Proof.
  intros self.
  assert (∀ (l : list Action) x, x ∈ remove_dups l ↔ x ∈ l) as Hsorted
    by (intros l x; apply elem_of_remove_dups).
  assert ("retrieval" ∉ buf_ignore self) as Hig
    by (apply (bool_decide_unpack _); by vm_compute).
  assert (env_get_actions (env_start_new_episode (super self)) ≠ []) as Hnative
    by (by vm_compute).
  split; [exact Hsorted|]. split; [exact Hig|]. split; [exact Hnative|].
  split; [exact I|].
  exact (@first_actions_of_an_episode _ _ _ (naive_store items_ltb) remove_dups
           self Hsorted Hig Hnative I).
Defined.

(** The legal actions at the start of the episode of
    [test_memory_architecture]: the 26 actions of [TestEnv] and the copy
    of [perceptual.index] into [query.index], as test.py asserts. *)
Example graph_architecture_retrieval :
  (NetworkXKB.query elements [("row", "1")]
     (NetworkXKB.store NetworkXKB.example_uuid (Some "cell9")
        [("index", "9"); ("row", "1")]
        (NetworkXKB.store NetworkXKB.example_uuid (Some "cell5")
           [("index", "5"); ("row", "1")]
           (NetworkXKB.init (Some NetworkXKB.append_activation_fn))).2).2).1
  = Ok (buffers graph_architecture !! "retrieval").
Proof. by vm_compute. Qed.

Example first_actions_of_the_test :
  @get_actions _ _ _ (naive_store items_ltb) remove_dups
     (start_new_episode example_architecture)
  = Ok (env_get_actions (mkTestEnv 5 0 0)
        ++ [copy_action "perceptual" "index" "query" "index"]).
Proof. by vm_compute. Qed.

Lemma to_dict_keys_witness :
  let self := example_architecture in
  (∀ buf, is_Some (buffers self !! buf) → buf ∈ BUFFERS.*1) ∧
  ∃ d, to_dict self = Ok d ∧
    (∀ key val, d !! key = Some val →
       ∃ buf attrs attr,
         buffers self !! buf = Some attrs ∧
         (attr, val) ∈ tmm_items attrs ∧
         key = buf +:+ "_" +:+ attr) ∧
    (∀ buf attrs attr val,
       buffers self !! buf = Some attrs → (attr, val) ∈ tmm_items attrs →
       ∃ val', d !! (buf +:+ "_" +:+ attr) = Some val' ∧
               (attr, val') ∈ tmm_items attrs).
Proof.
  intros self.
  assert (∀ buf, is_Some (buffers self !! buf) → buf ∈ BUFFERS.*1) as Hnames.
  { assert (set_Forall (λ buf, buf ∈ BUFFERS.*1) (dom (buffers self))) as Hall
      by (apply (bool_decide_unpack _); by vm_compute).
    intros buf Hbuf. apply Hall. by apply elem_of_dom. }
  split; [exact Hnames|].
  exact (to_dict_keys self Hnames).
Defined.

(** The observation test.py asserts after the query for the cell of index
    9. *)
Example to_dict_example :
  to_dict example_architecture
  = Ok {[ "perceptual_index" := "9"; "query_index" := "9";
          "retrieval_index" := "9"; "retrieval_row" := "1";
          "retrieval_col" := "4" ]}.
Proof. by vm_compute. Qed.

End MemoryArchitectureFacts.
